(** * AwesomeProject: authentication, session and secure-storage core

    A shallow embedding of [SecurityUtils] (src/utils/SecurityUtils.tsx) and
    [AuthService] (src/services/AuthService.tsx), and the properties of
    the specification proved about it.

    - JavaScript strings are sequences of UTF-16 code units ([list Z]);
      Numbers hold integers, on which the arithmetic of the source is
      exact.
    - [Date.now()], [AsyncStorage] and the static [authAttempts] table are
      the three pieces of ambient state; they live in a [World] record that
      is threaded through a small state-and-exception monad. An [await] is
      a sequencing point: calls of the service do not overlap.
    - The medium is reliable: [AsyncStorage] calls do not reject, so the
      exceptions are the ones [btoa], [atob] and [JSON.parse] raise.
    - [authAttempts] is a plain object: the lookup [authAttempts[username]]
      also finds what the object inherits, that is, the members of
      [Object.prototype] ([constructor], [toString], [__proto__], ...) and
      whatever the limiter itself wrote on them. The model follows the
      prototype chain as ECMAScript with its Annex B defines it, for
      strict code (the source is a module).
    - [btoa], [atob], [JSON.stringify] and [JSON.parse] are platform
      functions; they are modelled after their standards, the JSON ones
      for the two shapes the service stores. *)

From Stdlib Require Import ZArith Ascii String Lia.
From stdpp Require Import gmap list strings.

Open Scope Z_scope.

(* ===================================================================== *)
(** ** JavaScript strings *)
(* ===================================================================== *)

Abbreviation jsstring := (list Z).

(** A source literal, as code units. *)
Definition lit (s : string) : jsstring :=
  map (fun a => Z.of_N (N_of_ascii a)) (list_ascii_of_string s).
Arguments lit s%_string.

Definition in_range (lo hi c : Z) : bool := (lo <=? c) && (c <=? hi).

(** Code units that fit in one byte: the strings [btoa] accepts. *)
Definition is_latin1 (s : jsstring) : bool := forallb (in_range 0 255) s.

Definition jsstring_eqb (a b : jsstring) : bool := bool_decide (a = b).

(** [s.substring(0, n)] *)
Definition substring0 (n : nat) (s : jsstring) : jsstring := take n s.

(* ===================================================================== *)
(** ** Numbers: 32-bit wrap-around and [Number.prototype.toString] *)
(* ===================================================================== *)

(** ToInt32: the value every bitwise operator returns. *)
Definition to_int32 (z : Z) : Z := (z + 2 ^ 31) mod 2 ^ 32 - 2 ^ 31.

(** [x << n] on Numbers holding integers. *)
Definition js_shl (x n : Z) : Z := to_int32 (Z.shiftl (to_int32 x) n).

(** [x & y] on Numbers holding integers. *)
Definition js_and (x y : Z) : Z := to_int32 (Z.land (to_int32 x) (to_int32 y)).

Definition digit_char (d : Z) : Z := if d <? 10 then 48 + d else 87 + d.

Fixpoint digits_acc (fuel : nat) (radix n : Z) (acc : jsstring) : jsstring :=
  match fuel with
  | O => acc
  | S f =>
      let acc' := digit_char (n mod radix) :: acc in
      if n / radix =? 0 then acc' else digits_acc f radix (n / radix) acc'
  end.

Definition digits (radix n : Z) : jsstring :=
  digits_acc (S (Z.to_nat (Z.log2 n))) radix n [].

(** [n.toString(radix)] for an integer [n]. *)
Definition toString_radix (radix n : Z) : jsstring :=
  if n <? 0 then 45 :: digits radix (- n) else digits radix n.

(** [n.toString()] and the implicit conversion in [s + n]. *)
Definition toString (n : Z) : jsstring := toString_radix 10 n.

(** [Math.ceil(x / d)] for integers [x] and [d > 0]. *)
Definition ceil_div (x d : Z) : Z := - ((- x) / d).

(* ===================================================================== *)
(** ** Base64: [btoa] and [atob] *)
(* ===================================================================== *)

Definition b64_char (i : Z) : Z :=
  if i <? 26 then 65 + i
  else if i <? 52 then 71 + i
  else if i <? 62 then i - 4
  else if i =? 62 then 43
  else 47.

Definition b64_index (c : Z) : option Z :=
  if in_range 65 90 c then Some (c - 65)
  else if in_range 97 122 c then Some (c - 71)
  else if in_range 48 57 c then Some (c + 4)
  else if c =? 43 then Some 62
  else if c =? 47 then Some 63
  else None.

Fixpoint btoa_bytes (s : jsstring) : jsstring :=
  match s with
  | [] => []
  | [a] => [b64_char (a / 4); b64_char (a mod 4 * 16); 61; 61]
  | [a; b] =>
      [b64_char (a / 4); b64_char (a mod 4 * 16 + b / 16);
       b64_char (b mod 16 * 4); 61]
  | a :: b :: c :: r =>
      b64_char (a / 4) :: b64_char (a mod 4 * 16 + b / 16)
        :: b64_char (b mod 16 * 4 + c / 64) :: b64_char (c mod 64)
        :: btoa_bytes r
  end.

(** [btoa(s)]: [None] stands for the InvalidCharacterError raised when a
    code unit exceeds 0xFF. *)
Definition btoa (s : jsstring) : option jsstring :=
  if is_latin1 s then Some (btoa_bytes s) else None.

Definition is_ascii_whitespace (c : Z) : bool :=
  (c =? 9) || (c =? 10) || (c =? 12) || (c =? 13) || (c =? 32).

Definition dec2 (c1 c2 : Z) : option jsstring :=
  i1 ← b64_index c1; i2 ← b64_index c2;
  Some [i1 * 4 + i2 / 16].

Definition dec3 (c1 c2 c3 : Z) : option jsstring :=
  i1 ← b64_index c1; i2 ← b64_index c2; i3 ← b64_index c3;
  Some [i1 * 4 + i2 / 16; i2 mod 16 * 16 + i3 / 4].

Definition dec4 (c1 c2 c3 c4 : Z) : option jsstring :=
  i1 ← b64_index c1; i2 ← b64_index c2; i3 ← b64_index c3;
  i4 ← b64_index c4;
  Some [i1 * 4 + i2 / 16; i2 mod 16 * 16 + i3 / 4; i3 mod 4 * 64 + i4].

(** Forgiving-base64 decoding of a text without whitespace: padding is
    dropped only from a final group of four, a length of 1 modulo 4 fails,
    and so does any code unit outside the alphabet. *)
Fixpoint atob_chars (s : jsstring) : option jsstring :=
  match s with
  | [] => Some []
  | [_] => None
  | [c1; c2] => dec2 c1 c2
  | [c1; c2; c3] => dec3 c1 c2 c3
  | c1 :: c2 :: c3 :: c4 :: r =>
      match r with
      | [] =>
          if (c3 =? 61) && (c4 =? 61) then dec2 c1 c2
          else if c4 =? 61 then dec3 c1 c2 c3
          else dec4 c1 c2 c3 c4
      | _ =>
          b ← dec4 c1 c2 c3 c4; rest ← atob_chars r; Some (b ++ rest)
      end
  end.

(** [atob(s)]: [None] stands for the InvalidCharacterError. *)
Definition atob (s : jsstring) : option jsstring :=
  atob_chars (filter (fun c => is_ascii_whitespace c = false) s).

(* ===================================================================== *)
(** ** SecurityUtils: the obfuscation codec *)
(* ===================================================================== *)

(** [key.charCodeAt(i % key.length)] as the right operand of [^]: for the
    empty key the index is NaN, the code is NaN, and [^] reads it as 0. *)
Definition key_code (key : jsstring) (i : nat) : Z :=
  nth (i mod length key)%nat key 0.

(** [String.fromCharCode(charCode ^ keyCode)] at every index. *)
Definition xor_with_key (text key : jsstring) : jsstring :=
  imap (fun i c => Z.lxor c (key_code key i) mod 65536) text.

(** [SecurityUtils.encrypt]: raises when [btoa] does. *)
Definition encrypt (text key : jsstring) : option jsstring :=
  btoa (xor_with_key text key).

(** [SecurityUtils.decrypt]: a failing [atob] is caught and yields the
    empty string. *)
Definition decrypt (encryptedText key : jsstring) : jsstring :=
  match atob encryptedText with
  | Some decoded => xor_with_key decoded key
  | None => []
  end.

Definition hash_step (hash char : Z) : Z :=
  let hash := js_shl hash 5 - hash + char in
  js_and hash hash.

Definition salt : jsstring := lit "APP_SALT_2024".

(** [SecurityUtils.hashPassword]: [btoa] is applied to digits and a sign,
    so it cannot raise; the [default] is never taken (see
    [hashPassword_nonempty]). *)
Definition hashPassword (password : jsstring) : jsstring :=
  let hash := 0 in
  if (length password =? 0)%nat then toString hash
  else
    let hash := fold_left hash_step password hash in
    let saltedHash := toString_radix 36 (hash + Z.of_nat (length salt)) in
    default [] (btoa saltedHash).

(* ===================================================================== *)
(** ** The ambient state and its monad *)
(* ===================================================================== *)

(** One entry of [SecurityUtils.authAttempts]. *)
Record Attempt := { count : Z; lastAttempt : Z }.

(** [storage] is the AsyncStorage medium, and [clock n] the value of the
    [n]-th reading of [Date.now()]; [ticks] counts the readings made so
    far.

    [authAttempts] is the static table of the rate limiter, a plain
    object: the entries it holds as its own properties and, under the
    name [__proto__], the entry the limiter installed as its prototype,
    if any (an assignment to [__proto__] sets the prototype of the
    object, a read returns it). Without one, the prototype is
    [Object.prototype].

    [stamped] is what the limiter wrote outside the table: the
    [lastAttempt] it set on [Object.prototype], kept under the name
    [__proto__], and on a function that [Object.prototype] holds, kept
    under the name of the function. The [count] it set beside it is
    always NaN (it is [undefined] or NaN, incremented). *)
Record World := {
  storage : gmap (list Z) (list Z);
  authAttempts : gmap (list Z) Attempt;
  stamped : gmap (list Z) Z;
  clock : nat -> Z;
  ticks : nat
}.

(** A computation returns a value or raises; the world it leaves behind is
    kept in both cases. *)
Inductive result (A : Type) : Type :=
  | Ok (a : A)
  | Throw.
Arguments Ok {A} a.
Arguments Throw {A}.

Definition M (A : Type) : Type := World -> result A * World.

#[global] Instance M_ret : MRet M := fun A a w => (Ok a, w).

#[global] Instance M_bind : MBind M := fun A B f m w =>
  match m w with
  | (Ok a, w') => f a w'
  | (Throw, w') => (Throw, w')
  end.

Definition throw {A} : M A := fun w => (Throw, w).

(** [try { body } catch { handler }] *)
Definition try_catch {A} (body handler : M A) : M A := fun w =>
  match body w with
  | (Ok a, w') => (Ok a, w')
  | (Throw, w') => handler w'
  end.

(** A platform function that may raise. *)
Definition raising {A} (o : option A) : M A :=
  match o with
  | Some a => mret a
  | None => throw
  end.

(** [Date.now()] *)
Definition Date_now : M Z := fun w =>
  (Ok (clock w (ticks w)),
   {| storage := storage w; authAttempts := authAttempts w;
      stamped := stamped w; clock := clock w; ticks := S (ticks w) |}).

(** [AsyncStorage.getItem(key)] *)
Definition AsyncStorage_getItem (key : jsstring) : M (option jsstring) :=
  fun w => (Ok (storage w !! key), w).

(** [AsyncStorage.setItem(key, value)] *)
Definition AsyncStorage_setItem (key value : jsstring) : M unit := fun w =>
  (Ok tt,
   {| storage := <[key := value]> (storage w);
      authAttempts := authAttempts w; stamped := stamped w;
      clock := clock w; ticks := ticks w |}).

(** The values the rate limiter meets: [undefined], a Number ([None] is
    NaN), an entry [{count, lastAttempt}], and a built-in object, which is
    [Object.prototype] itself under the name [__proto__] and otherwise
    the function [Object.prototype] holds under [name]. *)
Inductive Value :=
  | Undefined
  | Num (n : option Z)
  | Entry (a : Attempt)
  | Builtin (name : jsstring).

(** [!v] is false. *)
Definition truthy (v : Value) : bool :=
  match v with
  | Undefined | Num None => false
  | Num (Some n) => negb (n =? 0)
  | Entry _ | Builtin _ => true
  end.

(** ToNumber *)
Definition to_number (v : Value) : option Z :=
  match v with
  | Num n => n
  | Undefined | Entry _ | Builtin _ => None
  end.

(** [x - y], [x > k] and [x >= k] on Numbers: NaN compares false. *)
Definition js_sub (x y : option Z) : option Z :=
  match x, y with
  | Some a, Some b => Some (a - b)
  | _, _ => None
  end.

Definition js_gt (x : option Z) (k : Z) : bool :=
  match x with
  | Some a => a >? k
  | None => false
  end.

Definition js_ge (x : option Z) (k : Z) : bool :=
  match x with
  | Some a => a >=? k
  | None => false
  end.

(** The functions of [Object.prototype]. *)
Definition prototype_functions : list jsstring :=
  [lit "constructor"; lit "hasOwnProperty"; lit "isPrototypeOf";
   lit "propertyIsEnumerable"; lit "toLocaleString"; lit "toString";
   lit "valueOf"; lit "__defineGetter__"; lit "__defineSetter__";
   lit "__lookupGetter__"; lit "__lookupSetter__"].

(** [Object.prototype[name]] for a name other than [__proto__]: one of
    its functions, or one of the two properties the limiter may have
    written on it. *)
Definition Object_prototype_get (name : jsstring) (w : World) : Value :=
  if bool_decide (name ∈ prototype_functions) then Builtin name
  else
    match stamped w !! lit "__proto__" with
    | Some last =>
        if bool_decide (name = lit "count") then Num None
        else if bool_decide (name = lit "lastAttempt") then Num (Some last)
        else Undefined
    | None => Undefined
    end.

(** The value of [this.authAttempts[username]]: an own property of the
    table; for [__proto__], the prototype of the table; then an own
    property of the installed prototype; then [Object.prototype]. *)
Definition lookup_attempts (username : jsstring) (w : World) : Value :=
  match authAttempts w !! username with
  | Some a => Entry a
  | None =>
      if bool_decide (username = lit "__proto__") then Builtin username
      else
        match authAttempts w !! lit "__proto__" with
        | Some proto =>
            if bool_decide (username = lit "count")
            then Num (Some (count proto))
            else if bool_decide (username = lit "lastAttempt")
            then Num (Some (lastAttempt proto))
            else Object_prototype_get username w
        | None => Object_prototype_get username w
        end
  end.

Definition get_attempts (username : jsstring) : M Value :=
  fun w => (Ok (lookup_attempts username w), w).

(** [this.authAttempts[username] = {count, lastAttempt}]: an own property
    is created or replaced (the members of [Object.prototype] and of an
    entry are writable data properties, so they are shadowed); for
    [__proto__] the object becomes the prototype of the table. *)
Definition set_attempts (username : jsstring) (a : Attempt) : M unit :=
  fun w =>
    (Ok tt,
     {| storage := storage w;
        authAttempts := <[username := a]> (authAttempts w);
        stamped := stamped w;
        clock := clock w; ticks := ticks w |}).

Inductive Member := Count | LastAttempt.

Definition member_name (m : Member) : jsstring :=
  match m with
  | Count => lit "count"
  | LastAttempt => lit "lastAttempt"
  end.

(** [v.count] and [v.lastAttempt]. A built-in object has the property
    when the limiter wrote it, and inherits it from [Object.prototype]
    otherwise; a Number inherits it through [Number.prototype]. *)
Definition get_member (v : Value) (m : Member) : M Value := fun w =>
  match v with
  | Undefined => (Throw, w)
  | Num _ => (Ok (Object_prototype_get (member_name m) w), w)
  | Entry a =>
      (Ok (Num (Some match m with
                     | Count => count a
                     | LastAttempt => lastAttempt a
                     end)), w)
  | Builtin name =>
      (Ok match stamped w !! name with
          | Some last =>
              match m with
              | Count => Num None
              | LastAttempt => Num (Some last)
              end
          | None => Object_prototype_get (member_name m) w
          end, w)
  end.

(** [userAttempts.count++; userAttempts.lastAttempt = now], where
    [userAttempts] is what the table gave under [username]. An entry is
    changed in place. On a built-in object the count, [undefined] or NaN
    before, becomes NaN. On a Number the first assignment raises a
    TypeError, the code being strict. *)
Definition increment (userAttempts : Value) (username : jsstring) (now : Z)
  : M unit :=
  match userAttempts with
  | Undefined | Num _ => throw
  | Entry a =>
      set_attempts username {| count := count a + 1; lastAttempt := now |}
  | Builtin name => fun w =>
      (Ok tt,
       {| storage := storage w; authAttempts := authAttempts w;
          stamped := <[name := now]> (stamped w);
          clock := clock w; ticks := ticks w |})
  end.

(* ===================================================================== *)
(** ** SecurityUtils: secure storage and user ids *)
(* ===================================================================== *)

Definition getEncryptionKey : M jsstring :=
  now ← Date_now;
  mret (lit "RN_APP_" ++ toString_radix 36 now).

(** [!value] for [value : string | null] *)
Definition falsy (v : option jsstring) : bool :=
  match v with
  | None | Some [] => true
  | Some (_ :: _) => false
  end.

Definition secureStore (key value : jsstring) : M unit :=
  try_catch
    (encryptionKey ← getEncryptionKey;
     encryptedValue ← raising (encrypt value encryptionKey);
     AsyncStorage_setItem (lit "secure_" ++ key) encryptedValue;;
     encodedKey ← raising (btoa encryptionKey);
     AsyncStorage_setItem (lit "key_" ++ key) encodedKey)
    throw.

Definition secureRetrieve (key : jsstring) : M (option jsstring) :=
  try_catch
    (encryptedValue ← AsyncStorage_getItem (lit "secure_" ++ key);
     keyHash ← AsyncStorage_getItem (lit "key_" ++ key);
     if falsy encryptedValue || falsy keyHash then mret None
     else
       encryptionKey ← raising (atob (default [] keyHash));
       mret (Some (decrypt (default [] encryptedValue) encryptionKey)))
    (mret None).

Definition generateSecureUserId (username : jsstring) : M jsstring :=
  now ← Date_now;
  let timestamp := toString now in
  let userHash := hashPassword (username ++ timestamp) in
  mret (lit "user_" ++ substring0 12 userHash).

(* ===================================================================== *)
(** ** SecurityUtils: the rate limiter *)
(* ===================================================================== *)

Record RateLimit := { allowed : bool; remainingTime : option Z }.

(** In the third branch a NaN [remainingTime] would read as an absent
    one; it does not arise, since a count that is a Number belongs to an
    entry, whose [lastAttempt] is a Number too. *)
Definition checkRateLimit (username : jsstring) : M RateLimit :=
  now ← Date_now;
  userAttempts ← get_attempts username;
  if negb (truthy userAttempts) then
    set_attempts username {| count := 1; lastAttempt := now |};;
    mret {| allowed := true; remainingTime := None |}
  else
    lastAttempt ← get_member userAttempts LastAttempt;
    if js_gt (js_sub (Some now) (to_number lastAttempt)) (15 * 60 * 1000) then
      set_attempts username {| count := 1; lastAttempt := now |};;
      mret {| allowed := true; remainingTime := None |}
    else
      count ← get_member userAttempts Count;
      if js_ge (to_number count) 5 then
        lastAttempt ← get_member userAttempts LastAttempt;
        let remainingTime :=
          (fun ms => ceil_div ms 1000)
            <$> js_sub (Some (15 * 60 * 1000))
                  (js_sub (Some now) (to_number lastAttempt)) in
        mret {| allowed := false; remainingTime := remainingTime |}
      else
        increment userAttempts username now;;
        mret {| allowed := true; remainingTime := None |}.

(** [this.authAttempts = {}]: a new table, whose prototype is
    [Object.prototype]. What was written on the built-in objects stays. *)
Definition clearSensitiveData : M unit := fun w =>
  (Ok tt,
   {| storage := storage w; authAttempts := ∅; stamped := stamped w;
      clock := clock w; ticks := ticks w |}).

(* ===================================================================== *)
(** ** SecurityUtils: input validation *)
(* ===================================================================== *)

Inductive InputType := Username | Password | Text.

Record Validation := {
  isValid : bool;
  sanitized : jsstring;
  errors : list jsstring
}.

(** WhiteSpace and LineTerminator code units, as [String.prototype.trim]
    removes them. *)
Definition is_js_whitespace (c : Z) : bool :=
  in_range 9 13 c || (c =? 32) || (c =? 160) || (c =? 5760)
  || in_range 8192 8202 c || (c =? 8232) || (c =? 8233) || (c =? 8239)
  || (c =? 8287) || (c =? 12288) || (c =? 65279).

Fixpoint trim_start (s : jsstring) : jsstring :=
  match s with
  | c :: s' => if is_js_whitespace c then trim_start s' else s
  | [] => []
  end.

Definition trim (s : jsstring) : jsstring :=
  rev (trim_start (rev (trim_start s))).

(** Under the [i] flag without [u], an ASCII letter of the pattern matches
    exactly its two ASCII cases. *)
Definition lower_ascii (c : Z) : Z := if in_range 65 90 c then c + 32 else c.

(** [pat], in lower case, matches at the head of [s], ignoring case. *)
Fixpoint starts_with_ci (pat s : jsstring) : bool :=
  match pat, s with
  | [], _ => true
  | p :: pat', c :: s' => (lower_ascii c =? p) && starts_with_ci pat' s'
  | _ :: _, [] => false
  end.

(** [\w] *)
Definition is_word_char (c : Z) : bool :=
  in_range 97 122 c || in_range 65 90 c || in_range 48 57 c || (c =? 95).

Definition script_close : jsstring := lit "</script>".

(** The tail of the script pattern (any text in which no closing tag
    starts, then the closing tag) matches everything up to and including
    the first closing tag, and nothing else; the result is the number of
    code units matched. *)
Fixpoint find_closer (s : jsstring) : option nat :=
  match s with
  | [] => None
  | _ :: s' =>
      if starts_with_ci script_close s then Some (length script_close)
      else S <$> find_closer s'
  end.

(** Length of the match of the script pattern at the head of [s], if
    there is one: an opening [<script], a word boundary, and the tail. *)
Definition script_match (s : jsstring) : option nat :=
  if starts_with_ci (lit "<script") s then
    let rest := drop 7 s in
    let boundary :=
      match rest with
      | c :: _ => negb (is_word_char c)
      | [] => true
      end in
    if boundary then (fun n => 7 + n)%nat <$> find_closer rest else None
  else None.

(** The global replacement of script blocks by the empty string; [skip]
    code units of the current match are still to be dropped. *)
Fixpoint strip_scripts (skip : nat) (s : jsstring) : jsstring :=
  match s with
  | [] => []
  | c :: s' =>
      match skip with
      | S k => strip_scripts k s'
      | O =>
          match script_match s with
          | Some (S k) => strip_scripts k s'
          | _ => c :: strip_scripts O s'
          end
      end
  end.

(** The stripped characters: angle brackets, both quotes, percent,
    semicolon, parentheses, ampersand and plus. *)
Definition is_dangerous (c : Z) : bool :=
  (c =? 60) || (c =? 62) || (c =? 34) || (c =? 39) || (c =? 37)
  || (c =? 59) || (c =? 40) || (c =? 41) || (c =? 38) || (c =? 43).

Definition sanitize (input : jsstring) : jsstring :=
  let sanitized := trim input in
  let sanitized := strip_scripts 0 sanitized in
  filter (fun c => is_dangerous c = false) sanitized.

(** [/^[a-zA-Z0-9_]+$/.test(s)] *)
Definition username_pattern (s : jsstring) : bool :=
  negb (length s =? 0)%nat && forallb is_word_char s.

(** [.] does not match a line terminator. *)
Definition is_line_terminator (c : Z) : bool :=
  (c =? 10) || (c =? 13) || (c =? 8232) || (c =? 8233).

(** A lookahead for one character of class [cls] after any run of
    characters that [.] matches, at the head of [s]. *)
Fixpoint lookahead_dotstar (cls : Z -> bool) (s : jsstring) : bool :=
  match s with
  | [] => false
  | c :: s' =>
      cls c || (negb (is_line_terminator c) && lookahead_dotstar cls s')
  end.

(** An unanchored [test]: the pattern is tried at every position. *)
Fixpoint test_anywhere (p : jsstring -> bool) (s : jsstring) : bool :=
  p s || match s with
         | [] => false
         | _ :: s' => test_anywhere p s'
         end.

(** The password pattern: three lookaheads (a lower-case letter, an
    upper-case letter, a digit) at one position. *)
Definition password_pattern (s : jsstring) : bool :=
  test_anywhere
    (fun t => lookahead_dotstar (in_range 97 122) t
              && lookahead_dotstar (in_range 65 90) t
              && lookahead_dotstar (in_range 48 57) t) s.

Definition push_if (b : bool) (msg : jsstring) (errs : list jsstring) :=
  if b then errs ++ [msg] else errs.

Definition validateAndSanitizeInput (input : jsstring) (type : InputType)
  : Validation :=
  let sanitized := sanitize input in
  let len := Z.of_nat (length sanitized) in
  let errors :=
    match type with
    | Username =>
        push_if (negb (username_pattern sanitized))
          (lit "Username can only contain letters, numbers, and underscores")
          (push_if (len >? 20)
             (lit "Username must be less than 20 characters")
             (push_if (len <? 3)
                (lit "Username must be at least 3 characters long") []))
    | Password =>
        push_if (negb (password_pattern sanitized))
          (lit "Password must contain uppercase, lowercase, and numeric characters")
          (push_if (len <? 8)
             (lit "Password must be at least 8 characters long") [])
    | Text =>
        push_if (len >? 1000)
          (lit "Text content is too long (max 1000 characters)") []
    end in
  {| isValid := (length errors =? 0)%nat;
     sanitized := sanitized;
     errors := errors |}.

(** [String.prototype.toLowerCase], exact on every code unit whose lower
    case is an ASCII letter: the letters A-Z and the Kelvin sign U+212A.
    No other code unit can take part in a match with the list below. *)
Definition toLowerCase (s : jsstring) : jsstring :=
  map (fun c => if c =? 8490 then 107 else lower_ascii c) s.

Definition weakPasswords : list jsstring :=
  [lit "password"; lit "123456"; lit "password123"; lit "admin";
   lit "qwerty"; lit "letmein"; lit "welcome"; lit "monkey";
   lit "1234567890"; lit "secret"].

Definition isWeakPassword (password : jsstring) : bool :=
  existsb (jsstring_eqb (toLowerCase password)) weakPasswords.

(* ===================================================================== *)
(** ** JSON, for the two shapes the service stores *)
(* ===================================================================== *)

Record IUser := {
  username : jsstring;
  userId : jsstring;
  createdAt : Z
}.

(** The object built by [createSession]. *)
Record Session := {
  s_userId : jsstring;
  s_username : jsstring;
  s_loginTime : Z;
  s_sessionId : jsstring
}.

Definition hex_digit (d : Z) : Z := digit_char d.

(** QuoteJSONString on one code unit (of well-formed UTF-16 text). *)
Definition json_escape (c : Z) : jsstring :=
  if c =? 8 then [92; 98]
  else if c =? 9 then [92; 116]
  else if c =? 10 then [92; 110]
  else if c =? 12 then [92; 102]
  else if c =? 13 then [92; 114]
  else if c =? 34 then [92; 34]
  else if c =? 92 then [92; 92]
  else if c <? 32 then [92; 117; 48; 48; hex_digit (c / 16); hex_digit (c mod 16)]
  else [c].

Definition json_quote (s : jsstring) : jsstring :=
  34 :: concat (map json_escape s) ++ [34].

(** A property name with its colon. *)
Definition json_key (name : string) : jsstring := 34 :: lit name ++ [34; 58].

Definition JSON_stringify_user (u : IUser) : jsstring :=
  [123] ++ json_key "username" ++ json_quote (username u)
  ++ [44] ++ json_key "userId" ++ json_quote (userId u)
  ++ [44] ++ json_key "createdAt" ++ toString (createdAt u) ++ [125].

Fixpoint json_elements (items : list jsstring) : jsstring :=
  match items with
  | [] => []
  | [x] => x
  | x :: rest => x ++ [44] ++ json_elements rest
  end.

(** [JSON.stringify(users)] for [users : IUser[]] *)
Definition JSON_stringify_users (users : list IUser) : jsstring :=
  [91] ++ json_elements (map JSON_stringify_user users) ++ [93].

(** [JSON.stringify(sessionData)] *)
Definition JSON_stringify_session (s : Session) : jsstring :=
  [123] ++ json_key "userId" ++ json_quote (s_userId s)
  ++ [44] ++ json_key "username" ++ json_quote (s_username s)
  ++ [44] ++ json_key "loginTime" ++ toString (s_loginTime s)
  ++ [44] ++ json_key "sessionId" ++ json_quote (s_sessionId s) ++ [125].

(** The parsers below read exactly the texts produced above. [JSON.parse]
    accepts more (white space, other property orders, other values); the
    service never writes such a text, and the model treats it as a
    SyntaxError. *)

Fixpoint starts_with (pat s : jsstring) : bool :=
  match pat, s with
  | [], _ => true
  | p :: pat', c :: s' => (c =? p) && starts_with pat' s'
  | _ :: _, [] => false
  end.

Definition expect (pat s : jsstring) : option jsstring :=
  if starts_with pat s then Some (drop (length pat) s) else None.

Definition hex_value (c : Z) : option Z :=
  if in_range 48 57 c then Some (c - 48)
  else if in_range 97 102 c then Some (c - 87)
  else if in_range 65 70 c then Some (c - 55)
  else None.

(** The characters of a string literal after its opening quote, and the
    text after its closing quote. *)
Fixpoint parse_string_body (s : jsstring) : option (jsstring * jsstring) :=
  match s with
  | [] => None
  | c :: s' =>
      if c =? 34 then Some ([], s')
      else if c =? 92 then
        match s' with
        | 117 :: h1 :: h2 :: h3 :: h4 :: s'' =>
            d1 ← hex_value h1; d2 ← hex_value h2;
            d3 ← hex_value h3; d4 ← hex_value h4;
            '(str, rest) ← parse_string_body s'';
            Some ((d1 * 4096 + d2 * 256 + d3 * 16 + d4) :: str, rest)
        | e :: s'' =>
            ch ← (if e =? 34 then Some 34 else if e =? 92 then Some 92
                  else if e =? 47 then Some 47 else if e =? 98 then Some 8
                  else if e =? 102 then Some 12 else if e =? 110 then Some 10
                  else if e =? 114 then Some 13 else if e =? 116 then Some 9
                  else None);
            '(str, rest) ← parse_string_body s'';
            Some (ch :: str, rest)
        | [] => None
        end
      else if c <? 32 then None
      else
        '(str, rest) ← parse_string_body s';
        Some (c :: str, rest)
  end.

Definition parse_string (s : jsstring) : option (jsstring * jsstring) :=
  match s with
  | 34 :: s' => parse_string_body s'
  | _ => None
  end.

Fixpoint span_digits (s : jsstring) : jsstring * jsstring :=
  match s with
  | c :: s' =>
      if in_range 48 57 c then
        let '(ds, rest) := span_digits s' in (c :: ds, rest)
      else ([], s)
  | [] => ([], [])
  end.

Definition decimal_value (ds : jsstring) : Z :=
  fold_left (fun acc c => acc * 10 + (c - 48)) ds 0.

Definition parse_natural (s : jsstring) : option (Z * jsstring) :=
  match span_digits s with
  | ([], _) => None
  | (ds, rest) => Some (decimal_value ds, rest)
  end.

Definition parse_integer (s : jsstring) : option (Z * jsstring) :=
  match s with
  | 45 :: s' => '(n, rest) ← parse_natural s'; Some (- n, rest)
  | _ => parse_natural s
  end.

Definition parse_user (s : jsstring) : option (IUser * jsstring) :=
  s ← expect ([123] ++ json_key "username") s;
  '(name, s) ← parse_string s;
  s ← expect ([44] ++ json_key "userId") s;
  '(uid, s) ← parse_string s;
  s ← expect ([44] ++ json_key "createdAt") s;
  '(created, s) ← parse_integer s;
  s ← expect [125] s;
  Some ({| username := name; userId := uid; createdAt := created |}, s).

Fixpoint parse_user_list (fuel : nat) (s : jsstring)
  : option (list IUser * jsstring) :=
  match fuel with
  | O => None
  | S fuel =>
      '(u, s) ← parse_user s;
      match s with
      | 93 :: s => Some ([u], s)
      | 44 :: s => '(us, s) ← parse_user_list fuel s; Some (u :: us, s)
      | _ => None
      end
  end.

(** [JSON.parse(text)] where the caller expects [IUser[]] *)
Definition JSON_parse_users (text : jsstring) : option (list IUser) :=
  match text with
  | 91 :: 93 :: [] => Some []
  | 91 :: s =>
      match parse_user_list (length s) s with
      | Some (us, []) => Some us
      | _ => None
      end
  | _ => None
  end.

(** [JSON.parse(text)] where the caller expects a session object *)
Definition JSON_parse_session (text : jsstring) : option Session :=
  s ← expect ([123] ++ json_key "userId") text;
  '(uid, s) ← parse_string s;
  s ← expect ([44] ++ json_key "username") s;
  '(name, s) ← parse_string s;
  s ← expect ([44] ++ json_key "loginTime") s;
  '(login, s) ← parse_integer s;
  s ← expect ([44] ++ json_key "sessionId") s;
  '(sid, s) ← parse_string s;
  match s with
  | 125 :: [] =>
      Some {| s_userId := uid; s_username := name;
              s_loginTime := login; s_sessionId := sid |}
  | _ => None
  end.

(* ===================================================================== *)
(** ** AuthService *)
(* ===================================================================== *)

Record IAuthCredentials := {
  cred_username : jsstring;
  cred_password : jsstring
}.

Record AuthResult := {
  success : bool;
  error : option jsstring;
  user : option IUser
}.

Definition failure (msg : jsstring) : AuthResult :=
  {| success := false; error := Some msg; user := None |}.

Definition USERS_STORAGE_KEY : jsstring := lit "app_users".
Definition SESSION_STORAGE_KEY : jsstring := lit "user_session".

(** [errors.join(', ')] *)
Fixpoint join (sep : jsstring) (items : list jsstring) : jsstring :=
  match items with
  | [] => []
  | [x] => x
  | x :: rest => x ++ sep ++ join sep rest
  end.

Definition getStoredUsers : M (list IUser) :=
  try_catch
    (usersData ← secureRetrieve USERS_STORAGE_KEY;
     if falsy usersData then mret []
     else raising (JSON_parse_users (default [] usersData)))
    (mret []).

Definition registerUser (credentials : IAuthCredentials) : M AuthResult :=
  try_catch
    (let usernameValidation :=
       validateAndSanitizeInput (cred_username credentials) Username in
     let passwordValidation :=
       validateAndSanitizeInput (cred_password credentials) Password in
     if negb (isValid usernameValidation) then
       mret (failure (join (lit ", ") (errors usernameValidation)))
     else if negb (isValid passwordValidation) then
       mret (failure (join (lit ", ") (errors passwordValidation)))
     else if isWeakPassword (cred_password credentials) then
       mret (failure
               (lit "Password is too common. Please choose a stronger password."))
     else
       existingUsers ← getStoredUsers;
       if existsb
            (fun user =>
               jsstring_eqb (username user) (sanitized usernameValidation))
            existingUsers
       then mret (failure (lit "Username already exists"))
       else
         newId ← generateSecureUserId (sanitized usernameValidation);
         now ← Date_now;
         let user :=
           {| username := sanitized usernameValidation;
              userId := newId;
              createdAt := now |} in
         let passwordHash := hashPassword (sanitized passwordValidation) in
         secureStore (lit "pwd_" ++ userId user) passwordHash;;
         let updatedUsers := existingUsers ++ [user] in
         secureStore USERS_STORAGE_KEY (JSON_stringify_users updatedUsers);;
         mret {| success := true; error := None; user := Some user |})
    (mret (failure (lit "Registration failed. Please try again."))).

Definition createSession (user : IUser) : M unit :=
  loginTime ← Date_now;
  stamp ← Date_now;
  sessionId ← generateSecureUserId (username user ++ toString stamp);
  let sessionData :=
    {| s_userId := userId user; s_username := username user;
       s_loginTime := loginTime; s_sessionId := sessionId |} in
  secureStore SESSION_STORAGE_KEY (JSON_stringify_session sessionData).

(** [`... ${Math.ceil(remainingTime / 60)} minutes.`] *)
Definition too_many_attempts (remainingTime : Z) : jsstring :=
  lit "Too many failed attempts. Please try again in "
  ++ toString (ceil_div remainingTime 60) ++ lit " minutes.".

Definition authenticateUser (credentials : IAuthCredentials) : M AuthResult :=
  try_catch
    (let usernameValidation :=
       validateAndSanitizeInput (cred_username credentials) Username in
     let passwordValidation :=
       validateAndSanitizeInput (cred_password credentials) Password in
     if negb (isValid usernameValidation) || negb (isValid passwordValidation)
     then mret (failure (lit "Invalid username or password format"))
     else
       rateLimit ← checkRateLimit (sanitized usernameValidation);
       if negb (allowed rateLimit) then
         mret (failure (too_many_attempts (default 0 (remainingTime rateLimit))))
       else
         users ← getStoredUsers;
         match find
                 (fun u =>
                    jsstring_eqb (username u) (sanitized usernameValidation))
                 users
         with
         | None => mret (failure (lit "Invalid username or password"))
         | Some user =>
             storedPasswordHash ← secureRetrieve (lit "pwd_" ++ userId user);
             let inputPasswordHash :=
               hashPassword (sanitized passwordValidation) in
             if negb (bool_decide (storedPasswordHash = Some inputPasswordHash))
             then mret (failure (lit "Invalid username or password"))
             else
               createSession user;;
               mret {| success := true; error := None; user := Some user |}
         end)
    (mret (failure (lit "Authentication failed. Please try again."))).

Definition logout : M unit :=
  try_catch
    (secureStore SESSION_STORAGE_KEY [];;
     clearSensitiveData)
    (mret tt).

Definition getCurrentSession : M (option IUser) :=
  try_catch
    (sessionData ← secureRetrieve SESSION_STORAGE_KEY;
     if falsy sessionData then mret None
     else
       session ← raising (JSON_parse_session (default [] sessionData));
       now ← Date_now;
       if now - s_loginTime session >? 24 * 60 * 60 * 1000 then
         logout;;
         mret None
       else
         mret (Some {| username := s_username session;
                       userId := s_userId session;
                       createdAt := s_loginTime session |}))
    (mret None).

(** A freshly started process on an empty medium. *)
Definition initial_world (clk : nat -> Z) : World :=
  {| storage := ∅; authAttempts := ∅; stamped := ∅;
     clock := clk; ticks := 0 |}.

(* ===================================================================== *)
(** ** Vocabulary of the statements *)
(* ===================================================================== *)

(** A code unit that fits in one byte. *)
Definition byte (c : Z) : Prop := 0 <= c <= 255.

Definition printable_ascii (c : Z) : Prop := 32 <= c <= 126.

(** The result of a computation and the world it leaves. *)
Definition value {A} (m : M A) (w : World) : result A := fst (m w).
Definition exec {A} (m : M A) (w : World) : World := snd (m w).

(** The reading [Date.now()] returns next. *)
Definition now_of (w : World) : Z := clock w (ticks w).

Definition tick (w : World) : World :=
  {| storage := storage w; authAttempts := authAttempts w;
     stamped := stamped w; clock := clock w; ticks := S (ticks w) |}.

Definition with_attempts (t : gmap (list Z) Attempt) (w : World) : World :=
  {| storage := storage w; authAttempts := t;
     stamped := stamped w; clock := clock w; ticks := ticks w |}.

Definition with_stamped (t : gmap (list Z) Z) (w : World) : World :=
  {| storage := storage w; authAttempts := authAttempts w;
     stamped := t; clock := clock w; ticks := ticks w |}.

Definition with_storage (s : gmap (list Z) (list Z)) (w : World) : World :=
  {| storage := s; authAttempts := authAttempts w;
     stamped := stamped w; clock := clock w; ticks := ticks w |}.

(** A new process on the same medium: the table and the built-in
    objects are new. *)
Definition restart (w : World) : World :=
  with_stamped ∅ (with_attempts ∅ w).

(** The table gives nothing for the identity: [!this.authAttempts[username]]
    holds. *)
Definition unseen (username : jsstring) (w : World) : Prop :=
  truthy (lookup_attempts username w) = false.

(** A name that neither [Object.prototype] nor an entry holds. *)
Definition ordinary (username : jsstring) : Prop :=
  username ∉ lit "__proto__" :: lit "count" :: lit "lastAttempt"
             :: prototype_functions.

(** The lockout window, and the two answers of the rate limiter. *)
Definition window : Z := 15 * 60 * 1000.

Definition allow : RateLimit := {| allowed := true; remainingTime := None |}.

Definition deny (now last : Z) : RateLimit :=
  {| allowed := false;
     remainingTime := Some (ceil_div (window - (now - last)) 1000) |}.

Definition fresh (now : Z) : Attempt := {| count := 1; lastAttempt := now |}.

(** The world after [n] successive calls of [checkRateLimit username]. *)
Definition after_checks (n : nat) (username : jsstring) (w : World) : World :=
  Nat.iter n (exec (checkRateLimit username)) w.

(** The two physical slots of a logical key. *)
Definition secure_slot (key : jsstring) : jsstring := lit "secure_" ++ key.
Definition key_slot (key : jsstring) : jsstring := lit "key_" ++ key.

(** The transform key [getEncryptionKey] derives from a clock reading. *)
Definition encryption_key (now : Z) : jsstring :=
  lit "RN_APP_" ++ toString_radix 36 now.

(** What [secureRetrieve] reads from a medium. *)
Definition retrieve (st : gmap (list Z) (list Z)) (key : jsstring)
  : option jsstring :=
  match st !! secure_slot key, st !! key_slot key with
  | Some (c :: ct), Some (k :: kt) =>
      match atob (k :: kt) with
      | Some encryptionKey => Some (decrypt (c :: ct) encryptionKey)
      | None => None
      end
  | _, _ => None
  end.

(** The medium after [secureStore key value] at clock reading [now]. *)
Definition stored (st : gmap (list Z) (list Z)) (key value : jsstring)
  (now : Z) : gmap (list Z) (list Z) :=
  <[key_slot key := btoa_bytes (encryption_key now)]>
    (<[secure_slot key := btoa_bytes (xor_with_key value (encryption_key now))]>
       st).

(** A clock that returns the listed readings, then 0. *)
Definition clock_of_list (readings : list Z) : nat -> Z :=
  fun n => nth n readings 0.

(** The password digest, following the words of the specification: the
    polynomial hash [hash = hash*31 + charCode] in wrapped 32-bit signed
    arithmetic, plus the length of the salt, in base 36, then base64. *)
Definition polynomial_hash (password : jsstring) : Z :=
  fold_left (fun hash charCode => to_int32 (hash * 31 + charCode)) password 0.

Definition digest_spec (password : jsstring) : option jsstring :=
  btoa (toString_radix 36 (polynomial_hash password + 13)).

(** A code unit that [JSON.stringify] copies unescaped and [btoa]
    accepts. *)
Definition storable (c : Z) : Prop := 32 <= c <= 255 /\ c <> 34 /\ c <> 92.

(** A user record whose texts are made of such code units: every record
    [registerUser] creates is one (see [registerUser_storable]). *)
Definition storable_user (u : IUser) : Prop :=
  Forall storable (username u) /\ Forall storable (userId u).

(** What [getStoredUsers] reads from a medium. *)
Definition users_of (st : gmap (list Z) (list Z)) : list IUser :=
  match retrieve st USERS_STORAGE_KEY with
  | Some (c :: text) => default [] (JSON_parse_users (c :: text))
  | _ => []
  end.

(** The session record [getCurrentSession] finds on a medium, if any. *)
Definition session_of (st : gmap (list Z) (list Z)) : option Session :=
  match retrieve st SESSION_STORAGE_KEY with
  | Some (c :: text) => JSON_parse_session (c :: text)
  | _ => None
  end.

(** [u.username === name] *)
Definition has_name (name : jsstring) (u : IUser) : bool :=
  jsstring_eqb (username u) name.

Definition is_digit (c : Z) : Prop := 48 <= c <= 57.

(** [rest] does not go on with a digit. *)
Definition ends_number (rest : jsstring) : Prop :=
  match rest with
  | c :: _ => ~ is_digit c
  | [] => True
  end.

(** The record [registerUser] creates for the sanitized name [name] in
    world [w]: the id reads the clock first, [createdAt] second. *)
Definition new_user (name : jsstring) (w : World) : IUser :=
  {| username := name;
     userId :=
       lit "user_"
       ++ substring0 12 (hashPassword (name ++ toString (now_of w)));
     createdAt := now_of (tick w) |}.

(** The logical key of a user's password digest. *)
Definition pwd_key (u : IUser) : jsstring := lit "pwd_" ++ userId u.

(** The world a successful [registerUser] leaves: the digest is written
    at the third reading of the clock, the registry at the fourth. *)
Definition registered_world (name password : jsstring) (w : World) : World :=
  let u := new_user name w in
  with_storage
    (stored
       (stored (storage w) (pwd_key u) (hashPassword password)
          (now_of (tick (tick w))))
       USERS_STORAGE_KEY
       (JSON_stringify_users (users_of (storage w) ++ [u]))
       (now_of (tick (tick (tick w)))))
    (tick (tick (tick (tick w)))).

(** The session [createSession] builds for [u] in world [w]. *)
Definition new_session (u : IUser) (w : World) : Session :=
  {| s_userId := userId u;
     s_username := username u;
     s_loginTime := now_of w;
     s_sessionId :=
       lit "user_"
       ++ substring0 12
            (hashPassword
               ((username u ++ toString (now_of (tick w)))
                  ++ toString (now_of (tick (tick w))))) |}.

(** The world [createSession] leaves. *)
Definition session_world (u : IUser) (w : World) : World :=
  with_storage
    (stored (storage w) SESSION_STORAGE_KEY
       (JSON_stringify_session (new_session u w))
       (now_of (tick (tick (tick w)))))
    (tick (tick (tick (tick w)))).

Definition invalid_credentials : jsstring := lit "Invalid username or password".

(** The demo account of [initializeDemoUsers], and a clock that advances
    by one millisecond per reading, then jumps 25 hours ahead. *)
Definition demo_credentials : IAuthCredentials :=
  {| cred_username := lit "demo_user"; cred_password := lit "SecurePass123!" |}.

Definition demo_clock : nat -> Z :=
  clock_of_list
    [1700000000000; 1700000000001; 1700000000002; 1700000000003;
     1700000000004; 1700000000005; 1700000000006; 1700000000007;
     1700000000008; 1700090000000].

(** The demo account registered on an empty medium, and then logged in. *)
Definition demo_registered : World :=
  exec (registerUser demo_credentials) (initial_world demo_clock).

Definition demo_logged_in : World :=
  exec (authenticateUser demo_credentials) demo_registered.

(** The worlds the application can be in: a fresh process on an empty
    medium, then any sequence of calls of the service, of readings of the
    clock made elsewhere, of restarts of the process (which lose the
    attempt table and what was written on the built-in objects, and keep
    the medium), and of the notes screen saving
    its notes (under the key [notes_] followed by the user id). *)
Inductive reachable : World -> Prop :=
  | reachable_initial clk :
      reachable (initial_world clk)
  | reachable_register credentials w :
      reachable w -> reachable (exec (registerUser credentials) w)
  | reachable_authenticate credentials w :
      reachable w -> reachable (exec (authenticateUser credentials) w)
  | reachable_session w :
      reachable w -> reachable (exec getCurrentSession w)
  | reachable_logout w :
      reachable w -> reachable (exec logout w)
  | reachable_tick w :
      reachable w -> reachable (tick w)
  | reachable_restart w :
      reachable w -> reachable (restart w)
  | reachable_notes uid notes w :
      reachable w -> reachable (exec (secureStore (lit "notes_" ++ uid) notes) w).


(** Every entry of the attempt table counts between 1 and 5. *)
Definition attempts_bounded (w : World) : Prop :=
  forall (u : jsstring) (a : Attempt),
    authAttempts w !! u = Some a -> 1 <= count a <= 5.

(** The value of a digit of [toString(radix)]. *)
Definition digit_value (c : Z) : Z := if c <? 58 then c - 48 else c - 87.

(** The number a digit string denotes in a radix. *)
Definition radix_value (radix : Z) (ds : jsstring) : Z :=
  fold_left (fun acc c => acc * radix + digit_value c) ds 0.

(** [AuthService.initializeDemoUsers] *)
Definition initializeDemoUsers : M unit :=
  try_catch
    (existingUsers ← getStoredUsers;
     if (length existingUsers =? 0)%nat then
       registerUser {| cred_username := lit "demo_user";
                       cred_password := lit "SecurePass123!" |};;
       registerUser {| cred_username := lit "test_user";
                       cred_password := lit "TestPass456!" |};;
       mret tt
     else mret tt)
    (mret tt).

(* ===================================================================== *)
(** ** Notes: the storage of a user's notes *)
(* ===================================================================== *)

Record INote := {
  n_title : jsstring;
  n_text : jsstring;
  n_createdAt : Z;
  n_id : jsstring
}.

(** [JSON.stringify(note)]: the properties in the order in which
    [addNote] creates them. *)
Definition JSON_stringify_note (n : INote) : jsstring :=
  [123] ++ json_key "title" ++ json_quote (n_title n)
  ++ [44] ++ json_key "text" ++ json_quote (n_text n)
  ++ [44] ++ json_key "createdAt" ++ toString (n_createdAt n)
  ++ [44] ++ json_key "id" ++ json_quote (n_id n) ++ [125].

(** [JSON.stringify(notes)] for [notes : INote[]] *)
Definition JSON_stringify_notes (notes : list INote) : jsstring :=
  [91] ++ json_elements (map JSON_stringify_note notes) ++ [93].

Definition parse_note (s : jsstring) : option (INote * jsstring) :=
  s ← expect ([123] ++ json_key "title") s;
  '(title, s) ← parse_string s;
  s ← expect ([44] ++ json_key "text") s;
  '(text, s) ← parse_string s;
  s ← expect ([44] ++ json_key "createdAt") s;
  '(created, s) ← parse_integer s;
  s ← expect ([44] ++ json_key "id") s;
  '(id, s) ← parse_string s;
  s ← expect [125] s;
  Some ({| n_title := title; n_text := text;
           n_createdAt := created; n_id := id |}, s).

Fixpoint parse_note_list (fuel : nat) (s : jsstring)
  : option (list INote * jsstring) :=
  match fuel with
  | O => None
  | S fuel =>
      '(n, s) ← parse_note s;
      match s with
      | 93 :: s => Some ([n], s)
      | 44 :: s => '(ns, s) ← parse_note_list fuel s; Some (n :: ns, s)
      | _ => None
      end
  end.

(** [JSON.parse(text)] where the caller expects [INote[]]. As for the
    registry, the parser reads exactly the texts [JSON_stringify_notes]
    produces, the only ones [storeNotes] writes; any other text counts
    as a SyntaxError. *)
Definition JSON_parse_notes (text : jsstring) : option (list INote) :=
  match text with
  | 91 :: 93 :: [] => Some []
  | 91 :: s =>
      match parse_note_list (length s) s with
      | Some (ns, []) => Some ns
      | _ => None
      end
  | _ => None
  end.

(** [Notes.getStoredNotes], for the user id of the route parameters *)
Definition getStoredNotes (userId : jsstring) : M (list INote) :=
  try_catch
    (let storageKey := lit "notes_" ++ userId in
     notesData ← secureRetrieve storageKey;
     if falsy notesData then mret []
     else raising (JSON_parse_notes (default [] notesData)))
    (mret []).

(** [Notes.storeNotes]: the error is logged and raised again. *)
Definition storeNotes (userId : jsstring) (notes : list INote) : M unit :=
  try_catch
    (let storageKey := lit "notes_" ++ userId in
     let jsonValue := JSON_stringify_notes notes in
     secureStore storageKey jsonValue)
    throw.

(** A note whose texts are made of one-byte code units. *)
Definition byte_note (n : INote) : Prop :=
  Forall byte (n_title n) /\ Forall byte (n_text n) /\ Forall byte (n_id n).

(** A code unit of the Basic Multilingual Plane above Latin-1 that is no
    surrogate: [JSON.stringify] copies it as it is. *)
Definition wide (c : Z) : Prop := 255 < c < 55296 \/ 57343 < c < 65536.

(** The texts of a note. *)
Definition note_texts (n : INote) : list jsstring :=
  [n_title n; n_text n; n_id n].

(** What [getStoredNotes] reads from a medium for a user id. *)
Definition notes_of (st : gmap (list Z) (list Z)) (userId : jsstring)
  : list INote :=
  match retrieve st (lit "notes_" ++ userId) with
  | Some (c :: text) => default [] (JSON_parse_notes (c :: text))
  | _ => []
  end.
(* ===================================================================== *)
(** * Properties *)
(* ===================================================================== *)

Ltac zdiv := Z.div_mod_to_equations; lia.

Ltac unbool :=
  repeat match goal with
    | H : _ && _ = true |- _ => apply andb_prop in H; destruct H
    | H : (_ <=? _) = true |- _ => apply Z.leb_le in H
    | H : (_ <=? _) = false |- _ => apply Z.leb_gt in H
    | H : (_ <? _) = true |- _ => apply Z.ltb_lt in H
    | H : (_ <? _) = false |- _ => apply Z.ltb_ge in H
    | H : (_ =? _) = true |- _ => apply Z.eqb_eq in H
    | H : (_ =? _) = false |- _ => apply Z.eqb_neq in H
    | H : (_ >? _) = true |- _ => rewrite Z.gtb_ltb in H
    | H : (_ >? _) = false |- _ => rewrite Z.gtb_ltb in H
    | H : (_ >=? _) = true |- _ => rewrite Z.geb_leb in H
    | H : (_ >=? _) = false |- _ => rewrite Z.geb_leb in H
    end.

(** ** Base64 *)

Section Base64.

Lemma in_range_spec lo hi c : in_range lo hi c = true <-> lo <= c <= hi.
Proof. unfold in_range. rewrite andb_true_iff, !Z.leb_le. tauto. Qed.

Lemma is_latin1_Forall s : is_latin1 s = true <-> Forall byte s.
Proof.
  unfold is_latin1. rewrite forallb_forall, Forall_forall.
  split; intros H c Hc.
  - apply in_range_spec, H. by apply list_elem_of_In.
  - apply in_range_spec, H. by apply list_elem_of_In.
Qed.

Lemma b64_index_char i : 0 <= i < 64 -> b64_index (b64_char i) = Some i.
Proof.
  intros Hi. unfold b64_char, b64_index, in_range.
  repeat (case_match; unbool; try lia); f_equal; lia.
Qed.

Lemma b64_char_range i : 0 <= i < 64 -> 43 <= b64_char i <= 122.
Proof.
  intros Hi. unfold b64_char. repeat (case_match; unbool; try lia).
Qed.

Lemma b64_char_not_pad i : 0 <= i < 64 -> (b64_char i =? 61) = false.
Proof.
  intros Hi. apply Z.eqb_neq. unfold b64_char.
  repeat (case_match; unbool; try lia).
Qed.

Lemma list_ind3 {A} (P : list A -> Prop) :
  P [] -> (forall a, P [a]) -> (forall a b, P [a; b]) ->
  (forall a b c r, P r -> P (a :: b :: c :: r)) ->
  forall l, P l.
Proof.
  intros H0 H1 H2 H3 l.
  cut (P l /\ (forall a, P (a :: l)) /\ (forall a b, P (a :: b :: l))).
  { tauto. }
  induction l as [|x l (IH0 & IH1 & IH2)]; [by auto|].
  split; [apply IH1|]. split; [intros a; apply IH2|].
  intros a b. by apply H3.
Qed.

Lemma btoa_bytes_nil_inv s : btoa_bytes s = [] -> s = [].
Proof. destruct s as [|a [|b [|c r]]]; simpl; congruence. Qed.

Lemma dec4_enc a b c :
  byte a -> byte b -> byte c ->
  dec4 (b64_char (a / 4)) (b64_char (a mod 4 * 16 + b / 16))
       (b64_char (b mod 16 * 4 + c / 64)) (b64_char (c mod 64))
  = Some [a; b; c].
Proof.
  unfold byte, dec4. intros Ha Hb Hc.
  rewrite !b64_index_char by zdiv. simpl.
  do 3 f_equal; [zdiv | zdiv | f_equal; zdiv].
Qed.

Lemma dec3_enc a b :
  byte a -> byte b ->
  dec3 (b64_char (a / 4)) (b64_char (a mod 4 * 16 + b / 16))
       (b64_char (b mod 16 * 4))
  = Some [a; b].
Proof.
  unfold byte, dec3. intros Ha Hb.
  rewrite !b64_index_char by zdiv. simpl.
  do 3 f_equal; [zdiv | zdiv].
Qed.

Lemma dec2_enc a :
  byte a ->
  dec2 (b64_char (a / 4)) (b64_char (a mod 4 * 16)) = Some [a].
Proof.
  unfold byte, dec2. intros Ha.
  rewrite !b64_index_char by zdiv. simpl.
  do 2 f_equal. zdiv.
Qed.

Lemma atob_chars_cons4 c1 c2 c3 c4 r :
  r <> [] ->
  atob_chars (c1 :: c2 :: c3 :: c4 :: r)
  = (b ← dec4 c1 c2 c3 c4; rest ← atob_chars r; Some (b ++ rest)).
Proof. by destruct r. Qed.

Lemma atob_chars_btoa_bytes s :
  Forall byte s -> atob_chars (btoa_bytes s) = Some s.
Proof.
  induction s as [|a|a b|a b c r IH] using list_ind3; intros Hs.
  - done.
  - apply Forall_cons in Hs as [Ha _]. cbn [btoa_bytes atob_chars].
    change (61 =? 61) with true. cbn [andb]. by apply dec2_enc.
  - apply Forall_cons in Hs as [Ha Hs]. apply Forall_cons in Hs as [Hb _].
    cbn [btoa_bytes atob_chars]. change (61 =? 61) with true.
    rewrite b64_char_not_pad by (unfold byte in *; zdiv).
    cbn [andb]. by apply dec3_enc.
  - apply Forall_cons in Hs as [Ha Hs]. apply Forall_cons in Hs as [Hb Hs].
    apply Forall_cons in Hs as [Hc Hs].
    change (btoa_bytes (a :: b :: c :: r))
      with (b64_char (a / 4) :: b64_char (a mod 4 * 16 + b / 16)
              :: b64_char (b mod 16 * 4 + c / 64) :: b64_char (c mod 64)
              :: btoa_bytes r).
    specialize (IH Hs).
    destruct (decide (r = [])) as [->|Hr].
    + cbn [btoa_bytes atob_chars].
      rewrite !b64_char_not_pad by (unfold byte in *; zdiv).
      cbn [andb]. by apply dec4_enc.
    + rewrite atob_chars_cons4
        by (intros E; by apply Hr, btoa_bytes_nil_inv).
      rewrite dec4_enc by done. simpl. by rewrite IH.
Qed.

(** Every code unit [btoa] writes is a letter of the alphabet or the
    padding sign. *)
Lemma btoa_bytes_Forall (P : Z -> Prop) s :
  (forall i, 0 <= i < 64 -> P (b64_char i)) -> P 61 ->
  Forall byte s -> Forall P (btoa_bytes s).
Proof.
  intros Hch Hpad.
  induction s as [|a|a b|a b c r IH] using list_ind3; intros Hs.
  - constructor.
  - apply Forall_cons in Hs as [Ha _]. unfold byte in Ha.
    cbn [btoa_bytes]. repeat constructor; try apply Hpad; apply Hch; zdiv.
  - apply Forall_cons in Hs as [Ha Hs]. apply Forall_cons in Hs as [Hb _].
    unfold byte in Ha, Hb. cbn [btoa_bytes].
    repeat constructor; try apply Hpad; apply Hch; zdiv.
  - apply Forall_cons in Hs as [Ha Hs]. apply Forall_cons in Hs as [Hb Hs].
    apply Forall_cons in Hs as [Hc Hs]. unfold byte in Ha, Hb, Hc.
    change (btoa_bytes (a :: b :: c :: r))
      with (b64_char (a / 4) :: b64_char (a mod 4 * 16 + b / 16)
              :: b64_char (b mod 16 * 4 + c / 64) :: b64_char (c mod 64)
              :: btoa_bytes r).
    repeat (constructor; [apply Hch; zdiv|]). by apply IH.
Qed.

Lemma btoa_bytes_no_whitespace s :
  Forall byte s ->
  Forall (fun c => is_ascii_whitespace c = false) (btoa_bytes s).
Proof.
  apply btoa_bytes_Forall; [|done].
  intros i Hi. pose proof (b64_char_range i Hi).
  unfold is_ascii_whitespace.
  repeat (apply orb_false_intro); apply Z.eqb_neq; lia.
Qed.

Lemma filter_all {A} (P : A -> Prop) `{!forall x, Decision (P x)} l :
  Forall P l -> filter P l = l.
Proof.
  induction 1 as [|x l Hx _ IH]; [done|].
  rewrite filter_cons_True by done. by rewrite IH.
Qed.

(** [atob] undoes [btoa]. *)
Lemma atob_btoa s t : btoa s = Some t -> atob t = Some s.
Proof.
  unfold btoa, atob. destruct (is_latin1 s) eqn:Hs; [|done].
  intros [= <-]. apply is_latin1_Forall in Hs.
  rewrite filter_all by by apply btoa_bytes_no_whitespace.
  by apply atob_chars_btoa_bytes.
Qed.

Lemma btoa_nil_inv s : btoa s = Some [] -> s = [].
Proof.
  unfold btoa. destruct (is_latin1 s); [|done].
  intros [= H]. by apply btoa_bytes_nil_inv.
Qed.

Lemma btoa_bytes_latin1 s : Forall byte s -> Forall byte (btoa_bytes s).
Proof.
  apply btoa_bytes_Forall; [|unfold byte; lia].
  intros i Hi. pose proof (b64_char_range i Hi). unfold byte. lia.
Qed.

Lemma b64_char_storable i : 0 <= i < 64 -> storable (b64_char i).
Proof.
  intros Hi. unfold storable, b64_char.
  repeat (case_match; unbool; try lia).
Qed.

Lemma btoa_bytes_storable s :
  Forall byte s -> Forall storable (btoa_bytes s).
Proof.
  apply btoa_bytes_Forall; [apply b64_char_storable|].
  unfold storable. lia.
Qed.

End Base64.

(** ** The obfuscation codec *)

Section Codec.

Lemma lxor_byte a b : byte a -> byte b -> byte (Z.lxor a b).
Proof.
  unfold byte. intros Ha Hb.
  assert (0 <= Z.lxor a b) by (apply Z.lxor_nonneg; lia).
  destruct (decide (Z.lxor a b = 0)) as [->|Hne]; [lia|].
  cut (Z.lxor a b < 2 ^ 8); [lia|].
  apply Z.log2_lt_pow2; [lia|].
  pose proof (Z.log2_lxor a b ltac:(lia) ltac:(lia)) as Hlog.
  assert (Hl : forall x, 0 <= x <= 255 -> Z.log2 x < 8).
  { intros x Hx. destruct (decide (x = 0)) as [->|]; [done|].
    apply Z.log2_lt_pow2; lia. }
  pose proof (Hl a Ha). pose proof (Hl b Hb). lia.
Qed.

Lemma key_code_byte key i : Forall byte key -> byte (key_code key i).
Proof.
  intros Hk. unfold key_code.
  destruct (nth_in_or_default (i mod length key)%nat key 0) as [Hin | ->].
  - rewrite Forall_forall in Hk. by apply Hk, list_elem_of_In.
  - unfold byte; lia.
Qed.

Lemma imap_inverse (f g : nat -> Z -> Z) (P : Z -> Prop) l :
  (forall i c, P c -> g i (f i c) = c) ->
  Forall P l -> imap g (imap f l) = l.
Proof.
  intros Hgf Hl. revert f g Hgf.
  induction Hl as [|c l Hc _ IH]; intros f g Hgf; [done|].
  simpl. rewrite Hgf by done. f_equal. apply IH.
  intros i x Hx. by apply Hgf.
Qed.

Lemma imap_Forall (f : nat -> Z -> Z) (P Q : Z -> Prop) l :
  (forall i c, P c -> Q (f i c)) -> Forall P l -> Forall Q (imap f l).
Proof.
  intros Hf Hl. revert f Hf.
  induction Hl as [|c l Hc _ IH]; intros f Hf; simpl; constructor.
  - by apply Hf.
  - apply IH. intros i x Hx. by apply Hf.
Qed.

Lemma xor_with_key_byte text key :
  Forall byte text -> Forall byte key -> Forall byte (xor_with_key text key).
Proof.
  intros Ht Hk. unfold xor_with_key.
  apply (imap_Forall _ byte byte); [|done].
  intros i c Hc.
  pose proof (lxor_byte c (key_code key i) Hc (key_code_byte key i Hk)) as Hx.
  unfold byte in *. rewrite Z.mod_small; lia.
Qed.

(** Applying the key twice restores the text. *)
Lemma xor_with_key_involutive text key :
  Forall byte text -> Forall byte key ->
  xor_with_key (xor_with_key text key) key = text.
Proof.
  intros Ht Hk. unfold xor_with_key.
  apply (imap_inverse _ _ byte); [|done].
  intros i c Hc.
  pose proof (lxor_byte c (key_code key i) Hc (key_code_byte key i Hk)) as Hx.
  unfold byte in Hx. rewrite (Z.mod_small (Z.lxor c _)) by lia.
  rewrite Z.lxor_assoc, Z.lxor_nilpotent, Z.lxor_0_r.
  unfold byte in Hc. rewrite Z.mod_small; lia.
Qed.

Lemma encrypt_latin1 text key :
  Forall byte text -> Forall byte key ->
  encrypt text key = Some (btoa_bytes (xor_with_key text key)).
Proof.
  intros Ht Hk. unfold encrypt, btoa.
  by rewrite (proj2 (is_latin1_Forall _) (xor_with_key_byte _ _ Ht Hk)).
Qed.

Lemma decrypt_encrypt text key c :
  Forall byte text -> Forall byte key ->
  encrypt text key = Some c -> decrypt c key = text.
Proof.
  intros Ht Hk Hc. unfold decrypt.
  unfold encrypt in Hc. rewrite (atob_btoa _ _ Hc).
  by apply xor_with_key_involutive.
Qed.

Lemma printable_byte v : Forall printable_ascii v -> Forall byte v.
Proof.
  intros Hv. eapply Forall_impl; [exact Hv|].
  unfold printable_ascii, byte. lia.
Qed.

(** C3, as amended: for every printable-ASCII plaintext and every key
    whose code units all fit in one byte (the empty key included),
    [encrypt] returns a ciphertext and [decrypt] with the same key gives
    the plaintext back. *)
Theorem C3_decrypt_encrypt_roundtrip (v k : jsstring) :
  Forall printable_ascii v -> Forall byte k ->
  exists c, encrypt v k = Some c /\ decrypt c k = v.
Proof.
  intros Hv Hk. apply printable_byte in Hv.
  exists (btoa_bytes (xor_with_key v k)).
  pose proof (encrypt_latin1 v k Hv Hk) as He.
  split; [done|]. by apply (decrypt_encrypt v k).
Qed.

Lemma C3_decrypt_encrypt_roundtrip_witness :
  exists c, encrypt (lit "hello, world") (lit "RN_APP_loyw3v28") = Some c
            /\ decrypt c (lit "RN_APP_loyw3v28") = lit "hello, world".
Proof.
  apply C3_decrypt_encrypt_roundtrip.
  - unfold printable_ascii. repeat constructor; vm_compute; congruence.
  - unfold byte. repeat constructor; vm_compute; congruence.
Defined.

(** C3, as stated, fails: a non-empty key with a code unit above 0xFF
    (here the euro sign, U+20AC) makes [btoa] raise inside [encrypt], so
    there is no ciphertext to decrypt. *)
Lemma C3_counterexample :
  Forall printable_ascii (lit "a") /\ [8364] <> [] /\
  encrypt (lit "a") [8364] = None /\
  ~ (exists c, encrypt (lit "a") [8364] = Some c
               /\ decrypt c [8364] = lit "a").
Proof.
  split; [|split; [|split]].
  - unfold printable_ascii. repeat constructor; vm_compute; congruence.
  - done.
  - reflexivity.
  - intros (c & Hc & _). vm_compute in Hc. discriminate.
Qed.

End Codec.

(** ** Running computations *)

Lemma bind_run {A B} (m : M A) (f : A -> M B) w :
  (m ≫= f) w = match m w with
               | (Ok a, w') => f a w'
               | (Throw, w') => (Throw, w')
               end.
Proof. reflexivity. Qed.

Lemma bind_ok {A B} (m : M A) (f : A -> M B) w a w' :
  m w = (Ok a, w') -> (m ≫= f) w = f a w'.
Proof. intros H. by rewrite bind_run, H. Qed.

Lemma bind_throw {A B} (m : M A) (f : A -> M B) w w' :
  m w = (Throw, w') -> (m ≫= f) w = (Throw, w').
Proof. intros H. by rewrite bind_run, H. Qed.

Lemma try_catch_ok {A} (m h : M A) w a w' :
  m w = (Ok a, w') -> try_catch m h w = (Ok a, w').
Proof. intros H. unfold try_catch. by rewrite H. Qed.

Lemma try_catch_throw {A} (m h : M A) w w' :
  m w = (Throw, w') -> try_catch m h w = h w'.
Proof. intros H. unfold try_catch. by rewrite H. Qed.

(** ** The rate limiter *)

Section RateLimiter.

(** What [Object.prototype] gives a built-in object or a Number for
    the two members of an entry. *)
Lemma prototype_lastAttempt w :
  to_number (Object_prototype_get (lit "lastAttempt") w)
  = stamped w !! lit "__proto__".
Proof.
  unfold Object_prototype_get.
  change (bool_decide (lit "lastAttempt" ∈ prototype_functions)) with false.
  cbv iota. destruct (stamped w !! lit "__proto__"); [|done].
  change (bool_decide (lit "lastAttempt" = lit "count")) with false.
  by change (bool_decide (lit "lastAttempt" = lit "lastAttempt")) with true.
Qed.

Lemma prototype_count w :
  to_number (Object_prototype_get (lit "count") w) = None.
Proof.
  unfold Object_prototype_get.
  change (bool_decide (lit "count" ∈ prototype_functions)) with false.
  cbv iota. destruct (stamped w !! lit "__proto__"); [|done].
  by change (bool_decide (lit "count" = lit "count")) with true.
Qed.

Lemma checkRateLimit_found u w :
  let now := now_of w in
  let reset :=
    (Ok allow, with_attempts (<[u := fresh now]> (authAttempts w)) (tick w)) in
  checkRateLimit u w
  = match lookup_attempts u w with
    | Undefined => reset
    | Num n =>
        if negb (truthy (Num n)) then reset
        else if js_gt (js_sub (Some now) (stamped w !! lit "__proto__")) window
        then reset
        else (Throw, tick w)
    | Entry a =>
        if now - lastAttempt a >? window then reset
        else if count a >=? 5 then (Ok (deny now (lastAttempt a)), tick w)
        else (Ok allow,
              with_attempts
                (<[u := {| count := count a + 1; lastAttempt := now |}]>
                   (authAttempts w))
                (tick w))
    | Builtin name =>
        if js_gt
             (js_sub (Some now)
                (match stamped w !! name with
                 | Some last => Some last
                 | None => stamped w !! lit "__proto__"
                 end))
             window
        then reset
        else (Ok allow, with_stamped (<[name := now]> (stamped w)) (tick w))
    end.
Proof.
  intros now reset. subst now reset. unfold now_of, checkRateLimit.
  rewrite bind_run. cbn [Date_now]. rewrite bind_run.
  unfold get_attempts at 1.
  change (lookup_attempts u _) with (lookup_attempts u w).
  destruct (lookup_attempts u w) as [|n|a|name].
  - reflexivity.
  - destruct (truthy (Num n)); [|reflexivity]. cbn [negb].
    rewrite bind_run. cbn [get_member member_name].
    rewrite prototype_lastAttempt. cbn [stamped]. fold window.
    destruct (js_gt (js_sub (Some (clock w (ticks w)))
                       (stamped w !! lit "__proto__")) window);
      [reflexivity|].
    rewrite bind_run. cbn [get_member member_name].
    rewrite prototype_count. reflexivity.
  - cbn [truthy negb]. rewrite bind_run. cbn [get_member to_number js_sub js_gt].
    fold window.
    destruct (clock w (ticks w) - lastAttempt a >? window); [reflexivity|].
    rewrite bind_run. cbn [get_member to_number js_ge].
    destruct (count a >=? 5); reflexivity.
  - cbn [truthy negb]. rewrite bind_run. cbn [get_member member_name].
    cbn [stamped]. fold window.
    assert (Hlast :
              to_number
                match stamped w !! name with
                | Some last => Num (Some last)
                | None => Object_prototype_get (lit "lastAttempt")
                            (tick w)
                end
              = match stamped w !! name with
                | Some last => Some last
                | None => stamped w !! lit "__proto__"
                end).
    { destruct (stamped w !! name); [done|].
      exact (prototype_lastAttempt (tick w)). }
    change (Object_prototype_get (lit "lastAttempt") _)
      with (Object_prototype_get (lit "lastAttempt") (tick w)).
    rewrite Hlast.
    destruct (js_gt _ window); [reflexivity|].
    rewrite bind_run. cbn [get_member member_name]. cbn [stamped].
    assert (Hcount :
              to_number
                match stamped w !! name with
                | Some _ => Num None
                | None => Object_prototype_get (lit "count") (tick w)
                end = None).
    { destruct (stamped w !! name); [done|].
      exact (prototype_count (tick w)). }
    change (Object_prototype_get (lit "count") _)
      with (Object_prototype_get (lit "count") (tick w)).
    rewrite Hcount. reflexivity.
Qed.

Lemma lookup_attempts_entry u w a :
  authAttempts w !! u = Some a -> lookup_attempts u w = Entry a.
Proof. intros Hu. unfold lookup_attempts. by rewrite Hu. Qed.

(** What the table gives for a name that is not the name of an entry. *)
Lemma lookup_attempts_cases u w :
  (exists a, authAttempts w !! u = Some a /\ lookup_attempts u w = Entry a)
  \/ (authAttempts w !! u = None
      /\ ((u ∈ lit "__proto__" :: prototype_functions
           /\ lookup_attempts u w = Builtin u)
          \/ ((u = lit "count" \/ u = lit "lastAttempt")
              /\ exists n, lookup_attempts u w = Num n)
          \/ lookup_attempts u w = Undefined)).
Proof.
  unfold lookup_attempts.
  destruct (authAttempts w !! u) as [a|] eqn:Hu; [left; by exists a|].
  right. split; [done|].
  case_bool_decide as Hproto.
  { left. split; [|done]. subst u. apply list_elem_of_here. }
  assert (Hprototype :
            (u ∈ lit "__proto__" :: prototype_functions
             /\ Object_prototype_get u w = Builtin u)
            \/ ((u = lit "count" \/ u = lit "lastAttempt")
                /\ exists n, Object_prototype_get u w = Num n)
            \/ Object_prototype_get u w = Undefined).
  { unfold Object_prototype_get. case_bool_decide as Hfun.
    - left. split; [by apply list_elem_of_further|done].
    - destruct (stamped w !! lit "__proto__"); [|by right; right].
      case_bool_decide; [right; left; split; [by left|by eexists]|].
      case_bool_decide; [right; left; split; [by right|by eexists]|].
      by right; right. }
  destruct (authAttempts w !! lit "__proto__"); [|exact Hprototype].
  case_bool_decide; [right; left; split; [by left|by eexists]|].
  case_bool_decide; [right; left; split; [by right|by eexists]|].
  exact Hprototype.
Qed.

Lemma unseen_no_entry u w : unseen u w -> authAttempts w !! u = None.
Proof.
  unfold unseen. intros Hu.
  destruct (authAttempts w !! u) as [a|] eqn:Ha; [|done].
  by rewrite (lookup_attempts_entry u w a Ha) in Hu.
Qed.

(** An ordinary name without an entry is unseen. *)
Lemma ordinary_unseen u w :
  ordinary u -> authAttempts w !! u = None -> unseen u w.
Proof.
  unfold ordinary, unseen. intros Hord Hu.
  destruct (lookup_attempts_cases u w)
    as [(a & Ha & _) | (_ & [ [Hin Hl] | [ [Hname _] | Hl] ])].
  - congruence.
  - exfalso. apply Hord.
    apply elem_of_cons in Hin as [->|Hin]; [apply list_elem_of_here|].
    by do 3 apply list_elem_of_further.
  - exfalso. apply Hord. destruct Hname as [-> | ->].
    + apply list_elem_of_further, list_elem_of_here.
    + do 2 apply list_elem_of_further. apply list_elem_of_here.
  - by rewrite Hl.
Qed.

(** The branches of [checkRateLimit]. *)
Lemma checkRateLimit_unseen u w :
  unseen u w ->
  checkRateLimit u w
  = (Ok allow,
     with_attempts (<[u := fresh (now_of w)]> (authAttempts w)) (tick w)).
Proof.
  unfold unseen. intros Hu. rewrite checkRateLimit_found.
  destruct (lookup_attempts u w) as [|n|a|name]; try done.
  by rewrite Hu.
Qed.

Lemma checkRateLimit_reset u w a :
  authAttempts w !! u = Some a ->
  now_of w - lastAttempt a > window ->
  checkRateLimit u w
  = (Ok allow,
     with_attempts (<[u := fresh (now_of w)]> (authAttempts w)) (tick w)).
Proof.
  intros Hu Hlate.
  rewrite checkRateLimit_found, (lookup_attempts_entry u w a Hu).
  replace (now_of w - lastAttempt a >? window) with true; [done|].
  symmetry. rewrite Z.gtb_ltb. apply Z.ltb_lt. lia.
Qed.

Lemma checkRateLimit_locked u w a :
  authAttempts w !! u = Some a ->
  now_of w - lastAttempt a <= window ->
  5 <= count a ->
  checkRateLimit u w = (Ok (deny (now_of w) (lastAttempt a)), tick w).
Proof.
  intros Hu Hin Hcount.
  rewrite checkRateLimit_found, (lookup_attempts_entry u w a Hu).
  replace (now_of w - lastAttempt a >? window) with false.
  - replace (count a >=? 5) with true; [reflexivity|].
    symmetry. rewrite Z.geb_leb. by apply Z.leb_le.
  - symmetry. rewrite Z.gtb_ltb. apply Z.ltb_ge. lia.
Qed.

Lemma checkRateLimit_counted u w a :
  authAttempts w !! u = Some a ->
  now_of w - lastAttempt a <= window ->
  count a < 5 ->
  checkRateLimit u w
  = (Ok allow,
     with_attempts
       (<[u := {| count := count a + 1; lastAttempt := now_of w |}]>
          (authAttempts w))
       (tick w)).
Proof.
  intros Hu Hin Hcount.
  rewrite checkRateLimit_found, (lookup_attempts_entry u w a Hu).
  replace (now_of w - lastAttempt a >? window) with false.
  - replace (count a >=? 5) with false; [reflexivity|].
    symmetry. rewrite Z.geb_leb. apply Z.leb_gt. lia.
  - symmetry. rewrite Z.gtb_ltb. apply Z.ltb_ge. lia.
Qed.

(** What a call does, in one statement. It is allowed and writes an
    entry stamped with the current reading; or it is denied, the entry
    has reached the threshold inside the window, and nothing changes; or
    the name is one of [Object.prototype], the table has no entry for it,
    the call is allowed and stamps the built-in object; or the name is
    [count] or [lastAttempt], the table inherits a Number under it, and
    the call raises. *)
Lemma checkRateLimit_cases u w :
  (exists e,
      checkRateLimit u w
      = (Ok allow, with_attempts (<[u := e]> (authAttempts w)) (tick w))
      /\ lastAttempt e = now_of w
      /\ authAttempts w !! u <> Some e
      /\ match authAttempts w !! u with
         | None => e = fresh (now_of w)
         | Some a =>
             (now_of w - lastAttempt a > window /\ e = fresh (now_of w))
             \/ (now_of w - lastAttempt a <= window /\ count a < 5
                 /\ e = {| count := count a + 1; lastAttempt := now_of w |})
         end)
  \/ (exists a,
         authAttempts w !! u = Some a
         /\ now_of w - lastAttempt a <= window /\ 5 <= count a
         /\ checkRateLimit u w
            = (Ok (deny (now_of w) (lastAttempt a)), tick w))
  \/ (authAttempts w !! u = None
      /\ u ∈ lit "__proto__" :: prototype_functions
      /\ checkRateLimit u w
         = (Ok allow,
            with_stamped (<[u := now_of w]> (stamped w)) (tick w)))
  \/ (authAttempts w !! u = None
      /\ (u = lit "count" \/ u = lit "lastAttempt")
      /\ checkRateLimit u w = (Throw, tick w)).
Proof.
  assert (Hfresh :
            authAttempts w !! u = None ->
            checkRateLimit u w
            = (Ok allow,
               with_attempts (<[u := fresh (now_of w)]> (authAttempts w))
                 (tick w)) ->
            exists e,
              checkRateLimit u w
              = (Ok allow, with_attempts (<[u := e]> (authAttempts w)) (tick w))
              /\ lastAttempt e = now_of w
              /\ authAttempts w !! u <> Some e
              /\ match authAttempts w !! u with
                 | None => e = fresh (now_of w)
                 | Some a =>
                     (now_of w - lastAttempt a > window
                      /\ e = fresh (now_of w))
                     \/ (now_of w - lastAttempt a <= window /\ count a < 5
                         /\ e = {| count := count a + 1;
                                   lastAttempt := now_of w |})
                 end).
  { intros Hu Hrun. exists (fresh (now_of w)). by rewrite Hu. }
  destruct (lookup_attempts_cases u w)
    as [(a & Hu & _) | (Hu & [ [Hin Hl] | [ [Hname [n Hl] ] | Hl] ])].
  - destruct (Z_gt_le_dec (now_of w - lastAttempt a) window) as [Hlate|Hin].
    + left. exists (fresh (now_of w)).
      rewrite (checkRateLimit_reset u w a Hu Hlate), Hu.
      repeat split; [|by left].
      intros [= ->]. simpl in Hlate. unfold window in Hlate. lia.
    + destruct (Z_lt_le_dec (count a) 5) as [Hlow|Hhigh].
      * left. exists {| count := count a + 1; lastAttempt := now_of w |}.
        rewrite (checkRateLimit_counted u w a Hu Hin Hlow), Hu.
        repeat split; [|right; by repeat split].
        intros [= E]. destruct a as [c l]. simpl in *.
        injection E as Ec _. lia.
      * right. left. exists a.
        by rewrite (checkRateLimit_locked u w a Hu Hin Hhigh).
  - pose proof (checkRateLimit_found u w) as Hrun. cbv zeta in Hrun.
    rewrite Hl in Hrun.
    destruct (js_gt _ window) in Hrun.
    + left. by apply Hfresh.
    + right. right. left. by rewrite Hrun.
  - pose proof (checkRateLimit_found u w) as Hrun. cbv zeta in Hrun.
    rewrite Hl in Hrun.
    destruct (negb (truthy (Num n))) in Hrun; [left; by apply Hfresh|].
    destruct (js_gt _ window) in Hrun; [left; by apply Hfresh|].
    right. right. right. by rewrite Hrun.
  - left. apply Hfresh; [done|].
    apply checkRateLimit_unseen. unfold unseen. by rewrite Hl.
Qed.

(** The three outcomes of a call. *)
Lemma checkRateLimit_outcomes u w :
  value (checkRateLimit u) w = Ok allow
  \/ (exists a,
         authAttempts w !! u = Some a
         /\ now_of w - lastAttempt a <= window /\ 5 <= count a
         /\ checkRateLimit u w
            = (Ok (deny (now_of w) (lastAttempt a)), tick w))
  \/ (authAttempts w !! u = None
      /\ (u = lit "count" \/ u = lit "lastAttempt")
      /\ checkRateLimit u w = (Throw, tick w)).
Proof.
  unfold value.
  destruct (checkRateLimit_cases u w)
    as [(e & -> & _) | [Hdenied | [(_ & _ & ->) | Hraised] ] ];
    [by left|by right; left|by left|by right; right].
Qed.

Lemma checkRateLimit_clock u w :
  clock (exec (checkRateLimit u) w) = clock w
  /\ ticks (exec (checkRateLimit u) w) = S (ticks w)
  /\ storage (exec (checkRateLimit u) w) = storage w.
Proof.
  unfold exec.
  destruct (checkRateLimit_cases u w)
    as [(e & -> & _) | [(a & _ & _ & _ & ->) | [(_ & _ & ->) | (_ & _ & ->)] ] ];
    done.
Qed.

Lemma after_checks_clock n u w :
  clock (after_checks n u w) = clock w
  /\ ticks (after_checks n u w) = (n + ticks w)%nat.
Proof.
  induction n as [|n [IHc IHt]]; [done|].
  change (after_checks (S n) u w)
    with (exec (checkRateLimit u) (after_checks n u w)).
  destruct (checkRateLimit_clock u (after_checks n u w)) as (Hc & Ht & _).
  rewrite Hc, Ht, IHc, IHt. done.
Qed.

Lemma now_of_after_checks n u w :
  now_of (after_checks n u w) = clock w (n + ticks w)%nat.
Proof.
  unfold now_of. destruct (after_checks_clock n u w) as [-> ->]. done.
Qed.

(** A call on an entry below the threshold is allowed, whatever the
    clock says, and leaves an entry that counts at most one more. *)
Lemma checkRateLimit_below u w a :
  authAttempts w !! u = Some a -> 1 <= count a < 5 ->
  value (checkRateLimit u) w = Ok allow
  /\ exists a', authAttempts (exec (checkRateLimit u) w) !! u = Some a'
                /\ 1 <= count a' <= count a + 1.
Proof.
  intros Hu Hc. unfold value, exec.
  destruct (checkRateLimit_cases u w)
    as [(e & -> & _ & _ & He) | [(a' & Ha' & _ & Hfive & _)
                                | [(Hnone & _) | (Hnone & _)] ] ];
    try congruence.
  - split; [done|]. exists e. cbn. rewrite lookup_insert_eq.
    split; [done|]. rewrite Hu in He.
    destruct He as [[_ ->]|(_ & _ & ->)]; simpl; lia.
  - rewrite Hu in Ha'. injection Ha' as <-. lia.
Qed.

Lemma after_checks_bounded n u w :
  unseen u w ->
  exists a, authAttempts (after_checks (S n) u w) !! u = Some a
            /\ 1 <= count a <= Z.of_nat (S n).
Proof.
  intros Hu. induction n as [|n (a & Ha & Hc)].
  - change (after_checks 1 u w) with (exec (checkRateLimit u) w).
    unfold exec. rewrite (checkRateLimit_unseen u w Hu). cbn.
    rewrite lookup_insert_eq. exists (fresh (now_of w)). simpl. split; [done|lia].
  - change (after_checks (S (S n)) u w)
      with (exec (checkRateLimit u) (after_checks (S n) u w)).
    destruct (checkRateLimit_cases u (after_checks (S n) u w))
      as [(e & Hrun & _ & _ & He) | [(a' & Ha' & _ & _ & Hrun)
                                    | [(Hnone & _) | (Hnone & _)] ] ];
      try congruence.
    + unfold exec. rewrite Hrun. cbn. rewrite lookup_insert_eq.
      exists e. split; [done|]. rewrite Ha in He.
      destruct He as [[_ ->]|(_ & _ & ->)]; simpl; lia.
    + unfold exec. rewrite Hrun. cbn. exists a.
      split; [done|lia].
Qed.

(** Without a gap of more than the window between two successive calls,
    the [n]-th call leaves the entry [{count: n, lastAttempt: t(n-1)}]. *)
Lemma after_checks_no_gap n u w :
  unseen u w ->
  (n < 5)%nat ->
  (forall i, (1 <= i <= n)%nat ->
             clock w (i + ticks w)%nat - clock w (i - 1 + ticks w)%nat
             <= window) ->
  authAttempts (after_checks (S n) u w) !! u
  = Some {| count := Z.of_nat (S n);
            lastAttempt := clock w (n + ticks w)%nat |}.
Proof.
  intros Hu. induction n as [|n IH]; intros Hn Hgap.
  - change (after_checks 1 u w) with (exec (checkRateLimit u) w).
    unfold exec. rewrite (checkRateLimit_unseen u w Hu). cbn.
    by rewrite lookup_insert_eq.
  - change (after_checks (S (S n)) u w)
      with (exec (checkRateLimit u) (after_checks (S n) u w)).
    specialize (IH ltac:(lia) ltac:(intros i Hi; apply Hgap; lia)).
    pose proof (now_of_after_checks (S n) u w) as Hnow.
    unfold exec.
    rewrite (checkRateLimit_counted u _ _ IH).
    + cbn [snd with_attempts authAttempts].
      rewrite lookup_insert_eq, Hnow. do 2 f_equal. cbn [count]. lia.
    + rewrite Hnow. cbn [lastAttempt].
      specialize (Hgap (S n) ltac:(lia)).
      replace (S n - 1 + ticks w)%nat with (n + ticks w)%nat in Hgap by lia.
      done.
    + cbn [count]. lia.
Qed.

Lemma ceil_div_pos x : 0 < x -> 0 < ceil_div x 1000.
Proof. unfold ceil_div. intros Hx. zdiv. Qed.

End RateLimiter.

(** ** Secure storage *)

Section SecureStore.

Lemma digit_char_byte radix d :
  2 <= radix <= 36 -> 0 <= d < radix -> 48 <= digit_char d <= 122.
Proof. intros Hr Hd. unfold digit_char. case_match; unbool; lia. Qed.

Lemma digits_acc_Forall (P : Z -> Prop) fuel radix n acc :
  0 < radix ->
  (forall d, 0 <= d < radix -> P (digit_char d)) ->
  Forall P acc -> Forall P (digits_acc fuel radix n acc).
Proof.
  intros Hr HP. revert n acc.
  induction fuel as [|fuel IH]; intros n acc Hacc; [done|].
  cbn [digits_acc].
  assert (Forall P (digit_char (n mod radix) :: acc)).
  { constructor; [|done]. apply HP. by apply Z.mod_pos_bound. }
  case_match; [done|]. by apply IH.
Qed.

Lemma toString_radix_Forall (P : Z -> Prop) radix n :
  0 < radix -> P 45 ->
  (forall d, 0 <= d < radix -> P (digit_char d)) ->
  Forall P (toString_radix radix n).
Proof.
  intros Hr Hminus HP. unfold toString_radix, digits.
  case_match; [constructor; [done|]|]; by apply digits_acc_Forall.
Qed.

Lemma toString_radix_byte radix n :
  2 <= radix <= 36 -> Forall byte (toString_radix radix n).
Proof.
  intros Hr. apply toString_radix_Forall; [lia|unfold byte; lia|].
  intros d Hd. pose proof (digit_char_byte radix d Hr Hd).
  unfold byte. lia.
Qed.

Lemma lit_byte s : Forall byte (lit s).
Proof.
  unfold lit. apply Forall_forall. intros c Hc.
  apply list_elem_of_In, in_map_iff in Hc as (a & <- & _).
  pose proof (N_ascii_bounded a). unfold byte. lia.
Qed.

Lemma encryption_key_byte now : Forall byte (encryption_key now).
Proof.
  unfold encryption_key.
  apply Forall_app; split; [apply lit_byte|].
  apply toString_radix_byte; lia.
Qed.

Lemma getEncryptionKey_run w :
  getEncryptionKey w = (Ok (encryption_key (now_of w)), tick w).
Proof. reflexivity. Qed.

(** [secureStore] of a one-byte-per-unit value succeeds and writes both
    slots. *)
Lemma secureStore_run key v w :
  Forall byte v ->
  secureStore key v w
  = (Ok tt, with_storage (stored (storage w) key v (now_of w)) (tick w)).
Proof.
  intros Hv. unfold secureStore.
  apply try_catch_ok.
  rewrite (bind_ok _ _ _ _ _ (getEncryptionKey_run w)).
  rewrite (encrypt_latin1 _ _ Hv (encryption_key_byte _)).
  unfold btoa.
  rewrite (proj2 (is_latin1_Forall _) (encryption_key_byte _)).
  reflexivity.
Qed.

Lemma secureRetrieve_run key w :
  secureRetrieve key w = (Ok (retrieve (storage w) key), w).
Proof.
  unfold secureRetrieve, retrieve, try_catch, mbind, M_bind,
    AsyncStorage_getItem.
  fold (secure_slot key). fold (key_slot key).
  destruct (storage w !! secure_slot key) as [[|c ct]|];
    destruct (storage w !! key_slot key) as [[|k kt]|]; try reflexivity.
  cbn -[atob decrypt].
  destruct (atob (k :: kt)); reflexivity.
Qed.

Lemma slots_distinct k k' : secure_slot k <> key_slot k'.
Proof. unfold secure_slot, key_slot. vm_compute. congruence. Qed.

Lemma secure_slot_inj k k' : secure_slot k = secure_slot k' -> k = k'.
Proof. unfold secure_slot. apply app_inv_head. Qed.

Lemma key_slot_inj k k' : key_slot k = key_slot k' -> k = k'.
Proof. unfold key_slot. apply app_inv_head. Qed.

(** Reading back what was stored: the value, unless it was empty. *)
Lemma retrieve_stored st key v now :
  Forall byte v ->
  retrieve (stored st key v now) key
  = match v with [] => None | _ => Some v end.
Proof.
  intros Hv. unfold retrieve, stored.
  rewrite lookup_insert_eq.
  rewrite lookup_insert_ne by (apply not_eq_sym, slots_distinct).
  rewrite lookup_insert_eq.
  pose proof (encryption_key_byte now) as Hk.
  destruct v as [|c v]; [reflexivity|].
  destruct (btoa_bytes (xor_with_key (c :: v) (encryption_key now)))
    as [|x xt] eqn:Hx.
  { apply btoa_bytes_nil_inv in Hx. discriminate. }
  destruct (btoa_bytes (encryption_key now)) as [|y yt] eqn:Hy.
  { apply btoa_bytes_nil_inv in Hy. discriminate. }
  assert (Hbk : btoa (encryption_key now) = Some (y :: yt)).
  { unfold btoa. by rewrite (proj2 (is_latin1_Forall _) Hk), Hy. }
  rewrite (atob_btoa _ _ Hbk). f_equal.
  apply decrypt_encrypt; [done|done|].
  by rewrite (encrypt_latin1 _ _ Hv Hk), Hx.
Qed.

(** Storing under one logical key leaves every other one alone. *)
Lemma retrieve_stored_other st key key' v now :
  key <> key' ->
  retrieve (stored st key v now) key' = retrieve st key'.
Proof.
  intros Hne. unfold retrieve, stored.
  rewrite !(lookup_insert_ne _ (key_slot key) (secure_slot key'))
    by (apply not_eq_sym, slots_distinct).
  rewrite (lookup_insert_ne _ (secure_slot key) (secure_slot key'))
    by (intros E; by apply Hne, secure_slot_inj).
  rewrite (lookup_insert_ne _ (key_slot key) (key_slot key'))
    by (intros E; by apply Hne, key_slot_inj).
  rewrite (lookup_insert_ne _ (secure_slot key) (key_slot key'))
    by apply slots_distinct.
  reflexivity.
Qed.

End SecureStore.

(** ** Claims about the rate limiter *)

Section RateLimiterClaims.

(** C2, as amended: for an identity for which the table gives nothing
    (it has no entry for it and inherits nothing under its name, which
    leaves out the names of [Object.prototype] such as [constructor],
    [toString] and [__proto__]), the first five calls are allowed
    whatever the clock says. If none of the calls
    two to five comes more than 15 minutes after the one before, a sixth
    call not more than 15 minutes after the fifth is denied with
    remainingTime = ceil((15 min - (now - lastAttempt)) / 1000), which
    is positive when the sixth call comes less than 15 minutes after the
    fifth (and 0 at exactly 15 minutes). Any call more than 15 minutes
    after the recorded attempt is allowed and resets the entry to
    [{count: 1, lastAttempt: now}]. *)
Theorem C2_rate_limit_window (u : jsstring) (w : World) :
  unseen u w ->
  let t (i : nat) := clock w (i + ticks w)%nat in
  (forall n, (n < 5)%nat ->
             value (checkRateLimit u) (after_checks n u w)
             = Ok {| allowed := true; remainingTime := None |})
  /\ ((forall i, (1 <= i <= 4)%nat -> t i - t (i - 1)%nat <= 15 * 60 * 1000) ->
      t 5%nat - t 4%nat <= 15 * 60 * 1000 ->
      value (checkRateLimit u) (after_checks 5 u w)
      = Ok {| allowed := false;
              remainingTime :=
                Some (ceil_div (15 * 60 * 1000 - (t 5%nat - t 4%nat)) 1000) |}
      /\ (t 5%nat - t 4%nat < 15 * 60 * 1000 ->
          0 < ceil_div (15 * 60 * 1000 - (t 5%nat - t 4%nat)) 1000)
      /\ (t 5%nat - t 4%nat = 15 * 60 * 1000 ->
          ceil_div (15 * 60 * 1000 - (t 5%nat - t 4%nat)) 1000 = 0))
  /\ (forall w' a,
        authAttempts w' !! u = Some a ->
        now_of w' - lastAttempt a > 15 * 60 * 1000 ->
        value (checkRateLimit u) w'
        = Ok {| allowed := true; remainingTime := None |}
        /\ authAttempts (exec (checkRateLimit u) w') !! u
           = Some {| count := 1; lastAttempt := now_of w' |}).
Proof.
  intros Hu t. split; [|split].
  - intros [|n] Hn.
    + unfold value. change (after_checks 0 u w) with w.
      by rewrite (checkRateLimit_unseen u w Hu).
    + destruct (after_checks_bounded n u w Hu) as (a & Ha & Hc).
      apply (checkRateLimit_below u _ a Ha). lia.
  - intros Hgap Hsixth.
    pose proof (after_checks_no_gap 4 u w Hu ltac:(lia) Hgap) as H5.
    pose proof (now_of_after_checks 5 u w) as Hnow.
    split.
    + unfold value.
      rewrite (checkRateLimit_locked u _ _ H5); cbn [lastAttempt count].
      * by rewrite Hnow.
      * by rewrite Hnow.
      * lia.
    + split.
      * intros Hlt. apply ceil_div_pos. lia.
      * intros ->. reflexivity.
  - intros w' a Ha Hlate. unfold value, exec.
    rewrite (checkRateLimit_reset u w' a Ha Hlate).
    split; [done|]. cbn. by rewrite lookup_insert_eq.
Qed.

Lemma C2_rate_limit_window_witness :
  let w := initial_world (clock_of_list [0; 1000; 2000; 3000; 4000; 5000]) in
  value (checkRateLimit (lit "alice")) (after_checks 5 (lit "alice") w)
  = Ok {| allowed := false; remainingTime := Some 899 |}.
Proof.
  intros w.
  destruct (C2_rate_limit_window (lit "alice") w) as (_ & Hsix & _).
  - reflexivity.
  - destruct Hsix as [Hdenied _].
    + intros i Hi.
      assert (Hcases : (i = 1 \/ i = 2 \/ i = 3 \/ i = 4)%nat) by lia.
      destruct Hcases as [-> | [-> | [-> | ->]]]; vm_compute; congruence.
    + vm_compute; congruence.
    + exact Hdenied.
Defined.

(** C2, as stated, fails three times. With five calls at time 0 and the
    sixth exactly 15 minutes later (which is not more than 15 minutes),
    the sixth call is denied with remainingTime 0, not a positive one.
    When the third call comes more than 15 minutes after the second, the
    count starts over, so the sixth call, made in the same millisecond
    as the fifth, is allowed. And for the identity [constructor], which
    the limiter has never seen, the table gives the function [Object]:
    every call is allowed and none creates an entry. *)
Lemma C2_counterexample :
  let alice := lit "alice" in
  let w := initial_world (clock_of_list [0; 0; 0; 0; 0; 900000]) in
  let w' := initial_world
              (clock_of_list [0; 0; 1000000; 1000000; 1000000; 1000000]) in
  let w'' := initial_world (clock_of_list [1; 2; 3; 4; 5; 6]) in
  authAttempts w'' !! lit "constructor" = None
  /\ value (checkRateLimit (lit "constructor"))
       (after_checks 5 (lit "constructor") w'')
     = Ok {| allowed := true; remainingTime := None |}
  /\ authAttempts (after_checks 6 (lit "constructor") w'') = ∅
  /\ authAttempts w !! alice = None
  /\ authAttempts (after_checks 5 alice w) !! alice
     = Some {| count := 5; lastAttempt := 0 |}
  /\ now_of (after_checks 5 alice w) = 900000
  /\ value (checkRateLimit alice) (after_checks 5 alice w)
     = Ok {| allowed := false; remainingTime := Some 0 |}
  /\ authAttempts w' !! alice = None
  /\ authAttempts (after_checks 5 alice w') !! alice
     = Some {| count := 3; lastAttempt := 1000000 |}
  /\ now_of (after_checks 5 alice w') = 1000000
  /\ value (checkRateLimit alice) (after_checks 5 alice w')
     = Ok {| allowed := true; remainingTime := None |}.
Proof. repeat split; vm_compute; reflexivity. Qed.



End RateLimiterClaims.

(** ** Logout and the empty value *)

Section Logout.

Lemma logout_run w :
  logout w
  = (Ok tt,
     with_attempts ∅
       (with_storage (stored (storage w) SESSION_STORAGE_KEY [] (now_of w))
          (tick w))).
Proof.
  unfold logout. apply try_catch_ok.
  rewrite (bind_ok _ _ _ _ _ (secureStore_run SESSION_STORAGE_KEY [] w
                                (Forall_nil_2 _))).
  reflexivity.
Qed.

Lemma stored_empty_slot st key now :
  stored st key [] now !! secure_slot key = Some [].
Proof.
  unfold stored.
  rewrite lookup_insert_ne by (apply not_eq_sym, slots_distinct).
  by rewrite lookup_insert_eq.
Qed.






(** C10: after [secureStore(k, '')] the ciphertext slot holds the empty
    string and [secureRetrieve(k)] returns null; in particular, after
    [logout] there is no current session. *)
Theorem C10_empty_value_reads_as_absent (k : jsstring) (w : World) :
  value (secureStore k []) w = Ok tt
  /\ storage (exec (secureStore k []) w) !! secure_slot k = Some []
  /\ value (secureRetrieve k) (exec (secureStore k []) w) = Ok None
  /\ value getCurrentSession (exec logout w) = Ok None.
Proof.
  unfold value, exec.
  rewrite (secureStore_run k [] w (Forall_nil_2 _)). cbn [fst snd].
  split; [done|]. split; [apply stored_empty_slot|]. split.
  - rewrite secureRetrieve_run. cbn [fst with_storage storage].
    by rewrite (retrieve_stored _ k [] _ (Forall_nil_2 _)).
  - rewrite logout_run. cbn [snd].
    unfold getCurrentSession.
    erewrite try_catch_ok; [done|].
    erewrite bind_ok; [|apply secureRetrieve_run].
    cbn [with_attempts with_storage storage].
    by rewrite (retrieve_stored _ SESSION_STORAGE_KEY [] _ (Forall_nil_2 _)).
Qed.

End Logout.

(** ** The password digest and the user id *)

Section Digest.

Lemma to_int32_congr x y :
  (x - y) mod 2 ^ 32 = 0 -> to_int32 x = to_int32 y.
Proof. unfold to_int32. intros H. zdiv. Qed.

Lemma to_int32_idem x : to_int32 (to_int32 x) = to_int32 x.
Proof. apply to_int32_congr. unfold to_int32. zdiv. Qed.

(** The shift-and-subtract of the source is the multiplication by 31 of
    the specification. *)
Lemma hash_step_spec hash char :
  hash_step hash char = to_int32 (hash * 31 + char).
Proof.
  unfold hash_step, js_and, js_shl.
  rewrite Z.land_diag, to_int32_idem, Z.shiftl_mul_pow2 by lia.
  apply to_int32_congr. unfold to_int32. zdiv.
Qed.

Lemma fold_left_pointwise {A B} (f g : A -> B -> A) l a :
  (forall x y, f x y = g x y) -> fold_left f l a = fold_left g l a.
Proof.
  intros Hfg. revert a. induction l as [|y l IH]; intros a; [done|].
  cbn [fold_left]. by rewrite Hfg, IH.
Qed.

Lemma fold_hash_step_spec password hash :
  fold_left hash_step password hash
  = fold_left (fun h c => to_int32 (h * 31 + c)) password hash.
Proof. apply fold_left_pointwise, hash_step_spec. Qed.

Lemma hashPassword_nonempty password :
  password <> [] ->
  hashPassword password
  = btoa_bytes (toString_radix 36 (polynomial_hash password + 13)).
Proof.
  intros Hne. unfold hashPassword, polynomial_hash.
  destruct password as [|c p]; [done|].
  cbn [length Nat.eqb]. rewrite fold_hash_step_spec.
  change (Z.of_nat (length salt)) with 13.
  unfold btoa.
  by rewrite (proj2 (is_latin1_Forall _)
                (toString_radix_byte 36 _ ltac:(lia))).
Qed.

(** C5, as amended: [hashPassword] is a function of the password alone,
    and for every non-empty password it is the digest of the
    specification: the polynomial hash in wrapped 32-bit arithmetic,
    plus 13, in base 36, base64-encoded. (The empty password is
    answered before the loop; see the counterexample.) *)
Theorem C5_hashPassword_digest (password : jsstring) :
  password <> [] ->
  digest_spec password = Some (hashPassword password)
  /\ forall other, other = password ->
                   hashPassword other = hashPassword password.
Proof.
  intros Hne. split; [|by intros ? ->].
  rewrite (hashPassword_nonempty _ Hne). unfold digest_spec, btoa.
  by rewrite (proj2 (is_latin1_Forall _)
                (toString_radix_byte 36 _ ltac:(lia))).
Qed.

Lemma C5_hashPassword_digest_witness :
  digest_spec (lit "SecurePass123!")
  = Some (hashPassword (lit "SecurePass123!")).
Proof.
  apply (C5_hashPassword_digest (lit "SecurePass123!")).
  vm_compute. congruence.
Defined.

(** C5, as stated, fails on the empty password: the source returns the
    text 0 at once, with no salt, base 36 or base64, where the described
    computation gives the base64 of d (13 in base 36). *)
Lemma C5_counterexample :
  hashPassword [] = lit "0"
  /\ digest_spec [] = Some (lit "ZA==")
  /\ digest_spec [] <> Some (hashPassword []).
Proof. repeat split; vm_compute; congruence. Qed.

Lemma generateSecureUserId_run username w :
  generateSecureUserId username w
  = (Ok (lit "user_"
           ++ substring0 12 (hashPassword (username ++ toString (now_of w)))),
     tick w).
Proof. reflexivity. Qed.

(** C9, as amended: the id is a function of the username and of the
    millisecond reading of the clock, so two calls with the same
    username that read the same value return the same id; ids can
    differ only when the readings differ. *)
Theorem C9_user_id_depends_on_reading (username : jsstring) (w1 w2 : World) :
  now_of w1 = now_of w2 ->
  value (generateSecureUserId username) w1
  = value (generateSecureUserId username) w2.
Proof.
  intros Hnow. unfold value.
  rewrite !generateSecureUserId_run. cbn [fst]. by rewrite Hnow.
Qed.

Lemma C9_user_id_depends_on_reading_witness :
  value (generateSecureUserId (lit "demo_user"))
    (initial_world (clock_of_list [1700000000000; 1700000000000]))
  = value (generateSecureUserId (lit "demo_user"))
      (tick (initial_world (clock_of_list [1700000000000; 1700000000000]))).
Proof.
  apply C9_user_id_depends_on_reading. reflexivity.
Defined.

(** C9, as stated, fails: two successive calls for the same username
    inside one millisecond return the same id. *)
Lemma C9_counterexample :
  let w := initial_world (clock_of_list [1700000000000; 1700000000000]) in
  value (first ← generateSecureUserId (lit "demo_user");
         second ← generateSecureUserId (lit "demo_user");
         mret (first, second)) w
  = Ok (lit "user_MzllMWFv", lit "user_MzllMWFv").
Proof. vm_compute. reflexivity. Qed.

End Digest.

(** ** JSON round trip *)

Section Json.

Lemma digits_acc_value fuel n acc a :
  0 <= n < 2 ^ Z.of_nat fuel ->
  exists k, 0 <= k /\
    fold_left (fun acc c => acc * 10 + (c - 48)) (digits_acc fuel 10 n acc) a
    = fold_left (fun acc c => acc * 10 + (c - 48)) acc (a * 10 ^ k + n).
Proof.
  revert n acc a. induction fuel as [|fuel IH]; intros n acc a Hn.
  - exists 0. split; [done|]. simpl. f_equal.
    change (2 ^ Z.of_nat 0) with 1 in Hn. lia.
  - cbn [digits_acc].
    assert (Hd : digit_char (n mod 10) - 48 = n mod 10).
    { unfold digit_char. case_match; unbool; zdiv. }
    destruct (n / 10 =? 0) eqn:Hq; unbool.
    + exists 1. split; [done|]. cbn [fold_left]. rewrite Hd. f_equal. zdiv.
    + destruct (IH (n / 10) (digit_char (n mod 10) :: acc) a) as (k & Hk & ->).
      { rewrite Nat2Z.inj_succ, Z.pow_succ_r in Hn by lia. zdiv. }
      exists (k + 1). split; [lia|]. cbn [fold_left]. rewrite Hd. f_equal.
      rewrite Z.pow_add_r, Z.pow_1_r by lia.
      pose proof (Z.div_mod n 10 ltac:(lia)). nia.
Qed.

Lemma digits_fuel n : 0 <= n -> n < 2 ^ Z.of_nat (S (Z.to_nat (Z.log2 n))).
Proof.
  intros Hn. rewrite Nat2Z.inj_succ, Z2Nat.id by apply Z.log2_nonneg.
  destruct (decide (n = 0)) as [->|]; [done|].
  apply Z.log2_spec. lia.
Qed.

Lemma decimal_value_digits n : 0 <= n -> decimal_value (digits 10 n) = n.
Proof.
  intros Hn. unfold decimal_value, digits.
  destruct (digits_acc_value (S (Z.to_nat (Z.log2 n))) n [] 0)
    as (k & _ & ->); [split; [done|by apply digits_fuel]|].
  simpl. lia.
Qed.

Lemma digits_are_digits n : Forall is_digit (digits 10 n).
Proof.
  unfold digits. apply digits_acc_Forall; [lia| |constructor].
  intros d Hd. unfold is_digit, digit_char. case_match; unbool; lia.
Qed.

Lemma digits_acc_nonempty fuel radix n acc :
  acc <> [] -> digits_acc fuel radix n acc <> [].
Proof.
  revert n acc. induction fuel as [|fuel IH]; intros n acc Hacc; [done|].
  cbn [digits_acc]. case_match; [done|]. by apply IH.
Qed.

Lemma digits_nonempty radix n : digits radix n <> [].
Proof.
  unfold digits. cbn [digits_acc]. case_match; [done|].
  by apply digits_acc_nonempty.
Qed.

Lemma span_digits_app ds rest :
  Forall is_digit ds -> ends_number rest ->
  span_digits (ds ++ rest) = (ds, rest).
Proof.
  intros Hds Hrest. induction Hds as [|c ds Hc _ IH].
  - destruct rest as [|c rest]; [done|]. simpl in *.
    destruct (in_range 48 57 c) eqn:Hr; [|done].
    apply in_range_spec in Hr. by destruct Hrest.
  - simpl. rewrite (proj2 (in_range_spec 48 57 c) Hc). by rewrite IH.
Qed.

Lemma parse_natural_digits n rest :
  0 <= n -> ends_number rest ->
  parse_natural (digits 10 n ++ rest) = Some (n, rest).
Proof.
  intros Hn Hrest. unfold parse_natural.
  rewrite (span_digits_app _ _ (digits_are_digits n) Hrest).
  pose proof (digits_nonempty 10 n).
  destruct (digits 10 n) as [|d ds] eqn:Hd; [done|].
  by rewrite <- Hd, decimal_value_digits.
Qed.

Lemma parse_integer_toString n rest :
  ends_number rest ->
  parse_integer (toString n ++ rest) = Some (n, rest).
Proof.
  intros Hrest. unfold toString, toString_radix.
  destruct (n <? 0) eqn:Hneg; unbool.
  - cbn [app parse_integer].
    rewrite parse_natural_digits by (done || lia). simpl.
    do 2 f_equal. lia.
  - pose proof (digits_are_digits n) as Hds.
    pose proof (digits_nonempty 10 n).
    unfold parse_integer.
    destruct (digits 10 n) as [|d ds] eqn:Hd; [done|].
    apply Forall_cons in Hds as [Hdig _]. unfold is_digit in Hdig.
    cbn [app].
    destruct (decide (d = 45)) as [->|Hne]; [lia|].
    replace (match d :: ds ++ rest with
             | 45 :: s' => '(n0, rest0) ← parse_natural s'; Some (- n0, rest0)
             | _ => parse_natural (d :: ds ++ rest)
             end) with (parse_natural (d :: ds ++ rest)).
    + change (d :: ds ++ rest) with ((d :: ds) ++ rest).
      rewrite <- Hd. by apply parse_natural_digits.
    + destruct d as [|p|p]; try done.
      do 7 (destruct p as [p|p|]; try done).
Qed.

Lemma starts_with_app pat rest : starts_with pat (pat ++ rest) = true.
Proof.
  induction pat as [|p pat IH]; [done|].
  simpl. by rewrite Z.eqb_refl, IH.
Qed.

Lemma expect_app pat rest : expect pat (pat ++ rest) = Some rest.
Proof.
  unfold expect. rewrite starts_with_app. by rewrite drop_app_length.
Qed.

Lemma json_escape_storable c : storable c -> json_escape c = [c].
Proof.
  unfold storable, json_escape. intros (Hc & H34 & H92).
  repeat (case_match; unbool; try lia). done.
Qed.

Lemma parse_string_body_storable s rest :
  Forall storable s ->
  parse_string_body (concat (map json_escape s) ++ 34 :: rest)
  = Some (s, rest).
Proof.
  induction 1 as [|c s Hc _ IH]; [done|].
  cbn [map concat]. rewrite (json_escape_storable c Hc).
  cbn [app parse_string_body]. rewrite IH.
  destruct Hc as (Hc & H34 & H92).
  repeat (case_match; unbool; try lia). done.
Qed.

Lemma parse_string_quote s rest :
  Forall storable s ->
  parse_string (json_quote s ++ rest) = Some (s, rest).
Proof.
  intros Hs. unfold json_quote, parse_string. cbn [app].
  rewrite <- app_assoc. by apply parse_string_body_storable.
Qed.

Lemma parse_user_stringify u rest :
  storable_user u ->
  parse_user (JSON_stringify_user u ++ rest) = Some (u, rest).
Proof.
  intros [Hname Hid]. unfold parse_user, JSON_stringify_user.
  rewrite <- !app_assoc.
  rewrite (app_assoc [123] (json_key "username")), expect_app.
  cbn [mbind option_bind]. rewrite parse_string_quote by done.
  cbn [mbind option_bind].
  rewrite (app_assoc [44] (json_key "userId")), expect_app.
  cbn [mbind option_bind]. rewrite parse_string_quote by done.
  cbn [mbind option_bind].
  rewrite (app_assoc [44] (json_key "createdAt")), expect_app.
  cbn [mbind option_bind].
  rewrite parse_integer_toString by (cbn; unfold is_digit; lia).
  cbn [mbind option_bind]. rewrite (expect_app [125] rest).
  cbn [mbind option_bind]. by destruct u.
Qed.

Lemma json_elements_cons x y rest :
  json_elements (x :: y :: rest) = x ++ [44] ++ json_elements (y :: rest).
Proof. reflexivity. Qed.

Lemma parse_user_list_elements us u fuel tail :
  Forall storable_user (u :: us) ->
  (length (u :: us) <= fuel)%nat ->
  parse_user_list fuel
    (json_elements (map JSON_stringify_user (u :: us)) ++ 93 :: tail)
  = Some (u :: us, tail).
Proof.
  revert u fuel. induction us as [|u' us IH]; intros u fuel Hwf Hfuel.
  - destruct fuel as [|fuel]; [simpl in Hfuel; lia|].
    apply Forall_cons in Hwf as [Hu _].
    cbn [map json_elements parse_user_list].
    by rewrite (parse_user_stringify u _ Hu).
  - destruct fuel as [|fuel]; [simpl in Hfuel; lia|].
    apply Forall_cons in Hwf as [Hu Hwf].
    cbn [map]. rewrite json_elements_cons, <- !app_assoc.
    cbn [parse_user_list].
    rewrite (parse_user_stringify u _ Hu). cbn [mbind option_bind app].
    change (JSON_stringify_user u' :: map JSON_stringify_user us)
      with (map JSON_stringify_user (u' :: us)).
    rewrite (IH u' fuel Hwf) by (simpl in *; lia). done.
Qed.

Lemma json_elements_length us :
  (length us <= length (json_elements (map JSON_stringify_user us)))%nat.
Proof.
  induction us as [|u [|u' us] IH]; [done|simpl; lia|].
  cbn [map]. rewrite json_elements_cons, !length_app.
  cbn [map] in IH. cbn [length] in *. lia.
Qed.

(** [JSON.parse] reads back the registry [JSON.stringify] wrote. *)
Lemma JSON_parse_stringify_users us :
  Forall storable_user us ->
  JSON_parse_users (JSON_stringify_users us) = Some us.
Proof.
  intros Hwf. destruct us as [|u us]; [done|].
  unfold JSON_stringify_users.
  pose proof (json_elements_length (u :: us)) as Hlen.
  assert (Hhead : exists t,
             json_elements (map JSON_stringify_user (u :: us)) = 123 :: t).
  { destruct us; cbn [map json_elements]; eauto. }
  destruct Hhead as [t Ht]. rewrite Ht.
  cbn [app JSON_parse_users].
  change (123 :: t ++ [93]) with ((123 :: t) ++ [93]). rewrite <- Ht.
  rewrite (parse_user_list_elements us u _ [] Hwf); [done|].
  rewrite length_app. lia.
Qed.

Lemma storable_byte s : Forall storable s -> Forall byte s.
Proof.
  intros Hs. eapply Forall_impl; [exact Hs|].
  unfold storable, byte. lia.
Qed.

Lemma json_quote_byte s : Forall storable s -> Forall byte (json_quote s).
Proof.
  intros Hs. unfold json_quote.
  constructor; [unfold byte; lia|].
  apply Forall_app; split; [|repeat constructor; unfold byte; lia].
  induction Hs as [|c s Hc _ IH]; [constructor|].
  cbn [map concat]. rewrite (json_escape_storable c Hc).
  constructor; [|done]. unfold storable, byte in *. lia.
Qed.

Lemma json_key_byte name : Forall byte (json_key name).
Proof.
  unfold json_key. constructor; [unfold byte; lia|].
  apply Forall_app; split; [apply lit_byte|].
  repeat constructor; unfold byte; lia.
Qed.

Lemma byte_singleton c : 0 <= c <= 255 -> Forall byte [c].
Proof. intros Hc. apply Forall_cons. split; [exact Hc|apply Forall_nil_2]. Qed.

Lemma JSON_stringify_user_byte u :
  storable_user u -> Forall byte (JSON_stringify_user u).
Proof.
  intros [Hname Hid]. unfold JSON_stringify_user.
  repeat (apply Forall_app; split);
    try (apply byte_singleton; lia);
    try apply json_key_byte;
    try (by apply json_quote_byte).
  apply toString_radix_byte; lia.
Qed.

Lemma json_elements_byte us :
  Forall storable_user us ->
  Forall byte (json_elements (map JSON_stringify_user us)).
Proof.
  induction us as [|u [|u' us] IH]; intros Hwf.
  - constructor.
  - apply Forall_cons in Hwf as [Hu _]. by apply JSON_stringify_user_byte.
  - apply Forall_cons in Hwf as [Hu Hwf].
    cbn [map]. rewrite json_elements_cons.
    apply Forall_app; split; [by apply JSON_stringify_user_byte|].
    apply Forall_app; split; [apply byte_singleton; lia|by apply IH].
Qed.

Lemma JSON_stringify_users_byte us :
  Forall storable_user us -> Forall byte (JSON_stringify_users us).
Proof.
  intros Hwf. unfold JSON_stringify_users.
  apply Forall_app; split; [apply byte_singleton; lia|].
  apply Forall_app; split; [by apply json_elements_byte|].
  apply byte_singleton; lia.
Qed.

Lemma JSON_stringify_session_byte s :
  Forall storable (s_userId s) -> Forall storable (s_username s) ->
  Forall storable (s_sessionId s) ->
  Forall byte (JSON_stringify_session s).
Proof.
  intros Hid Hname Hsid. unfold JSON_stringify_session.
  repeat (apply Forall_app; split);
    try (apply byte_singleton; lia);
    try apply json_key_byte;
    try (by apply json_quote_byte).
  apply toString_radix_byte; lia.
Qed.

(** [JSON.parse] reads back the session [JSON.stringify] wrote. *)
Lemma JSON_parse_stringify_session s :
  Forall storable (s_userId s) -> Forall storable (s_username s) ->
  Forall storable (s_sessionId s) ->
  JSON_parse_session (JSON_stringify_session s) = Some s.
Proof.
  intros Hid Hname Hsid. unfold JSON_parse_session, JSON_stringify_session.
  rewrite (app_assoc [123] (json_key "userId")), expect_app.
  cbn [mbind option_bind]. rewrite parse_string_quote by done.
  cbn [mbind option_bind].
  rewrite (app_assoc [44] (json_key "username")), expect_app.
  cbn [mbind option_bind]. rewrite parse_string_quote by done.
  cbn [mbind option_bind].
  rewrite (app_assoc [44] (json_key "loginTime")), expect_app.
  cbn [mbind option_bind].
  rewrite parse_integer_toString by (cbn; unfold is_digit; lia).
  cbn [mbind option_bind].
  rewrite (app_assoc [44] (json_key "sessionId")), expect_app.
  cbn [mbind option_bind]. rewrite parse_string_quote by done.
  cbn [mbind option_bind]. by destruct s.
Qed.

End Json.

(** ** Validation and the shape of what is stored *)

Section Shapes.

Lemma push_if_nil b msg errs : push_if b msg errs = [] -> b = false /\ errs = [].
Proof.
  unfold push_if. destruct b; [|done].
  intros H. by apply app_eq_nil in H as [_ ?].
Qed.

Lemma valid_username_pattern input :
  isValid (validateAndSanitizeInput input Username) = true ->
  username_pattern (sanitize input) = true.
Proof.
  unfold validateAndSanitizeInput. cbn [isValid].
  intros Hlen. apply Nat.eqb_eq, length_zero_iff_nil in Hlen.
  apply push_if_nil in Hlen as [Hpat _].
  by apply negb_false_iff in Hpat.
Qed.

Lemma word_char_storable c : is_word_char c = true -> storable c.
Proof.
  unfold is_word_char, in_range, storable. intros H.
  repeat (apply orb_prop in H as [H|H]); unbool; lia.
Qed.

Lemma valid_username_storable input :
  isValid (validateAndSanitizeInput input Username) = true ->
  Forall storable (sanitize input).
Proof.
  intros Hv. apply valid_username_pattern in Hv.
  unfold username_pattern in Hv. apply andb_prop in Hv as [_ Hw].
  rewrite forallb_forall in Hw. apply Forall_forall.
  intros c Hc. by apply word_char_storable, Hw, list_elem_of_In.
Qed.

Lemma toString_radix_nonempty radix n : toString_radix radix n <> [].
Proof.
  unfold toString_radix. case_match; [done|apply digits_nonempty].
Qed.

Lemma hashPassword_storable password : Forall storable (hashPassword password).
Proof.
  destruct (decide (password = [])) as [->|Hne].
  - change (hashPassword []) with [48].
    apply Forall_cons. split; [unfold storable; lia|apply Forall_nil_2].
  - rewrite (hashPassword_nonempty _ Hne).
    apply btoa_bytes_storable, toString_radix_byte. lia.
Qed.

Lemma hashPassword_not_empty password : hashPassword password <> [].
Proof.
  destruct (decide (password = [])) as [->|Hne]; [done|].
  rewrite (hashPassword_nonempty _ Hne). intros H.
  by apply btoa_bytes_nil_inv, toString_radix_nonempty in H.
Qed.

Lemma user_id_storable text :
  Forall storable (lit "user_" ++ substring0 12 (hashPassword text)).
Proof.
  apply Forall_app; split.
  - change (lit "user_") with [117; 115; 101; 114; 95].
    repeat (apply Forall_cons; split; [unfold storable; lia|]).
    apply Forall_nil_2.
  - apply Forall_take, hashPassword_storable.
Qed.

Lemma new_user_storable name w :
  Forall storable name -> storable_user (new_user name w).
Proof. intros Hn. split; [done|apply user_id_storable]. Qed.

Lemma new_session_byte u w :
  storable_user u -> Forall byte (JSON_stringify_session (new_session u w)).
Proof.
  intros [Hname Hid].
  apply JSON_stringify_session_byte; [done|done|apply user_id_storable].
Qed.

End Shapes.

(** ** AuthService, step by step *)

Section AuthServiceRuns.

Lemma getStoredUsers_run w :
  getStoredUsers w = (Ok (users_of (storage w)), w).
Proof.
  unfold getStoredUsers, users_of, try_catch.
  rewrite (bind_ok _ _ _ _ _ (secureRetrieve_run USERS_STORAGE_KEY w)).
  destruct (retrieve (storage w) USERS_STORAGE_KEY) as [[|c t]|];
    try reflexivity.
  cbn -[JSON_parse_users].
  destruct (JSON_parse_users (c :: t)); reflexivity.
Qed.

Lemma Date_now_run w : Date_now w = (Ok (now_of w), tick w).
Proof. reflexivity. Qed.

Lemma users_key_not_pwd u : pwd_key u <> USERS_STORAGE_KEY.
Proof. unfold pwd_key. vm_compute. congruence. Qed.

Lemma session_key_not_users : SESSION_STORAGE_KEY <> USERS_STORAGE_KEY.
Proof. vm_compute. congruence. Qed.

Lemma session_key_not_pwd u : SESSION_STORAGE_KEY <> pwd_key u.
Proof. unfold pwd_key. vm_compute. congruence. Qed.

(** A registration that passes every check writes the digest, then the
    registry, and reports the new record. *)
Lemma registerUser_run creds w :
  isValid (validateAndSanitizeInput (cred_username creds) Username) = true ->
  isValid (validateAndSanitizeInput (cred_password creds) Password) = true ->
  isWeakPassword (cred_password creds) = false ->
  Forall storable_user (users_of (storage w)) ->
  existsb (has_name (sanitize (cred_username creds))) (users_of (storage w))
  = false ->
  registerUser creds w
  = (Ok {| success := true; error := None;
           user := Some (new_user (sanitize (cred_username creds)) w) |},
     registered_world (sanitize (cred_username creds))
       (sanitize (cred_password creds)) w).
Proof.
  intros Hu Hp Hweak Hwf Hfree.
  pose proof (valid_username_storable _ Hu) as Hname.
  unfold registerUser. apply try_catch_ok. cbv zeta.
  rewrite Hu, Hp, Hweak. cbn [negb].
  rewrite (bind_ok _ _ _ _ _ (getStoredUsers_run w)).
  change (sanitized (validateAndSanitizeInput (cred_username creds) Username))
    with (sanitize (cred_username creds)).
  change (sanitized (validateAndSanitizeInput (cred_password creds) Password))
    with (sanitize (cred_password creds)).
  change (fun user : IUser =>
            jsstring_eqb (username user) (sanitize (cred_username creds)))
    with (has_name (sanitize (cred_username creds))).
  rewrite Hfree.
  rewrite (bind_ok _ _ _ _ _ (generateSecureUserId_run _ w)).
  rewrite (bind_ok _ _ _ _ _ (Date_now_run (tick w))).
  fold (new_user (sanitize (cred_username creds)) w).
  set (u := new_user (sanitize (cred_username creds)) w).
  fold (pwd_key u).
  rewrite (bind_ok _ _ _ _ _
             (secureStore_run (pwd_key u) _ (tick (tick w))
                (storable_byte _ (hashPassword_storable _)))).
  assert (Hall : Forall storable_user (users_of (storage w) ++ [u])).
  { apply Forall_app; split; [done|].
    apply Forall_cons; split; [by apply new_user_storable|apply Forall_nil_2]. }
  rewrite (bind_ok _ _ _ _ _
             (secureStore_run USERS_STORAGE_KEY _ _
                (JSON_stringify_users_byte _ Hall))).
  reflexivity.
Qed.

(** The registry after a registration is the old one with the new
    record at its end, and the digest can be read back. *)
Lemma registered_world_users name password w :
  Forall storable_user (users_of (storage w)) ->
  Forall storable name ->
  users_of (storage (registered_world name password w))
  = users_of (storage w) ++ [new_user name w].
Proof.
  intros Hwf Hname. unfold registered_world, users_of at 1.
  cbn [storage with_storage].
  assert (Hall : Forall storable_user (users_of (storage w) ++ [new_user name w])).
  { apply Forall_app; split; [done|].
    apply Forall_cons; split; [by apply new_user_storable|apply Forall_nil_2]. }
  rewrite (retrieve_stored _ _ _ _ (JSON_stringify_users_byte _ Hall)).
  pose proof (JSON_parse_stringify_users _ Hall) as Hparse.
  destruct (JSON_stringify_users (users_of (storage w) ++ [new_user name w]))
    as [|c t] eqn:Htext; [done|].
  by rewrite Hparse.
Qed.

Lemma registered_world_digest name password w :
  retrieve (storage (registered_world name password w))
    (pwd_key (new_user name w))
  = Some (hashPassword password).
Proof.
  unfold registered_world. cbn [storage with_storage].
  rewrite retrieve_stored_other by (apply not_eq_sym, users_key_not_pwd).
  rewrite (retrieve_stored _ _ _ _ (storable_byte _ (hashPassword_storable _))).
  pose proof (hashPassword_not_empty password).
  by destruct (hashPassword password).
Qed.

Lemma createSession_run u w :
  storable_user u -> createSession u w = (Ok tt, session_world u w).
Proof.
  intros Hu. unfold createSession.
  rewrite (bind_ok _ _ _ _ _ (Date_now_run w)).
  rewrite (bind_ok _ _ _ _ _ (Date_now_run (tick w))).
  rewrite (bind_ok _ _ _ _ _ (generateSecureUserId_run _ (tick (tick w)))).
  fold (new_session u w).
  by rewrite (secureStore_run _ _ _ (new_session_byte u w Hu)).
Qed.

Lemma checkRateLimit_allowed u w :
  value (checkRateLimit u) w = Ok allow ->
  checkRateLimit u w = (Ok allow, exec (checkRateLimit u) w).
Proof.
  unfold value, exec. destruct (checkRateLimit u w) as [r w'].
  cbn [fst snd]. by intros ->.
Qed.

(** [authenticateUser] once both formats are valid and the rate limiter
    has allowed the attempt: what remains is the lookup, the comparison
    of digests and the session. *)
Lemma authenticateUser_checked creds w :
  isValid (validateAndSanitizeInput (cred_username creds) Username) = true ->
  isValid (validateAndSanitizeInput (cred_password creds) Password) = true ->
  value (checkRateLimit (sanitize (cred_username creds))) w = Ok allow ->
  let w1 := exec (checkRateLimit (sanitize (cred_username creds))) w in
  authenticateUser creds w
  = match find (has_name (sanitize (cred_username creds)))
            (users_of (storage w)) with
    | None => (Ok (failure invalid_credentials), w1)
    | Some u =>
        if bool_decide (retrieve (storage w) (pwd_key u)
                        = Some (hashPassword (sanitize (cred_password creds))))
        then
          try_catch
            (createSession u;;
             mret {| success := true; error := None; user := Some u |})
            (mret (failure (lit "Authentication failed. Please try again.")))
            w1
        else (Ok (failure invalid_credentials), w1)
    end.
Proof.
  intros Hu Hp Hrate w1.
  pose proof (checkRateLimit_clock (sanitize (cred_username creds)) w)
    as (_ & _ & Hst). fold w1 in Hst.
  unfold authenticateUser, try_catch. cbv zeta.
  rewrite Hu, Hp. cbn [negb orb].
  change (sanitized (validateAndSanitizeInput (cred_username creds) Username))
    with (sanitize (cred_username creds)).
  change (sanitized (validateAndSanitizeInput (cred_password creds) Password))
    with (sanitize (cred_password creds)).
  rewrite (bind_ok _ _ _ _ _ (checkRateLimit_allowed _ _ Hrate)).
  fold w1. cbn [allowed allow negb].
  rewrite (bind_ok _ _ _ _ _ (getStoredUsers_run w1)).
  change (fun u : IUser =>
            jsstring_eqb (username u) (sanitize (cred_username creds)))
    with (has_name (sanitize (cred_username creds))).
  rewrite Hst.
  destruct (find (has_name (sanitize (cred_username creds)))
              (users_of (storage w))) as [u|]; [|reflexivity].
  fold (pwd_key u).
  rewrite (bind_ok _ _ _ _ _ (secureRetrieve_run (pwd_key u) w1)).
  rewrite Hst.
  destruct (bool_decide (retrieve (storage w) (pwd_key u)
                         = Some (hashPassword (sanitize (cred_password creds)))));
    reflexivity.
Qed.

(** After [createSession] the medium holds the session it built. *)
Lemma session_world_session u w :
  storable_user u ->
  session_of (storage (session_world u w)) = Some (new_session u w).
Proof.
  intros Hu. unfold session_of, session_world.
  cbn [storage with_storage].
  rewrite (retrieve_stored _ _ _ _ (new_session_byte u w Hu)).
  destruct Hu as [Hname Hid].
  pose proof (JSON_parse_stringify_session (new_session u w) Hid Hname
                (user_id_storable _)) as Hparse.
  destruct (JSON_stringify_session (new_session u w)) as [|c t] eqn:Htext;
    [done|].
  by rewrite Hparse.
Qed.

End AuthServiceRuns.

Section SessionRuns.

Lemma getCurrentSession_run w s :
  session_of (storage w) = Some s ->
  getCurrentSession w
  = if now_of w - s_loginTime s >? 24 * 60 * 60 * 1000 then
      (Ok None, exec logout (tick w))
    else
      (Ok (Some {| username := s_username s; userId := s_userId s;
                   createdAt := s_loginTime s |}),
       tick w).
Proof.
  unfold session_of. intros Hs.
  unfold getCurrentSession, try_catch.
  rewrite (bind_ok _ _ _ _ _ (secureRetrieve_run SESSION_STORAGE_KEY w)).
  destruct (retrieve (storage w) SESSION_STORAGE_KEY) as [[|c t]|];
    try discriminate.
  cbn -[JSON_parse_session logout Z.gtb Z.mul]. rewrite Hs.
  cbn [raising].
  rewrite (bind_ok _ _ w s w) by reflexivity.
  rewrite (bind_ok _ _ _ _ _ (Date_now_run w)).
  destruct (now_of w - s_loginTime s >? 24 * 60 * 60 * 1000);
    [|reflexivity].
  rewrite (bind_ok _ _ (tick w) tt (exec logout (tick w))); [reflexivity|].
  unfold exec. by rewrite logout_run.
Qed.

End SessionRuns.

(** ** The registry invariant *)

Section Invariant.

Lemma users_of_stored_other st key v now :
  key <> USERS_STORAGE_KEY ->
  users_of (stored st key v now) = users_of st.
Proof. intros Hne. unfold users_of. by rewrite retrieve_stored_other. Qed.

(** [secureStore] either writes both slots or raises before writing. *)
Lemma secureStore_cases key v w :
  secureStore key v w
  = (Ok tt, with_storage (stored (storage w) key v (now_of w)) (tick w))
  \/ secureStore key v w = (Throw, tick w).
Proof.
  unfold secureStore, try_catch.
  rewrite (bind_ok _ _ _ _ _ (getEncryptionKey_run w)).
  unfold encrypt, btoa.
  rewrite (proj2 (is_latin1_Forall _) (encryption_key_byte _)).
  destruct (is_latin1 (xor_with_key v (encryption_key (now_of w))));
    [left|right]; reflexivity.
Qed.

Lemma secureStore_users key v w :
  key <> USERS_STORAGE_KEY ->
  users_of (storage (exec (secureStore key v) w)) = users_of (storage w).
Proof.
  intros Hne. unfold exec.
  destruct (secureStore_cases key v w) as [-> | ->]; [|done].
  cbn [snd with_storage storage]. by apply users_of_stored_other.
Qed.

Lemma registerUser_storable creds w :
  Forall storable_user (users_of (storage w)) ->
  Forall storable_user (users_of (storage (exec (registerUser creds) w))).
Proof.
  intros Hwf.
  destruct (isValid (validateAndSanitizeInput (cred_username creds) Username))
    eqn:Hu;
    [|unfold exec, registerUser, try_catch; cbv zeta; by rewrite Hu].
  destruct (isValid (validateAndSanitizeInput (cred_password creds) Password))
    eqn:Hp;
    [|unfold exec, registerUser, try_catch; cbv zeta; by rewrite Hu, Hp].
  destruct (isWeakPassword (cred_password creds)) eqn:Hweak;
    [unfold exec, registerUser, try_catch; cbv zeta;
     by rewrite Hu, Hp, Hweak|].
  destruct (existsb (has_name (sanitize (cred_username creds)))
              (users_of (storage w))) eqn:Hfree.
  - unfold exec, registerUser, try_catch. cbv zeta.
    rewrite Hu, Hp, Hweak. cbn [negb].
    rewrite (bind_ok _ _ _ _ _ (getStoredUsers_run w)).
    change (sanitized (validateAndSanitizeInput (cred_username creds) Username))
      with (sanitize (cred_username creds)).
    change (fun user : IUser =>
              jsstring_eqb (username user) (sanitize (cred_username creds)))
      with (has_name (sanitize (cred_username creds))).
    by rewrite Hfree.
  - unfold exec. rewrite (registerUser_run creds w Hu Hp Hweak Hwf Hfree).
    cbn [snd].
    pose proof (valid_username_storable _ Hu) as Hname.
    rewrite (registered_world_users _ _ _ Hwf Hname).
    apply Forall_app; split; [done|].
    apply Forall_cons; split; [by apply new_user_storable|apply Forall_nil_2].
Qed.

Lemma find_storable (f : IUser -> bool) us u :
  Forall storable_user us -> find f us = Some u -> storable_user u.
Proof.
  intros Hwf Hfind. apply find_some in Hfind as [Hin _].
  rewrite Forall_forall in Hwf. by apply Hwf, list_elem_of_In.
Qed.

Lemma authenticateUser_users creds w :
  Forall storable_user (users_of (storage w)) ->
  users_of (storage (exec (authenticateUser creds) w)) = users_of (storage w).
Proof.
  intros Hwf.
  destruct (isValid (validateAndSanitizeInput (cred_username creds) Username))
    eqn:Hu;
    [|unfold exec, authenticateUser, try_catch; cbv zeta; by rewrite Hu].
  destruct (isValid (validateAndSanitizeInput (cred_password creds) Password))
    eqn:Hp;
    [|unfold exec, authenticateUser, try_catch; cbv zeta; by rewrite Hu, Hp].
  pose proof (checkRateLimit_clock (sanitize (cred_username creds)) w)
    as (_ & _ & Hst).
  destruct (checkRateLimit_outcomes (sanitize (cred_username creds)) w)
    as [Hrate | [(a & _ & _ & _ & Hrun) | (_ & _ & Hrun)] ].
  - unfold exec at 1.
    rewrite (authenticateUser_checked creds w Hu Hp Hrate).
    destruct (find (has_name (sanitize (cred_username creds)))
                (users_of (storage w))) as [u|] eqn:Hfind;
      [|cbn [snd]; by rewrite Hst].
    case_bool_decide; [|cbn [snd]; by rewrite Hst].
    unfold try_catch.
    rewrite (bind_ok _ _ _ _ _
               (createSession_run u _ (find_storable _ _ _ Hwf Hfind))).
    unfold mret, M_ret. cbn [snd session_world with_storage storage].
    rewrite users_of_stored_other by apply session_key_not_users.
    by rewrite Hst.
  - unfold exec at 1, authenticateUser, try_catch. cbv zeta.
    rewrite Hu, Hp. cbn [negb orb].
    change (sanitized (validateAndSanitizeInput (cred_username creds) Username))
      with (sanitize (cred_username creds)).
    rewrite (bind_ok _ _ _ _ _ Hrun). reflexivity.
  - unfold exec at 1, authenticateUser, try_catch. cbv zeta.
    rewrite Hu, Hp. cbn [negb orb].
    change (sanitized (validateAndSanitizeInput (cred_username creds) Username))
      with (sanitize (cred_username creds)).
    rewrite (bind_throw _ _ _ _ Hrun). reflexivity.
Qed.

Lemma logout_users w :
  users_of (storage (exec logout w)) = users_of (storage w).
Proof.
  unfold exec. rewrite logout_run.
  cbn [snd with_attempts with_storage storage].
  by apply users_of_stored_other, session_key_not_users.
Qed.

Lemma getCurrentSession_absent w :
  session_of (storage w) = None -> getCurrentSession w = (Ok None, w).
Proof.
  unfold session_of. intros Hs.
  unfold getCurrentSession, try_catch.
  rewrite (bind_ok _ _ _ _ _ (secureRetrieve_run SESSION_STORAGE_KEY w)).
  destruct (retrieve (storage w) SESSION_STORAGE_KEY) as [[|c t]|];
    try reflexivity.
  cbn -[JSON_parse_session logout Z.gtb Z.mul]. by rewrite Hs.
Qed.

Lemma getCurrentSession_users w :
  users_of (storage (exec getCurrentSession w)) = users_of (storage w).
Proof.
  unfold exec.
  destruct (session_of (storage w)) as [s|] eqn:Hs.
  - rewrite (getCurrentSession_run w s Hs).
    destruct (now_of w - s_loginTime s >? 24 * 60 * 60 * 1000); [|done].
    cbn [snd]. by rewrite logout_users.
  - by rewrite (getCurrentSession_absent w Hs).
Qed.

(** Every record of the registry is one [registerUser] wrote. *)
Lemma reachable_storable w :
  reachable w -> Forall storable_user (users_of (storage w)).
Proof.
  induction 1
    as [clk|c w _ IH|c w _ IH|w _ IH|w _ IH|w _ IH|w _ IH|uid v w _ IH].
  - apply Forall_nil_2.
  - by apply registerUser_storable.
  - by rewrite authenticateUser_users.
  - by rewrite getCurrentSession_users.
  - by rewrite logout_users.
  - done.
  - done.
  - rewrite secureStore_users; [done|]. vm_compute. congruence.
Qed.

End Invariant.

(** ** Claims about AuthService *)

Section AuthServiceClaims.

Lemma find_app_last {A} (f : A -> bool) l x :
  existsb f l = false -> f x = true -> find f (l ++ [x]) = Some x.
Proof.
  intros Hl Hx. induction l as [|y l IH]; simpl in *.
  - by rewrite Hx.
  - apply orb_false_elim in Hl as [-> Hl]. by apply IH.
Qed.

Lemma has_name_refl name u : username u = name -> has_name name u = true.
Proof. intros <-. unfold has_name, jsstring_eqb. by apply bool_decide_eq_true. Qed.



(** C6: when the stored session record is more than 24 hours old,
    [getCurrentSession] returns null after a logout that overwrites the
    session slot with the empty value (and empties the attempt table);
    when it is not older than 24 hours, the session is returned in the
    shape of a user and the medium is left as it was. *)
Theorem C6_session_expiry (w : World) (s : Session) :
  session_of (storage w) = Some s ->
  (now_of w - s_loginTime s > 86400000 ->
   value getCurrentSession w = Ok None
   /\ storage (exec getCurrentSession w) !! secure_slot SESSION_STORAGE_KEY
      = Some []
   /\ session_of (storage (exec getCurrentSession w)) = None
   /\ authAttempts (exec getCurrentSession w) = ∅)
  /\ (now_of w - s_loginTime s <= 86400000 ->
      value getCurrentSession w
      = Ok (Some {| username := s_username s; userId := s_userId s;
                    createdAt := s_loginTime s |})
      /\ storage (exec getCurrentSession w) = storage w).
Proof.
  intros Hs. unfold value, exec.
  rewrite (getCurrentSession_run w s Hs).
  change (24 * 60 * 60 * 1000) with 86400000.
  split; intros Hage.
  - replace (now_of w - s_loginTime s >? 86400000) with true
      by (symmetry; rewrite Z.gtb_ltb; apply Z.ltb_lt; lia).
    unfold exec. rewrite logout_run. cbn [fst snd].
    split; [done|]. split; [apply stored_empty_slot|]. split; [|done].
    unfold session_of. cbn [with_attempts with_storage storage].
    by rewrite (retrieve_stored _ _ [] _ (Forall_nil_2 _)).
  - replace (now_of w - s_loginTime s >? 86400000) with false
      by (symmetry; rewrite Z.gtb_ltb; apply Z.ltb_ge; lia).
    done.
Qed.




Lemma C6_session_expiry_witness :
  value getCurrentSession demo_logged_in = Ok None
  /\ storage (exec getCurrentSession demo_logged_in)
       !! secure_slot SESSION_STORAGE_KEY = Some []
  /\ session_of (storage (exec getCurrentSession demo_logged_in)) = None
  /\ authAttempts (exec getCurrentSession demo_logged_in) = ∅.
Proof.
  apply (C6_session_expiry demo_logged_in
           {| s_userId := lit "user_MzllMWFv";
              s_username := lit "demo_user";
              s_loginTime := 1700000000005;
              s_sessionId := lit "user_LTdieGZrYg==" |}).
  - vm_compute. reflexivity.
  - vm_compute. reflexivity.
Defined.

End AuthServiceClaims.

(** * Further properties of the code *)

(** ** Sanitization and validation *)

Section Validation.

Lemma trim_start_suffix s : exists pre, s = pre ++ trim_start s.
Proof.
  induction s as [|c s [pre IH]]; [by exists []|].
  cbn [trim_start]. destruct (is_js_whitespace c).
  - exists (c :: pre). cbn [app]. by rewrite <- IH.
  - by exists [].
Qed.

Lemma trim_middle s : exists pre post, s = pre ++ trim s ++ post.
Proof.
  unfold trim.
  destruct (trim_start_suffix s) as [pre Hpre].
  destruct (trim_start_suffix (rev (trim_start s))) as [post Hpost].
  exists pre, (rev post).
  rewrite <- rev_app_distr, <- Hpost, rev_involutive. exact Hpre.
Qed.

Lemma trim_sublist s : trim s `sublist_of` s.
Proof.
  destruct (trim_middle s) as (pre & post & Hs).
  rewrite Hs at 2. by apply sublist_inserts_l, sublist_inserts_r.
Qed.

Lemma strip_scripts_sublist skip s : strip_scripts skip s `sublist_of` s.
Proof.
  revert skip. induction s as [|c s IH]; intros skip; [constructor|].
  cbn [strip_scripts]. destruct skip as [|k].
  - destruct (script_match (c :: s)) as [[|k]|].
    + by apply sublist_skip.
    + by apply sublist_cons.
    + by apply sublist_skip.
  - by apply sublist_cons.
Qed.

Lemma sanitize_sublist input : sanitize input `sublist_of` input.
Proof.
  unfold sanitize.
  etrans; [apply sublist_filter|].
  etrans; [apply strip_scripts_sublist|apply trim_sublist].
Qed.

Lemma sanitize_no_dangerous input :
  Forall (fun c => is_dangerous c = false) (sanitize input).
Proof.
  unfold sanitize. apply Forall_forall. intros c Hc.
  by apply list_elem_of_filter in Hc as [Hc _].
Qed.

(** X1: whatever the input and the field, the sanitized text is the input
    with code units deleted (never added, changed or reordered), so it is
    no longer than the input, and none of the characters
    [< > quote apostrophe % ; ( ) & +] survives in it. *)
Theorem X1_sanitized_is_input_minus_deletions
  (input : jsstring) (type : InputType) :
  let v := validateAndSanitizeInput input type in
  sanitized v `sublist_of` input
  /\ (length (sanitized v) <= length input)%nat
  /\ Forall (fun c => c <> 60 /\ c <> 62 /\ c <> 34 /\ c <> 39 /\ c <> 37
                      /\ c <> 59 /\ c <> 40 /\ c <> 41 /\ c <> 38 /\ c <> 43)
       (sanitized v).
Proof.
  cbn zeta.
  change (sanitized (validateAndSanitizeInput input type))
    with (sanitize input).
  split; [apply sanitize_sublist|].
  split; [apply sublist_length, sanitize_sublist|].
  eapply Forall_impl; [apply sanitize_no_dangerous|].
  intros c Hc. unfold is_dangerous in Hc.
  repeat (apply orb_false_elim in Hc as [Hc ?]). unbool. repeat split; lia.
Qed.

Lemma push_if_nil_iff b msg errs :
  push_if b msg errs = [] <-> b = false /\ errs = [].
Proof.
  split; [apply push_if_nil|]. by intros [-> ->].
Qed.

Lemma isValid_errors v :
  isValid v = (length (errors v) =? 0)%nat -> 
  isValid v = true <-> errors v = [].
Proof.
  intros ->. rewrite Nat.eqb_eq. apply length_zero_iff_nil.
Qed.

(** X2: a username is valid exactly when its sanitized form has between 3
    and 20 code units, all of them ASCII letters, digits or underscores. *)
Theorem X2_username_valid_iff (input : jsstring) :
  let v := validateAndSanitizeInput input Username in
  isValid v = true
  <-> (3 <= length (sanitized v) <= 20)%nat
      /\ Forall (fun c => 97 <= c <= 122 \/ 65 <= c <= 90
                          \/ 48 <= c <= 57 \/ c = 95)
           (sanitized v).
Proof.
  cbn zeta.
  change (sanitized (validateAndSanitizeInput input Username))
    with (sanitize input).
  rewrite isValid_errors by reflexivity.
  unfold validateAndSanitizeInput. cbn [errors].
  rewrite !push_if_nil_iff.
  set (s := sanitize input).
  assert (Hword : forallb is_word_char s = true
                  <-> Forall (fun c => 97 <= c <= 122 \/ 65 <= c <= 90
                                       \/ 48 <= c <= 57 \/ c = 95) s).
  { rewrite forallb_forall, Forall_forall.
    split; intros H c Hc.
    - apply list_elem_of_In, H in Hc. unfold is_word_char in Hc.
      repeat (apply orb_prop in Hc as [Hc|Hc]);
        try apply in_range_spec in Hc; unbool; lia.
    - apply list_elem_of_In, H in Hc. unfold is_word_char.
      destruct Hc as [Hc|[Hc|[Hc|Hc]]].
      + by rewrite (proj2 (in_range_spec 97 122 c) Hc).
      + rewrite (proj2 (in_range_spec 65 90 c) Hc). by rewrite orb_true_r.
      + rewrite (proj2 (in_range_spec 48 57 c) Hc). by rewrite !orb_true_r.
      + subst c. by rewrite !orb_true_r. }
  unfold username_pattern. rewrite <- Hword.
  split.
  - intros (Hpat & Hlong & Hshort & _).
    apply negb_false_iff, andb_prop in Hpat as [_ Hpat].
    rewrite Z.gtb_ltb in Hlong. unbool. split; [lia|done].
  - intros [Hlen Hw]. rewrite Hw, andb_true_r.
    repeat split.
    + apply negb_false_iff, negb_true_iff, Nat.eqb_neq. lia.
    + rewrite Z.gtb_ltb. apply Z.ltb_ge. lia.
    + apply Z.ltb_ge. lia.
Qed.

Lemma lookahead_dotstar_exists cls s :
  lookahead_dotstar cls s = true -> existsb cls s = true.
Proof.
  induction s as [|c s IH]; [done|]. cbn [lookahead_dotstar existsb].
  intros H. apply orb_prop in H as [->|H]; [done|].
  apply andb_prop in H as [_ H]. rewrite (IH H). apply orb_true_r.
Qed.

Lemma existsb_suffix {A} (f : A -> bool) x l :
  existsb f l = true -> existsb f (x :: l) = true.
Proof. intros H. cbn [existsb]. rewrite H. apply orb_true_r. Qed.

Lemma lookahead_dotstar_no_terminator cls s :
  existsb is_line_terminator s = false ->
  lookahead_dotstar cls s = existsb cls s.
Proof.
  induction s as [|c s IH]; [done|]. cbn [lookahead_dotstar existsb].
  intros H. apply orb_false_elim in H as [-> H]. by rewrite (IH H).
Qed.

Lemma test_anywhere_here p s : p s = true -> test_anywhere p s = true.
Proof. intros H. destruct s; cbn [test_anywhere]; by rewrite H. Qed.

Lemma password_pattern_classes s :
  password_pattern s = true ->
  existsb (in_range 97 122) s = true
  /\ existsb (in_range 65 90) s = true
  /\ existsb (in_range 48 57) s = true.
Proof.
  unfold password_pattern. induction s as [|c s IH].
  - cbn. discriminate.
  - cbn [test_anywhere]. intros H. apply orb_prop in H as [H|H].
    + apply andb_prop in H as [H Hd]. apply andb_prop in H as [Hl Hu].
      by repeat split; apply lookahead_dotstar_exists.
    + destruct (IH H) as (Hl & Hu & Hd).
      by repeat split; apply existsb_suffix.
Qed.

(** X3: a password is valid exactly when its sanitized form has at least
    8 code units and matches the three-lookahead pattern. A match implies
    a lower-case letter, an upper-case letter and a digit; on a text
    without line terminators the three are also enough. (With a line
    break between them the pattern can fail, because [.] stops at a line
    terminator.) *)
Theorem X3_password_valid_iff (input : jsstring) :
  let v := validateAndSanitizeInput input Password in
  (isValid v = true
   <-> (8 <= length (sanitized v))%nat /\ password_pattern (sanitized v) = true)
  /\ (isValid v = true ->
      existsb (in_range 97 122) (sanitized v) = true
      /\ existsb (in_range 65 90) (sanitized v) = true
      /\ existsb (in_range 48 57) (sanitized v) = true)
  /\ ((8 <= length (sanitized v))%nat ->
      existsb is_line_terminator (sanitized v) = false ->
      existsb (in_range 97 122) (sanitized v) = true ->
      existsb (in_range 65 90) (sanitized v) = true ->
      existsb (in_range 48 57) (sanitized v) = true ->
      isValid v = true).
Proof.
  cbn zeta.
  change (sanitized (validateAndSanitizeInput input Password))
    with (sanitize input).
  assert (Hiff : isValid (validateAndSanitizeInput input Password) = true
                 <-> (8 <= length (sanitize input))%nat
                     /\ password_pattern (sanitize input) = true).
  { rewrite isValid_errors by reflexivity.
    unfold validateAndSanitizeInput. cbn [errors].
    rewrite !push_if_nil_iff. split.
    - intros (Hpat & Hlen & _). apply negb_false_iff in Hpat. unbool.
      split; [lia|done].
    - intros [Hlen Hpat]. rewrite Hpat. repeat split. apply Z.ltb_ge. lia. }
  split; [exact Hiff|]. split.
  - intros Hv. apply Hiff in Hv as [_ Hpat].
    by apply password_pattern_classes.
  - intros Hlen Hlt Hl Hu Hd. apply Hiff. split; [done|].
    unfold password_pattern. apply test_anywhere_here.
    rewrite !lookahead_dotstar_no_terminator by done.
    by rewrite Hl, Hu, Hd.
Qed.

End Validation.

(** ** More on the rate limiter *)

Section RateLimiterMore.

Lemma after_checks_locked n u w a :
  authAttempts w !! u = Some a -> 5 <= count a ->
  (forall i, (i < n)%nat ->
             clock w (i + ticks w)%nat - lastAttempt a <= window) ->
  authAttempts (after_checks n u w) = authAttempts w.
Proof.
  intros Hu Hcount. induction n as [|n IH]; intros Hwin; [done|].
  specialize (IH ltac:(intros i Hi; apply Hwin; lia)).
  change (after_checks (S n) u w)
    with (exec (checkRateLimit u) (after_checks n u w)).
  unfold exec. rewrite (checkRateLimit_locked u _ a).
  - done.
  - by rewrite IH.
  - rewrite now_of_after_checks. apply Hwin. lia.
  - done.
Qed.

(** X4: while an identity is locked out, further calls inside the window
    are denied and change nothing, in particular not [lastAttempt]: denied
    attempts do not extend the lockout, and each reports the time left
    since the last counted attempt. *)
Theorem X4_denied_calls_do_not_extend_lockout
  (u : jsstring) (w : World) (a : Attempt) (n : nat) :
  authAttempts w !! u = Some a -> 5 <= count a ->
  (forall i, (i < n)%nat ->
             clock w (i + ticks w)%nat - lastAttempt a <= 15 * 60 * 1000) ->
  authAttempts (after_checks n u w) = authAttempts w
  /\ forall i, (i < n)%nat ->
       value (checkRateLimit u) (after_checks i u w)
       = Ok {| allowed := false;
               remainingTime :=
                 Some (ceil_div
                         (15 * 60 * 1000
                          - (clock w (i + ticks w)%nat - lastAttempt a))
                         1000) |}.
Proof.
  intros Hu Hcount Hwin. split; [by apply (after_checks_locked n u w a)|].
  intros i Hi. unfold value.
  rewrite (checkRateLimit_locked u _ a).
  - cbn [fst]. by rewrite now_of_after_checks.
  - rewrite (after_checks_locked i u w a); [done|done|done|].
    intros j Hj. apply Hwin. lia.
  - rewrite now_of_after_checks. by apply Hwin.
  - done.
Qed.

Lemma X4_denied_calls_do_not_extend_lockout_witness :
  let alice := lit "alice" in
  let w := after_checks 5 alice
             (initial_world
                (clock_of_list [0; 0; 0; 0; 0; 1000; 2000; 3000])) in
  authAttempts (after_checks 3 alice w) = authAttempts w.
Proof.
  intros alice w.
  apply (X4_denied_calls_do_not_extend_lockout alice w
           {| count := 5; lastAttempt := 0 |} 3).
  - vm_compute. reflexivity.
  - cbn [count]. lia.
  - intros i Hi.
    assert (Hcases : (i = 0 \/ i = 1 \/ i = 2)%nat) by lia.
    destruct Hcases as [-> | [-> | ->]]; vm_compute; congruence.
Defined.

(** X6: a denial made at or after the recorded attempt reports between 0
    and 900 seconds, so the message of [authenticateUser] asks to wait
    between 0 and 15 minutes. *)
Theorem X6_remaining_time_bounds (u : jsstring) (w : World) (r : RateLimit) :
  value (checkRateLimit u) w = Ok r ->
  allowed r = false ->
  (forall a, authAttempts w !! u = Some a -> lastAttempt a <= now_of w) ->
  exists seconds,
    remainingTime r = Some seconds
    /\ 0 <= seconds <= 900
    /\ 0 <= ceil_div seconds 60 <= 15.
Proof.
  unfold value. intros Hrun Hdenied Hpast.
  destruct (checkRateLimit_cases u w)
    as [(e & Hr & _)
       | [(a & Ha & Hin & _ & Hr) | [(_ & _ & Hr) | (_ & _ & Hr)] ] ];
    rewrite Hr in Hrun; cbn [fst] in Hrun; try discriminate;
    injection Hrun as <-; try discriminate.
  specialize (Hpast a Ha).
  eexists. split; [reflexivity|].
  unfold ceil_div, window in *. split; zdiv.
Qed.

Lemma X6_remaining_time_bounds_witness :
  exists seconds,
    remainingTime {| allowed := false; remainingTime := Some 899 |}
    = Some seconds
    /\ 0 <= seconds <= 900 /\ 0 <= ceil_div seconds 60 <= 15.
Proof.
  apply (X6_remaining_time_bounds (lit "alice")
           (after_checks 5 (lit "alice")
              (initial_world (clock_of_list [0; 0; 0; 0; 0; 1000])))).
  - vm_compute. reflexivity.
  - reflexivity.
  - intros a Ha. vm_compute in Ha. injection Ha as <-. vm_compute. congruence.
Defined.

Lemma checkRateLimit_bounded u w :
  attempts_bounded w -> attempts_bounded (exec (checkRateLimit u) w).
Proof.
  intros Hw u' a'. unfold exec.
  destruct (checkRateLimit_cases u w)
    as [(e & -> & _ & _ & He)
       | [(a & _ & _ & _ & ->) | [(_ & _ & ->) | (_ & _ & ->)] ] ];
    cbn; [|apply Hw..].
  destruct (decide (u = u')) as [<-|Hne].
  - rewrite lookup_insert_eq. intros [= <-].
    destruct (authAttempts w !! u) as [a|] eqn:Ha.
    + specialize (Hw u a Ha).
      destruct He as [[_ ->]|(_ & Hlt & ->)]; cbn [count fresh]; lia.
    + subst e. cbn [count fresh]. lia.
  - rewrite lookup_insert_ne by done. apply Hw.
Qed.

Lemma attempts_bounded_empty w :
  authAttempts w = ∅ -> attempts_bounded w.
Proof. intros He u a. by rewrite He, lookup_empty. Qed.

End RateLimiterMore.

(** ** More on AuthService *)

Section AuthServiceMore.

Lemma registerUser_rejected creds w :
  isValid (validateAndSanitizeInput (cred_username creds) Username) = false
  \/ isValid (validateAndSanitizeInput (cred_password creds) Password) = false
  \/ isWeakPassword (cred_password creds) = true ->
  exists msg, registerUser creds w = (Ok (failure msg), w).
Proof.
  intros H. unfold registerUser, try_catch. cbv zeta.
  destruct (isValid (validateAndSanitizeInput (cred_username creds) Username));
    [|by eexists].
  destruct (isValid (validateAndSanitizeInput (cred_password creds) Password));
    [|by eexists].
  destruct (isWeakPassword (cred_password creds)); [by eexists|].
  destruct H as [H|[H|H]]; discriminate.
Qed.

Lemma registerUser_taken creds w :
  isValid (validateAndSanitizeInput (cred_username creds) Username) = true ->
  isValid (validateAndSanitizeInput (cred_password creds) Password) = true ->
  isWeakPassword (cred_password creds) = false ->
  existsb (has_name (sanitize (cred_username creds))) (users_of (storage w))
  = true ->
  registerUser creds w = (Ok (failure (lit "Username already exists")), w).
Proof.
  intros Hu Hp Hweak Htaken.
  unfold registerUser, try_catch. cbv zeta.
  rewrite Hu, Hp, Hweak. cbn [negb].
  rewrite (bind_ok _ _ _ _ _ (getStoredUsers_run w)).
  change (sanitized (validateAndSanitizeInput (cred_username creds) Username))
    with (sanitize (cred_username creds)).
  change (fun user : IUser =>
            jsstring_eqb (username user) (sanitize (cred_username creds)))
    with (has_name (sanitize (cred_username creds))).
  by rewrite Htaken.
Qed.

(** The outcomes of [registerUser] on a registry of well-shaped records:
    a failure that leaves the world as it was, or the new record. *)
Lemma registerUser_cases creds w :
  Forall storable_user (users_of (storage w)) ->
  (exists msg, registerUser creds w = (Ok (failure msg), w))
  \/ (isValid (validateAndSanitizeInput (cred_username creds) Username) = true
      /\ existsb (has_name (sanitize (cred_username creds)))
           (users_of (storage w)) = false
      /\ registerUser creds w
         = (Ok {| success := true; error := None;
                  user := Some (new_user (sanitize (cred_username creds)) w) |},
            registered_world (sanitize (cred_username creds))
              (sanitize (cred_password creds)) w)).
Proof.
  intros Hwf.
  destruct (isValid (validateAndSanitizeInput (cred_username creds) Username))
    eqn:Hu; [|left; apply registerUser_rejected; by left].
  destruct (isValid (validateAndSanitizeInput (cred_password creds) Password))
    eqn:Hp; [|left; apply registerUser_rejected; right; by left].
  destruct (isWeakPassword (cred_password creds)) eqn:Hweak;
    [left; apply registerUser_rejected; right; by right|].
  destruct (existsb (has_name (sanitize (cred_username creds)))
              (users_of (storage w))) eqn:Hfree.
  - left. eexists. by apply registerUser_taken.
  - right. split; [done|]. split; [done|]. by apply registerUser_run.
Qed.

Lemma authenticateUser_bad_format creds w :
  isValid (validateAndSanitizeInput (cred_username creds) Username) = false
  \/ isValid (validateAndSanitizeInput (cred_password creds) Password) = false ->
  authenticateUser creds w
  = (Ok (failure (lit "Invalid username or password format")), w).
Proof.
  intros H. unfold authenticateUser, try_catch. cbv zeta.
  destruct H as [-> | ->]; [done|].
  by rewrite orb_true_r.
Qed.

Lemma authenticateUser_denied creds w r :
  isValid (validateAndSanitizeInput (cred_username creds) Username) = true ->
  isValid (validateAndSanitizeInput (cred_password creds) Password) = true ->
  value (checkRateLimit (sanitize (cred_username creds))) w = Ok r ->
  allowed r = false ->
  authenticateUser creds w
  = (Ok (failure (too_many_attempts (default 0 (remainingTime r)))),
     exec (checkRateLimit (sanitize (cred_username creds))) w).
Proof.
  intros Hu Hp Hrun Hdenied.
  unfold authenticateUser, try_catch. cbv zeta.
  rewrite Hu, Hp. cbn [negb orb].
  change (sanitized (validateAndSanitizeInput (cred_username creds) Username))
    with (sanitize (cred_username creds)).
  unfold value, exec in *.
  destruct (checkRateLimit (sanitize (cred_username creds)) w) as [r' w1]
    eqn:Hcheck.
  cbn [fst snd] in *. subst r'.
  rewrite (bind_ok _ _ _ _ _ Hcheck). by rewrite Hdenied.
Qed.

Lemma authenticateUser_raised creds w :
  isValid (validateAndSanitizeInput (cred_username creds) Username) = true ->
  isValid (validateAndSanitizeInput (cred_password creds) Password) = true ->
  value (checkRateLimit (sanitize (cred_username creds))) w = Throw ->
  authenticateUser creds w
  = (Ok (failure (lit "Authentication failed. Please try again.")),
     exec (checkRateLimit (sanitize (cred_username creds))) w).
Proof.
  intros Hu Hp Hrun.
  unfold authenticateUser, try_catch. cbv zeta.
  rewrite Hu, Hp. cbn [negb orb].
  change (sanitized (validateAndSanitizeInput (cred_username creds) Username))
    with (sanitize (cred_username creds)).
  unfold value, exec in *.
  destruct (checkRateLimit (sanitize (cred_username creds)) w) as [r' w1]
    eqn:Hcheck.
  cbn [fst snd] in *. subst r'.
  by rewrite (bind_throw _ _ _ _ Hcheck).
Qed.

(** The outcomes of [authenticateUser] on a registry of well-shaped
    records. [w1] is the world the rate limiter leaves. *)
Lemma authenticateUser_cases creds w :
  Forall storable_user (users_of (storage w)) ->
  let name := sanitize (cred_username creds) in
  let w1 := exec (checkRateLimit name) w in
  ((isValid (validateAndSanitizeInput (cred_username creds) Username) = false
    \/ isValid (validateAndSanitizeInput (cred_password creds) Password)
       = false)
   /\ authenticateUser creds w
      = (Ok (failure (lit "Invalid username or password format")), w))
  \/ (exists r, value (checkRateLimit name) w = Ok r /\ allowed r = false
                /\ authenticateUser creds w
                   = (Ok (failure (too_many_attempts
                                     (default 0 (remainingTime r)))), w1))
  \/ authenticateUser creds w = (Ok (failure invalid_credentials), w1)
  \/ (exists u, find (has_name name) (users_of (storage w)) = Some u
                /\ retrieve (storage w) (pwd_key u)
                   = Some (hashPassword (sanitize (cred_password creds)))
                /\ authenticateUser creds w
                   = (Ok {| success := true; error := None; user := Some u |},
                      session_world u w1))
  \/ (value (checkRateLimit name) w = Throw
      /\ authenticateUser creds w
         = (Ok (failure (lit "Authentication failed. Please try again.")),
            w1)).
Proof.
  intros Hwf name w1.
  destruct (isValid (validateAndSanitizeInput (cred_username creds) Username))
    eqn:Hu;
    [|left; split; [by left|apply authenticateUser_bad_format; rewrite Hu; by left]].
  destruct (isValid (validateAndSanitizeInput (cred_password creds) Password))
    eqn:Hp;
    [|left; split; [by right|apply authenticateUser_bad_format; rewrite Hp; by right]].
  right.
  destruct (checkRateLimit_outcomes name w)
    as [Hrate | [(a & _ & _ & _ & Hrun) | (_ & _ & Hrun)] ].
  - right.
    rewrite (authenticateUser_checked creds w Hu Hp Hrate).
    fold name. fold w1.
    destruct (find (has_name name) (users_of (storage w))) as [u|] eqn:Hfind;
      [|by left].
    case_bool_decide as Hdigest; [|by left].
    right. left. exists u. split; [done|]. split; [done|].
    unfold try_catch.
    by rewrite (bind_ok _ _ _ _ _
                  (createSession_run u _ (find_storable _ _ _ Hwf Hfind))).
  - left. eexists. split; [unfold value; by rewrite Hrun|]. split; [done|].
    rewrite (authenticateUser_denied creds w
               (deny (now_of w) (lastAttempt a)) Hu Hp); [done| |done].
    unfold value. fold name. by rewrite Hrun.
  - do 3 right.
    assert (Hraise : value (checkRateLimit name) w = Throw)
      by (unfold value; by rewrite Hrun).
    split; [done|]. by apply authenticateUser_raised.
Qed.

(** X7: [registerUser] refuses a credential pair whose username or
    password fails validation, or whose password is on the denylist,
    before it reads the clock or the medium: the result is a failure and
    the world is left exactly as it was. *)
Theorem X7_rejected_registration_has_no_effect
  (creds : IAuthCredentials) (w : World) :
  isValid (validateAndSanitizeInput (cred_username creds) Username) = false
  \/ isValid (validateAndSanitizeInput (cred_password creds) Password) = false
  \/ isWeakPassword (cred_password creds) = true ->
  exists msg,
    value (registerUser creds) w
    = Ok {| success := false; error := Some msg; user := None |}
    /\ exec (registerUser creds) w = w.
Proof.
  intros H. destruct (registerUser_rejected creds w H) as [msg Hrun].
  exists msg. unfold value, exec. by rewrite Hrun.
Qed.

Lemma X7_rejected_registration_has_no_effect_witness :
  exists msg,
    value (registerUser {| cred_username := lit "demo_user";
                           cred_password := lit "Password123" |})
      (initial_world demo_clock)
    = Ok {| success := false; error := Some msg; user := None |}
    /\ exec (registerUser {| cred_username := lit "demo_user";
                             cred_password := lit "Password123" |})
         (initial_world demo_clock)
       = initial_world demo_clock.
Proof.
  apply X7_rejected_registration_has_no_effect.
  right. right. vm_compute. reflexivity.
Defined.

(** X8: once a registration has succeeded, registering the same sanitized
    username again, with any valid password that is not on the denylist,
    fails with 'Username already exists' and changes nothing. *)
Theorem X8_second_registration_is_refused
  (first second : IAuthCredentials) (w : World) (u : IUser) :
  reachable w ->
  value (registerUser first) w
  = Ok {| success := true; error := None; user := Some u |} ->
  sanitize (cred_username second) = sanitize (cred_username first) ->
  isValid (validateAndSanitizeInput (cred_password second) Password) = true ->
  isWeakPassword (cred_password second) = false ->
  value (registerUser second) (exec (registerUser first) w)
  = Ok {| success := false; error := Some (lit "Username already exists");
          user := None |}
  /\ exec (registerUser second) (exec (registerUser first) w)
     = exec (registerUser first) w.
Proof.
  intros Hreach Hok Hsame Hp Hweak.
  pose proof (reachable_storable w Hreach) as Hwf.
  unfold value, exec in *.
  destruct (registerUser_cases first w Hwf)
    as [[msg Hrun]|(Hu & Hfree & Hrun)];
    rewrite Hrun in *; cbn [fst snd] in *; [discriminate|].
  assert (Hu2 : isValid (validateAndSanitizeInput (cred_username second)
                           Username) = true).
  { unfold validateAndSanitizeInput in *. cbn [isValid] in *.
    by rewrite Hsame. }
  rewrite (registerUser_taken second _ Hu2 Hp Hweak); [done|].
  rewrite Hsame.
  rewrite (registered_world_users _ _ _ Hwf (valid_username_storable _ Hu)).
  rewrite existsb_app. cbn [existsb].
  rewrite (has_name_refl (sanitize (cred_username first))
             (new_user (sanitize (cred_username first)) w) eq_refl).
  by rewrite orb_true_r.
Qed.

Lemma X8_second_registration_is_refused_witness :
  value (registerUser {| cred_username := lit " demo_user ";
                         cred_password := lit "OtherPass456" |})
    demo_registered
  = Ok {| success := false; error := Some (lit "Username already exists");
          user := None |}
  /\ exec (registerUser {| cred_username := lit " demo_user ";
                           cred_password := lit "OtherPass456" |})
       demo_registered
     = demo_registered.
Proof.
  apply (X8_second_registration_is_refused demo_credentials
           {| cred_username := lit " demo_user ";
              cred_password := lit "OtherPass456" |}
           (initial_world demo_clock)
           (new_user (lit "demo_user") (initial_world demo_clock))).
  - apply reachable_initial.
  - vm_compute. reflexivity.
  - vm_compute. reflexivity.
  - vm_compute. reflexivity.
  - vm_compute. reflexivity.
Defined.

(** X9: an attempt whose username or password fails the format check is
    answered with 'Invalid username or password format' before the rate
    limiter is consulted: it is not counted, and the world is left
    exactly as it was. *)
Theorem X9_bad_format_is_not_counted (creds : IAuthCredentials) (w : World) :
  isValid (validateAndSanitizeInput (cred_username creds) Username) = false
  \/ isValid (validateAndSanitizeInput (cred_password creds) Password) = false ->
  value (authenticateUser creds) w
  = Ok {| success := false;
          error := Some (lit "Invalid username or password format");
          user := None |}
  /\ exec (authenticateUser creds) w = w.
Proof.
  intros H. unfold value, exec.
  by rewrite (authenticateUser_bad_format creds w H).
Qed.

Lemma X9_bad_format_is_not_counted_witness :
  value (authenticateUser {| cred_username := lit "demo_user";
                             cred_password := lit "wrong" |})
    demo_registered
  = Ok {| success := false;
          error := Some (lit "Invalid username or password format");
          user := None |}
  /\ exec (authenticateUser {| cred_username := lit "demo_user";
                               cred_password := lit "wrong" |})
       demo_registered
     = demo_registered.
Proof.
  apply X9_bad_format_is_not_counted. right. vm_compute. reflexivity.
Defined.

(** X10: while the rate limiter denies an identity, [authenticateUser]
    refuses every valid-format attempt for it, the right password
    included, with the waiting time in minutes; nothing is read from or
    written to the medium and the attempt table is left as it was. *)
Theorem X10_locked_out_whatever_the_password
  (creds : IAuthCredentials) (w : World) (r : RateLimit) :
  isValid (validateAndSanitizeInput (cred_username creds) Username) = true ->
  isValid (validateAndSanitizeInput (cred_password creds) Password) = true ->
  value (checkRateLimit (sanitize (cred_username creds))) w = Ok r ->
  allowed r = false ->
  value (authenticateUser creds) w
  = Ok {| success := false;
          error :=
            Some (lit "Too many failed attempts. Please try again in "
                  ++ toString (ceil_div (default 0 (remainingTime r)) 60)
                  ++ lit " minutes.");
          user := None |}
  /\ storage (exec (authenticateUser creds) w) = storage w
  /\ authAttempts (exec (authenticateUser creds) w) = authAttempts w.
Proof.
  intros Hu Hp Hrun Hdenied. unfold value, exec.
  rewrite (authenticateUser_denied creds w r Hu Hp Hrun Hdenied).
  cbn [fst snd]. split; [done|].
  unfold exec.
  destruct (checkRateLimit_outcomes (sanitize (cred_username creds)) w)
    as [Hr | [(a & _ & _ & _ & Hr) | (_ & _ & Hr)] ].
  - rewrite Hr in Hrun. injection Hrun as <-. discriminate.
  - by rewrite Hr.
  - unfold value in Hrun. rewrite Hr in Hrun. discriminate.
Qed.

Lemma X10_locked_out_whatever_the_password_witness :
  let w := after_checks 5 (lit "demo_user")
             (exec (registerUser demo_credentials)
                (initial_world (clock_of_list []))) in
  value (authenticateUser demo_credentials) w
  = Ok {| success := false;
          error :=
            Some (lit "Too many failed attempts. Please try again in 15 minutes.");
          user := None |}
  /\ storage (exec (authenticateUser demo_credentials) w) = storage w
  /\ authAttempts (exec (authenticateUser demo_credentials) w)
     = authAttempts w.
Proof.
  intros w.
  apply (X10_locked_out_whatever_the_password demo_credentials w
           {| allowed := false; remainingTime := Some 900 |}).
  - vm_compute. reflexivity.
  - vm_compute. reflexivity.
  - vm_compute. reflexivity.
  - reflexivity.
Defined.

Lemma session_world_attempts u w :
  authAttempts (session_world u w) = authAttempts w.
Proof. reflexivity. Qed.

(** X11: whatever the outcome of a valid-format call of
    [authenticateUser], the state it leaves to the rate limiter (the
    attempt table, and what is written on the built-in objects) is the
    state one call of [checkRateLimit] for the sanitized username
    leaves: nothing else in the call touches it. In particular a
    successful login of an identity that has an entry, made inside the
    window, counts the entry up like a failed one and does not reset
    it. *)
Theorem X11_login_counts_like_one_check
  (creds : IAuthCredentials) (w : World) :
  reachable w ->
  isValid (validateAndSanitizeInput (cred_username creds) Username) = true ->
  isValid (validateAndSanitizeInput (cred_password creds) Password) = true ->
  let name := sanitize (cred_username creds) in
  authAttempts (exec (authenticateUser creds) w)
  = authAttempts (exec (checkRateLimit name) w)
  /\ stamped (exec (authenticateUser creds) w)
     = stamped (exec (checkRateLimit name) w)
  /\ forall u a,
       value (authenticateUser creds) w
       = Ok {| success := true; error := None; user := Some u |} ->
       authAttempts w !! name = Some a ->
       now_of w - lastAttempt a <= 15 * 60 * 1000 ->
       authAttempts (exec (authenticateUser creds) w) !! name
       = Some {| count := count a + 1; lastAttempt := now_of w |}.
Proof.
  intros Hreach Hu Hp name.
  pose proof (reachable_storable w Hreach) as Hwf.
  assert (Hsame :
            authAttempts (exec (authenticateUser creds) w)
            = authAttempts (exec (checkRateLimit name) w)
            /\ stamped (exec (authenticateUser creds) w)
               = stamped (exec (checkRateLimit name) w)).
  { destruct (authenticateUser_cases creds w Hwf)
      as [ [Hbad _]
         | [(r & _ & _ & Hrun)
           | [Hrun | [(u & _ & _ & Hrun) | (_ & Hrun)] ] ] ].
    - rewrite Hu, Hp in Hbad. by destruct Hbad.
    - unfold exec at 1 3. by rewrite Hrun.
    - unfold exec at 1 3. by rewrite Hrun.
    - unfold exec at 1 3. by rewrite Hrun.
    - unfold exec at 1 3. by rewrite Hrun. }
  destruct Hsame as [Htable Hstamped].
  split; [done|]. split; [done|].
  intros u a Hok Ha Hin. rewrite Htable.
  destruct (checkRateLimit_cases name w)
    as [(e & Hrun & _ & _ & He)
       | [(a' & _ & _ & _ & Hrun) | [(Hnone & _) | (Hnone & _)] ] ];
    try congruence.
  - unfold exec. rewrite Hrun. cbn. rewrite lookup_insert_eq.
    rewrite Ha in He. unfold window in He.
    destruct He as [ [Hlate _] | (_ & _ & ->) ]; [lia|done].
  - exfalso.
    assert (Hdenied : value (checkRateLimit name) w
                      = Ok (deny (now_of w) (lastAttempt a')))
      by (unfold value; by rewrite Hrun).
    unfold value in Hok.
    by rewrite (authenticateUser_denied creds w _ Hu Hp Hdenied eq_refl)
      in Hok.
Qed.

Lemma X11_login_counts_like_one_check_witness :
  let w := exec (authenticateUser demo_credentials)
             (exec (registerUser demo_credentials)
                (initial_world (clock_of_list []))) in
  authAttempts (exec (authenticateUser demo_credentials) w) !! lit "demo_user"
  = Some {| count := 2; lastAttempt := 0 |}.
Proof.
  intros w.
  destruct (X11_login_counts_like_one_check demo_credentials w)
    as (_ & _ & Hcount).
  - apply reachable_authenticate, reachable_register, reachable_initial.
  - vm_compute. reflexivity.
  - vm_compute. reflexivity.
  - change (lit "demo_user") with (sanitize (cred_username demo_credentials)).
    rewrite (Hcount
               {| username := lit "demo_user";
                  userId := lit "user_LWh6cjd1eQ==";
                  createdAt := 0 |}
               {| count := 1; lastAttempt := 0 |}).
    + vm_compute. reflexivity.
    + vm_compute. reflexivity.
    + vm_compute. reflexivity.
    + vm_compute. congruence.
Defined.

(** X12: after a successful [authenticateUser], [getCurrentSession] read
    within 24 hours of the login returns the user who logged in, with the
    time of the login (the second clock reading of the call) as
    [createdAt], not the time of registration. *)
Theorem X12_session_after_login
  (creds : IAuthCredentials) (w : World) (u : IUser) :
  reachable w ->
  value (authenticateUser creds) w
  = Ok {| success := true; error := None; user := Some u |} ->
  clock w (5 + ticks w)%nat - clock w (1 + ticks w)%nat <= 86400000 ->
  value getCurrentSession (exec (authenticateUser creds) w)
  = Ok (Some {| username := username u; userId := userId u;
                createdAt := clock w (1 + ticks w)%nat |}).
Proof.
  intros Hreach Hok Hfresh.
  pose proof (reachable_storable w Hreach) as Hwf.
  pose proof (checkRateLimit_clock (sanitize (cred_username creds)) w)
    as (Hclock & Hticks & _).
  set (w1 := exec (checkRateLimit (sanitize (cred_username creds))) w) in *.
  unfold value in *. unfold exec at 1.
  destruct (authenticateUser_cases creds w Hwf)
    as [ [_ Hrun]
       | [(r & _ & _ & Hrun)
         | [Hrun | [(u' & Hfind & _ & Hrun) | (_ & Hrun)] ] ] ];
    fold w1 in Hrun; rewrite Hrun in *; cbn [fst snd] in *; try discriminate.
  injection Hok as <-.
  rewrite (getCurrentSession_run _ (new_session u' w1))
    by apply session_world_session, (find_storable _ _ _ Hwf Hfind).
  assert (Hnow : now_of (session_world u' w1) = clock w (5 + ticks w)%nat).
  { unfold now_of, session_world. cbn [clock ticks with_storage tick].
    by rewrite Hclock, Hticks. }
  assert (Hlogin : s_loginTime (new_session u' w1) = clock w (1 + ticks w)%nat).
  { cbn [s_loginTime new_session]. unfold now_of. by rewrite Hclock, Hticks. }
  rewrite Hnow, Hlogin.
  change (24 * 60 * 60 * 1000) with 86400000.
  replace (clock w (5 + ticks w)%nat - clock w (1 + ticks w)%nat >? 86400000)
    with false
    by (symmetry; rewrite Z.gtb_ltb; apply Z.ltb_ge; lia).
  reflexivity.
Qed.

Lemma X12_session_after_login_witness :
  value getCurrentSession
    (exec (authenticateUser demo_credentials)
       (exec (registerUser demo_credentials)
          (initial_world (clock_of_list [10; 20; 30; 40; 50; 60]))))
  = Ok (Some {| username := lit "demo_user";
                userId := userId (new_user (lit "demo_user")
                                    (initial_world
                                       (clock_of_list [10; 20; 30; 40; 50; 60])));
                createdAt := 60 |}).
Proof.
  apply (X12_session_after_login demo_credentials
           (exec (registerUser demo_credentials)
              (initial_world (clock_of_list [10; 20; 30; 40; 50; 60])))
           (new_user (lit "demo_user")
              (initial_world (clock_of_list [10; 20; 30; 40; 50; 60])))).
  - apply reachable_register, reachable_initial.
  - vm_compute. reflexivity.
  - vm_compute. congruence.
Defined.

Lemma authenticateUser_storage creds w :
  Forall storable_user (users_of (storage w)) ->
  storage (exec (authenticateUser creds) w) = storage w
  \/ exists v now,
       storage (exec (authenticateUser creds) w)
       = stored (storage w) SESSION_STORAGE_KEY v now.
Proof.
  intros Hwf.
  pose proof (checkRateLimit_clock (sanitize (cred_username creds)) w)
    as (_ & _ & Hst).
  unfold exec.
  destruct (authenticateUser_cases creds w Hwf)
    as [ [_ Hrun]
       | [(r & _ & _ & Hrun)
         | [Hrun | [(u & _ & _ & Hrun) | (_ & Hrun)] ] ] ];
    rewrite Hrun; cbn [snd]; [by left|by left|by left| |by left].
  right. unfold session_world. cbn [storage with_storage].
  rewrite Hst. by eexists _, _.
Qed.

Lemma getCurrentSession_storage w :
  storage (exec getCurrentSession w) = storage w
  \/ exists v now,
       storage (exec getCurrentSession w)
       = stored (storage w) SESSION_STORAGE_KEY v now.
Proof.
  unfold exec.
  destruct (session_of (storage w)) as [s|] eqn:Hs.
  - rewrite (getCurrentSession_run w s Hs).
    destruct (now_of w - s_loginTime s >? 24 * 60 * 60 * 1000); [|by left].
    right. unfold exec. rewrite logout_run. by eexists _, _.
  - rewrite (getCurrentSession_absent w Hs). by left.
Qed.

(** X13: [authenticateUser], [getCurrentSession] and [logout] write no
    logical key but the session's: whatever is stored under any other
    key (the registry, the password digests, the notes) reads back the
    same after the call. *)
Theorem X13_only_the_session_key_is_written
  (creds : IAuthCredentials) (key : jsstring) (w : World) :
  reachable w ->
  key <> SESSION_STORAGE_KEY ->
  value (secureRetrieve key) (exec (authenticateUser creds) w)
  = value (secureRetrieve key) w
  /\ value (secureRetrieve key) (exec getCurrentSession w)
     = value (secureRetrieve key) w
  /\ value (secureRetrieve key) (exec logout w)
     = value (secureRetrieve key) w.
Proof.
  intros Hreach Hkey.
  pose proof (reachable_storable w Hreach) as Hwf.
  unfold value. rewrite !secureRetrieve_run. cbn [fst].
  repeat split; f_equal.
  - destruct (authenticateUser_storage creds w Hwf) as [-> | (v & t & ->)];
      [done|]. by apply retrieve_stored_other, not_eq_sym.
  - destruct (getCurrentSession_storage w) as [-> | (v & t & ->)];
      [done|]. by apply retrieve_stored_other, not_eq_sym.
  - unfold exec. rewrite logout_run.
    cbn [snd with_attempts with_storage storage].
    by apply retrieve_stored_other, not_eq_sym.
Qed.

Lemma X13_only_the_session_key_is_written_witness :
  value (secureRetrieve USERS_STORAGE_KEY)
    (exec (authenticateUser demo_credentials) demo_registered)
  = value (secureRetrieve USERS_STORAGE_KEY) demo_registered.
Proof.
  apply (X13_only_the_session_key_is_written demo_credentials
           USERS_STORAGE_KEY demo_registered).
  - apply reachable_register, reachable_initial.
  - vm_compute. congruence.
Defined.

Lemma registerUser_attempts creds w :
  Forall storable_user (users_of (storage w)) ->
  authAttempts (exec (registerUser creds) w) = authAttempts w.
Proof.
  intros Hwf. unfold exec.
  destruct (registerUser_cases creds w Hwf) as [[msg ->]|(_ & _ & ->)]; done.
Qed.

Lemma getCurrentSession_attempts w :
  authAttempts (exec getCurrentSession w) = authAttempts w
  \/ authAttempts (exec getCurrentSession w) = ∅.
Proof.
  unfold exec.
  destruct (session_of (storage w)) as [s|] eqn:Hs.
  - rewrite (getCurrentSession_run w s Hs).
    destruct (now_of w - s_loginTime s >? 24 * 60 * 60 * 1000); [|by left].
    right. unfold exec. by rewrite logout_run.
  - rewrite (getCurrentSession_absent w Hs). by left.
Qed.

Lemma attempts_bounded_eq w w' :
  authAttempts w' = authAttempts w -> attempts_bounded w -> attempts_bounded w'.
Proof. intros He Hw u a. rewrite He. apply Hw. Qed.

(** X5: in every world the application can reach, every entry of the
    attempt table counts at least 1 and at most 5: the count never passes
    the lockout threshold. *)
Theorem X5_attempt_counts_stay_within_threshold (w : World) :
  reachable w ->
  forall (u : jsstring) (a : Attempt),
    authAttempts w !! u = Some a -> 1 <= count a <= 5.
Proof.
  change (reachable w -> attempts_bounded w).
  induction 1
    as [clk|c w Hr IH|c w Hr IH|w Hr IH|w Hr IH|w Hr IH|w Hr IH|uid v w Hr IH].
  - by apply attempts_bounded_empty.
  - apply (attempts_bounded_eq w); [|done].
    by apply registerUser_attempts, reachable_storable.
  - pose proof (reachable_storable w Hr) as Hwf.
    destruct (authenticateUser_cases c w Hwf)
      as [ [_ Hrun]
         | [(r & _ & _ & Hrun)
           | [Hrun | [(u & _ & _ & Hrun) | (_ & Hrun)] ] ] ];
      unfold exec at 1; rewrite Hrun; cbn [snd];
      [done|by apply checkRateLimit_bounded|by apply checkRateLimit_bounded
      | |by apply checkRateLimit_bounded].
    apply (attempts_bounded_eq (exec (checkRateLimit (sanitize (cred_username c))) w));
      [done|by apply checkRateLimit_bounded].
  - destruct (getCurrentSession_attempts w) as [He|He].
    + by apply (attempts_bounded_eq w).
    + by apply attempts_bounded_empty.
  - apply attempts_bounded_empty. unfold exec. by rewrite logout_run.
  - done.
  - by apply attempts_bounded_empty.
  - apply (attempts_bounded_eq w); [|done]. unfold exec.
    by destruct (secureStore_cases (lit "notes_" ++ uid) v w) as [-> | ->].
Qed.

Lemma X5_attempt_counts_stay_within_threshold_witness :
  1 <= count {| count := 1; lastAttempt := 1700000000004 |} <= 5.
Proof.
  apply (X5_attempt_counts_stay_within_threshold demo_logged_in
           ltac:(apply reachable_authenticate, reachable_register,
                   reachable_initial)
           (lit "demo_user")).
  vm_compute. reflexivity.
Defined.

Lemma not_named name us :
  existsb (has_name name) us = false -> name ∉ map username us.
Proof.
  intros Hfree Hin. apply list_elem_of_In, in_map_iff in Hin as (u & Hu & Hin).
  assert (Hex : existsb (has_name name) us = true).
  { apply existsb_exists. exists u. split; [done|]. by apply has_name_refl. }
  congruence.
Qed.

(** X14: in every world the application can reach, no two records of the
    registry carry the same username. *)
Theorem X14_usernames_are_unique (w : World) :
  reachable w -> NoDup (map username (users_of (storage w))).
Proof.
  induction 1
    as [clk|c w Hr IH|c w Hr IH|w Hr IH|w Hr IH|w Hr IH|w Hr IH|uid v w Hr IH].
  - apply NoDup_nil_2.
  - pose proof (reachable_storable w Hr) as Hwf. unfold exec.
    destruct (registerUser_cases c w Hwf) as [[msg ->]|(Hu & Hfree & ->)];
      [done|].
    cbn [snd].
    rewrite (registered_world_users _ _ _ Hwf (valid_username_storable _ Hu)).
    rewrite map_app. apply NoDup_app. split; [done|]. split.
    + intros name Hin Hnew. cbn in Hnew.
      apply list_elem_of_singleton in Hnew as ->.
      by apply (not_named _ _ Hfree).
    + cbn. apply NoDup_singleton.
  - by rewrite authenticateUser_users by by apply reachable_storable.
  - by rewrite getCurrentSession_users.
  - by rewrite logout_users.
  - done.
  - done.
  - rewrite secureStore_users; [done|]. vm_compute. congruence.
Qed.

Lemma X14_usernames_are_unique_witness :
  NoDup (map username (users_of (storage demo_logged_in))).
Proof.
  apply X14_usernames_are_unique.
  apply reachable_authenticate, reachable_register, reachable_initial.
Defined.

End AuthServiceMore.

(** ** More on the codec and the secure store *)

Section SecureStoreMore.

Lemma lxor_keeps_high_bits c k :
  256 <= c < 65536 -> 0 <= k <= 255 -> 256 <= Z.lxor c k < 65536.
Proof.
  intros Hc Hk.
  assert (Hnn : 0 <= Z.lxor c k) by (apply Z.lxor_nonneg; lia).
  split.
  - assert (Hhigh : Z.lxor c k / 256 = c / 256).
    { change 256 with (2 ^ 8). rewrite <- !Z.shiftr_div_pow2 by lia.
      rewrite Z.shiftr_lxor, (Z.shiftr_div_pow2 k) by lia.
      rewrite (Z.div_small k) by lia. apply Z.lxor_0_r. }
    assert (1 <= c / 256) by zdiv.
    rewrite <- Hhigh in *. zdiv.
  - destruct (decide (Z.lxor c k = 0)) as [->|Hne]; [lia|].
    change 65536 with (2 ^ 16). apply Z.log2_lt_pow2; [lia|].
    pose proof (Z.log2_lxor c k ltac:(lia) ltac:(lia)) as Hlog.
    assert (Z.log2 c < 16) by (apply Z.log2_lt_pow2; lia).
    assert (Z.log2 k < 16).
    { destruct (decide (k = 0)) as [->|]; [done|].
      apply Z.log2_lt_pow2; lia. }
    lia.
Qed.

Lemma imap_Exists (f : nat -> Z -> Z) (Q : Z -> Prop) c l :
  c ∈ l -> (forall i, Q (f i c)) -> Exists Q (imap f l).
Proof.
  intros Hin. revert f. induction Hin as [c l|c d l _ IH]; intros f Hf.
  - cbn [imap]. by apply Exists_cons_hd.
  - cbn [imap]. apply Exists_cons_tl, IH. intros i. apply Hf.
Qed.

Lemma forallb_false_exists {A} (f : A -> bool) l :
  forallb f l = false -> exists x, x ∈ l /\ f x = false.
Proof.
  induction l as [|y l IH]; [done|]. cbn [forallb].
  intros H. apply andb_false_iff in H as [H|H].
  - exists y. split; [apply list_elem_of_here|done].
  - destruct (IH H) as (x & Hin & Hx). exists x.
    split; [by apply list_elem_of_further|done].
Qed.

Lemma encrypt_wide_unit text key c :
  Forall byte key -> c ∈ text -> 255 < c < 65536 -> encrypt text key = None.
Proof.
  intros Hk Hin Hc. unfold encrypt, btoa.
  destruct (is_latin1 (xor_with_key text key)) eqn:Hl; [|done].
  apply is_latin1_Forall in Hl. exfalso.
  assert (Hex : Exists (fun x => 255 < x) (xor_with_key text key)).
  { unfold xor_with_key. apply (imap_Exists _ _ c); [done|].
    intros i. pose proof (key_code_byte key i Hk) as Hb. unfold byte in Hb.
    pose proof (lxor_keeps_high_bits c (key_code key i) ltac:(lia) Hb).
    rewrite Z.mod_small; lia. }
  apply Exists_exists in Hex as (x & Hx & Hwide).
  rewrite Forall_forall in Hl. specialize (Hl x Hx). unfold byte in Hl. lia.
Qed.

(** X16: with a key of one-byte code units (every key [getEncryptionKey]
    makes is one), [encrypt] raises exactly when the text holds a code
    unit above 0xFF; otherwise it returns the base64 of the XOR-ed text. *)
Theorem X16_encrypt_raises_iff_wide_unit (text key : jsstring) :
  Forall (fun c => 0 <= c < 65536) text ->
  Forall byte key ->
  (encrypt text key = None <-> exists c, c ∈ text /\ 255 < c)
  /\ (Forall byte text ->
      encrypt text key = Some (btoa_bytes (xor_with_key text key))).
Proof.
  intros Hunits Hk. split; [|intros Ht; by apply encrypt_latin1].
  split.
  - intros Hnone.
    destruct (is_latin1 text) eqn:Hl.
    + apply is_latin1_Forall in Hl.
      by rewrite (encrypt_latin1 _ _ Hl Hk) in Hnone.
    + apply forallb_false_exists in Hl as (c & Hin & Hc). exists c.
      split; [done|]. rewrite Forall_forall in Hunits.
      specialize (Hunits c Hin). unfold in_range in Hc.
      apply andb_false_iff in Hc as [Hc|Hc]; unbool; lia.
  - intros (c & Hin & Hc). apply (encrypt_wide_unit text key c); [done|done|].
    rewrite Forall_forall in Hunits. specialize (Hunits c Hin). lia.
Qed.

Lemma X16_encrypt_raises_iff_wide_unit_witness :
  encrypt (lit "caf" ++ [233]) (encryption_key 1700000000000)
  = Some (btoa_bytes
            (xor_with_key (lit "caf" ++ [233]) (encryption_key 1700000000000)))
  /\ (encrypt (lit "pi = " ++ [960]) (encryption_key 1700000000000) = None
      <-> exists c, c ∈ lit "pi = " ++ [960] /\ 255 < c).
Proof.
  split.
  - apply (X16_encrypt_raises_iff_wide_unit (lit "caf" ++ [233])
             (encryption_key 1700000000000)).
    + repeat (apply Forall_cons; split; [vm_compute; split; congruence|]).
      apply Forall_nil_2.
    + apply encryption_key_byte.
    + repeat (apply Forall_cons; split; [vm_compute; split; congruence|]).
      apply Forall_nil_2.
  - apply (X16_encrypt_raises_iff_wide_unit (lit "pi = " ++ [960])
             (encryption_key 1700000000000)).
    + repeat (apply Forall_cons; split; [vm_compute; split; congruence|]).
      apply Forall_nil_2.
    + apply encryption_key_byte.
Defined.

(** X17: [secureStore] of a value holding a code unit above 0xFF raises
    and writes nothing: both slots of the key, and the whole medium, stay
    as they were. *)
Theorem X17_secureStore_wide_unit_writes_nothing
  (key value0 : jsstring) (c : Z) (w : World) :
  c ∈ value0 -> 255 < c < 65536 ->
  value (secureStore key value0) w = Throw
  /\ storage (exec (secureStore key value0) w) = storage w
  /\ authAttempts (exec (secureStore key value0) w) = authAttempts w.
Proof.
  intros Hin Hc.
  assert (Hrun : secureStore key value0 w = (Throw, tick w)).
  { unfold secureStore, try_catch.
    rewrite (bind_ok _ _ _ _ _ (getEncryptionKey_run w)).
    by rewrite (encrypt_wide_unit value0 _ c (encryption_key_byte _) Hin Hc). }
  unfold value, exec. by rewrite Hrun.
Qed.

Lemma X17_secureStore_wide_unit_writes_nothing_witness :
  value (secureStore (lit "notes_user_MzllMWFv") (lit "pi = " ++ [960]))
    demo_registered
  = Throw
  /\ storage (exec (secureStore (lit "notes_user_MzllMWFv")
                      (lit "pi = " ++ [960])) demo_registered)
     = storage demo_registered
  /\ authAttempts (exec (secureStore (lit "notes_user_MzllMWFv")
                           (lit "pi = " ++ [960])) demo_registered)
     = authAttempts demo_registered.
Proof.
  apply (X17_secureStore_wide_unit_writes_nothing _ _ 960).
  - apply elem_of_app. right. apply list_elem_of_here.
  - lia.
Defined.

(** X15: a non-empty value of one-byte code units stored under a key is
    read back unchanged under that key, whatever was there before, and
    the values under all other keys read back as before the write. *)
Theorem X15_secureStore_secureRetrieve (key value0 : jsstring) (w : World) :
  Forall byte value0 -> value0 <> [] ->
  value (secureStore key value0) w = Ok tt
  /\ value (secureRetrieve key) (exec (secureStore key value0) w)
     = Ok (Some value0)
  /\ forall other,
       other <> key ->
       value (secureRetrieve other) (exec (secureStore key value0) w)
       = value (secureRetrieve other) w.
Proof.
  intros Hv Hne. unfold value, exec.
  rewrite (secureStore_run key value0 w Hv). cbn [fst snd].
  split; [done|]. split.
  - rewrite secureRetrieve_run. cbn [fst with_storage storage].
    rewrite (retrieve_stored _ key value0 _ Hv). by destruct value0.
  - intros other Hother. rewrite !secureRetrieve_run.
    cbn [fst with_storage storage tick].
    by rewrite retrieve_stored_other by by apply not_eq_sym.
Qed.

Lemma X15_secureStore_secureRetrieve_witness :
  value (secureRetrieve (lit "notes_user_MzllMWFv"))
    (exec (secureStore (lit "notes_user_MzllMWFv") (lit "[]")) demo_registered)
  = Ok (Some (lit "[]")).
Proof.
  apply (X15_secureStore_secureRetrieve (lit "notes_user_MzllMWFv") (lit "[]")
           demo_registered).
  - apply lit_byte.
  - vm_compute. congruence.
Defined.

(** X18: [secureRetrieve] never raises and never changes the world. It
    returns null when the ciphertext slot or the key slot is missing or
    empty, and when the key slot is not base64 (the error of [atob] is
    caught). *)
Theorem X18_secureRetrieve_is_safe (key : jsstring) (w : World) :
  exists r,
    secureRetrieve key w = (Ok r, w)
    /\ (storage w !! secure_slot key = None
        \/ storage w !! secure_slot key = Some []
        \/ storage w !! key_slot key = None
        \/ storage w !! key_slot key = Some []
        \/ (exists k, storage w !! key_slot key = Some k /\ atob k = None) ->
        r = None).
Proof.
  exists (retrieve (storage w) key). split; [apply secureRetrieve_run|].
  unfold retrieve.
  intros [->|[->|[->|[->|(k & -> & Hk)]]]]; try done.
  - by destruct (storage w !! secure_slot key) as [[|? ?]|].
  - by destruct (storage w !! secure_slot key) as [[|? ?]|].
  - destruct (storage w !! secure_slot key) as [[|? ?]|]; try done.
    destruct k; [done|]. by rewrite Hk.
Qed.

End SecureStoreMore.

(** ** More on the digest and the ids *)

Section DigestMore.

Lemma to_int32_range z : - 2 ^ 31 <= to_int32 z < 2 ^ 31.
Proof. unfold to_int32. zdiv. Qed.

Lemma polynomial_hash_range p : - 2 ^ 31 <= polynomial_hash p < 2 ^ 31.
Proof.
  unfold polynomial_hash.
  destruct p as [|c p] using rev_ind; [cbn; lia|].
  rewrite fold_left_app. cbn [fold_left]. apply to_int32_range.
Qed.

Lemma digits_acc_length fuel radix n acc k :
  1 < radix -> 1 <= k -> 0 <= n < radix ^ k ->
  (Z.of_nat (length (digits_acc fuel radix n acc))
   <= k + Z.of_nat (length acc)).
Proof.
  intros Hr. revert n acc k.
  induction fuel as [|fuel IH]; intros n acc k Hk Hn; [cbn; lia|].
  cbn [digits_acc]. destruct (n / radix =? 0) eqn:Hq; unbool.
  - cbn [length]. lia.
  - assert (Hk2 : 2 <= k).
    { destruct (decide (k = 1)) as [->|]; [|lia].
      rewrite Z.pow_1_r in Hn. exfalso. apply Hq. apply Z.div_small. lia. }
    assert (Hdiv : 0 <= n / radix < radix ^ (k - 1)).
    { split; [apply Z.div_pos; lia|].
      apply Z.div_lt_upper_bound; [lia|].
      replace (radix * radix ^ (k - 1)) with (radix ^ k); [lia|].
      rewrite <- Z.pow_succ_r by lia. f_equal. lia. }
    specialize (IH (n / radix) (digit_char (n mod radix) :: acc) (k - 1)
                  ltac:(lia) Hdiv).
    cbn [length] in IH. lia.
Qed.

Lemma toString_36_length n :
  - 36 ^ 6 < n < 36 ^ 6 -> (length (toString_radix 36 n) <= 7)%nat.
Proof.
  intros Hn. unfold toString_radix, digits.
  destruct (n <? 0) eqn:Hneg; unbool.
  - pose proof (digits_acc_length (S (Z.to_nat (Z.log2 (- n)))) 36 (- n) [] 6
                  ltac:(lia) ltac:(lia) ltac:(lia)) as Hlen.
    cbn [length] in *. lia.
  - pose proof (digits_acc_length (S (Z.to_nat (Z.log2 n))) 36 n [] 6
                  ltac:(lia) ltac:(lia) ltac:(lia)) as Hlen.
    cbn [length] in *. lia.
Qed.

Lemma btoa_bytes_short s :
  (length s <= 7)%nat -> (length (btoa_bytes s) <= 12)%nat.
Proof.
  intros Hs.
  do 8 (destruct s as [|? s]; [cbn; lia|]). cbn in Hs. lia.
Qed.

Lemma hashPassword_length password : (length (hashPassword password) <= 12)%nat.
Proof.
  destruct (decide (password = [])) as [->|Hne].
  { change (hashPassword []) with [48]. cbn [length]. lia. }
  rewrite (hashPassword_nonempty _ Hne).
  apply btoa_bytes_short, toString_36_length.
  pose proof (polynomial_hash_range password).
  change (36 ^ 6) with 2176782336. change (2 ^ 31) with 2147483648 in *. lia.
Qed.

(** X19: the digest [hashPassword] returns has at most 12 code units, so
    the [substring(0, 12)] of [generateSecureUserId] never drops anything:
    the id is [user_] followed by the whole digest of the username and
    the time stamp, and has at most 17 code units. *)
Theorem X19_user_id_carries_the_whole_digest (name : jsstring) (w : World) :
  generateSecureUserId name w
  = (Ok (lit "user_" ++ hashPassword (name ++ toString (now_of w))), tick w)
  /\ (length (hashPassword (name ++ toString (now_of w))) <= 12)%nat.
Proof.
  split; [|apply hashPassword_length].
  rewrite generateSecureUserId_run. unfold substring0.
  by rewrite take_ge by apply hashPassword_length.
Qed.

(** Swapping [Aa] for [BB] anywhere in a text keeps its polynomial
    hash. *)
Lemma polynomial_hash_Aa_BB pre post :
  polynomial_hash (pre ++ [65; 97] ++ post)
  = polynomial_hash (pre ++ [66; 66] ++ post).
Proof.
  unfold polynomial_hash. rewrite !fold_left_app. cbn [fold_left].
  f_equal. apply to_int32_congr. unfold to_int32. zdiv.
Qed.

(** X21: digests collide by construction: replacing the two letters [Aa]
    by [BB] anywhere in a password gives a different password with the
    same digest (65*31 + 97 = 66*31 + 66). *)
Theorem X21_digest_collisions (pre post : jsstring) :
  pre ++ [65; 97] ++ post <> pre ++ [66; 66] ++ post
  /\ hashPassword (pre ++ [65; 97] ++ post)
     = hashPassword (pre ++ [66; 66] ++ post).
Proof.
  split.
  - intros H. apply app_inv_head in H. discriminate.
  - rewrite !hashPassword_nonempty by (by destruct pre).
    by rewrite polynomial_hash_Aa_BB.
Qed.

Lemma digit_value_char d : 0 <= d < 36 -> digit_value (digit_char d) = d.
Proof.
  intros Hd. unfold digit_value, digit_char.
  repeat (case_match; unbool; try lia).
Qed.

Lemma digits_acc_radix_value fuel radix n acc a :
  2 <= radix <= 36 ->
  0 <= n < 2 ^ Z.of_nat fuel ->
  exists k, 0 <= k /\
    fold_left (fun acc c => acc * radix + digit_value c)
      (digits_acc fuel radix n acc) a
    = fold_left (fun acc c => acc * radix + digit_value c) acc
        (a * radix ^ k + n).
Proof.
  intros Hr. revert n acc a.
  induction fuel as [|fuel IH]; intros n acc a Hn.
  - exists 0. split; [done|]. cbn [digits_acc]. f_equal.
    change (2 ^ Z.of_nat 0) with 1 in Hn. lia.
  - cbn [digits_acc].
    assert (Hd : digit_value (digit_char (n mod radix)) = n mod radix).
    { apply digit_value_char. pose proof (Z.mod_pos_bound n radix). lia. }
    destruct (n / radix =? 0) eqn:Hq; unbool.
    + exists 1. split; [done|]. cbn [fold_left]. rewrite Hd. f_equal.
      rewrite Z.pow_1_r. pose proof (Z.div_mod n radix ltac:(lia)). nia.
    + destruct (IH (n / radix) (digit_char (n mod radix) :: acc) a)
        as (k & Hk & ->).
      { rewrite Nat2Z.inj_succ, Z.pow_succ_r in Hn by lia.
        split; [apply Z.div_pos; lia|].
        apply Z.div_lt_upper_bound; nia. }
      exists (k + 1). split; [lia|]. cbn [fold_left]. rewrite Hd. f_equal.
      rewrite Z.pow_add_r, Z.pow_1_r by lia.
      pose proof (Z.div_mod n radix ltac:(lia)). nia.
Qed.

Lemma radix_value_digits radix n :
  2 <= radix <= 36 -> 0 <= n -> radix_value radix (digits radix n) = n.
Proof.
  intros Hr Hn. unfold radix_value, digits.
  destruct (digits_acc_radix_value (S (Z.to_nat (Z.log2 n))) radix n [] 0 Hr)
    as (k & _ & ->); [split; [done|by apply digits_fuel]|].
  cbn [fold_left]. lia.
Qed.

Lemma digits_head radix n :
  2 <= radix <= 36 -> exists c ds, digits radix n = c :: ds /\ 48 <= c.
Proof.
  intros Hr.
  assert (Hall : Forall (fun c => 48 <= c) (digits radix n)).
  { unfold digits. apply digits_acc_Forall; [lia| |constructor].
    intros d Hd. pose proof (digit_char_byte radix d Hr Hd). lia. }
  pose proof (digits_nonempty radix n).
  destruct (digits radix n) as [|c ds]; [done|].
  apply Forall_cons in Hall as [Hc _]. by exists c, ds.
Qed.

Lemma toString_radix_inj radix n m :
  2 <= radix <= 36 ->
  toString_radix radix n = toString_radix radix m -> n = m.
Proof.
  intros Hr. unfold toString_radix.
  destruct (n <? 0) eqn:Hn, (m <? 0) eqn:Hm; unbool; intros H.
  - injection H as H. apply (f_equal (radix_value radix)) in H.
    rewrite !radix_value_digits in H by lia. lia.
  - destruct (digits_head radix m Hr) as (c & ds & Hd & Hc).
    rewrite Hd in H. injection H as H _. lia.
  - destruct (digits_head radix n Hr) as (c & ds & Hd & Hc).
    rewrite Hd in H. injection H as H _. lia.
  - apply (f_equal (radix_value radix)) in H.
    by rewrite !radix_value_digits in H by lia.
Qed.

Lemma btoa_bytes_inj s t :
  Forall byte s -> Forall byte t -> btoa_bytes s = btoa_bytes t -> s = t.
Proof.
  intros Hs Ht H. apply (f_equal atob_chars) in H.
  rewrite !atob_chars_btoa_bytes in H by done. by injection H.
Qed.

(** X20: the encoding of the digest loses nothing: two non-empty
    passwords have the same digest exactly when their 32-bit polynomial
    hashes are equal. *)
Theorem X20_digest_equality_is_hash_equality (p q : jsstring) :
  p <> [] -> q <> [] ->
  hashPassword p = hashPassword q <-> polynomial_hash p = polynomial_hash q.
Proof.
  intros Hp Hq. rewrite !hashPassword_nonempty by done.
  split; [|by intros ->].
  intros H.
  apply btoa_bytes_inj in H; try (apply toString_radix_byte; lia).
  apply toString_radix_inj in H; lia.
Qed.

Lemma X20_digest_equality_is_hash_equality_witness :
  hashPassword (lit "Password1Aa") = hashPassword (lit "Password1BB")
  <-> polynomial_hash (lit "Password1Aa") = polynomial_hash (lit "Password1BB").
Proof.
  apply X20_digest_equality_is_hash_equality; vm_compute; congruence.
Defined.

End DigestMore.

(** ** Credentials and their sanitized forms *)

Section SanitizedForms.

Lemma validate_depends_on_sanitized input input' type :
  sanitize input = sanitize input' ->
  validateAndSanitizeInput input type = validateAndSanitizeInput input' type.
Proof. intros H. unfold validateAndSanitizeInput. by rewrite H. Qed.

(** X22: [authenticateUser] sees the credentials only through their
    sanitized forms: two credential pairs whose usernames, and whose
    passwords, have the same sanitized form get the same answer and
    leave the same world. Surrounding white space and the stripped
    characters do not count as part of a password. *)
Theorem X22_login_depends_on_sanitized_forms
  (creds creds' : IAuthCredentials) (w : World) :
  sanitize (cred_username creds) = sanitize (cred_username creds') ->
  sanitize (cred_password creds) = sanitize (cred_password creds') ->
  authenticateUser creds w = authenticateUser creds' w.
Proof.
  intros Hu Hp. unfold authenticateUser. cbv zeta.
  rewrite (validate_depends_on_sanitized _ _ Username Hu).
  by rewrite (validate_depends_on_sanitized _ _ Password Hp).
Qed.

Lemma X22_login_depends_on_sanitized_forms_witness :
  authenticateUser {| cred_username := lit "  demo_user ";
                      cred_password := lit "Secure(Pass)123!" |}
    demo_registered
  = authenticateUser demo_credentials demo_registered.
Proof.
  apply X22_login_depends_on_sanitized_forms; vm_compute; reflexivity.
Defined.

(** X23: for a registered user, when both formats are valid and the rate
    limiter allows the attempt, [authenticateUser] succeeds if and only
    if the stored digest is the digest of the sanitized password. *)
Theorem X23_login_succeeds_iff_digests_agree
  (creds : IAuthCredentials) (w : World) (u : IUser) :
  reachable w ->
  isValid (validateAndSanitizeInput (cred_username creds) Username) = true ->
  isValid (validateAndSanitizeInput (cred_password creds) Password) = true ->
  value (checkRateLimit (sanitize (cred_username creds))) w
  = Ok {| allowed := true; remainingTime := None |} ->
  find (has_name (sanitize (cred_username creds))) (users_of (storage w))
  = Some u ->
  value (authenticateUser creds) w
  = Ok {| success := true; error := None; user := Some u |}
  <-> retrieve (storage w) (pwd_key u)
      = Some (hashPassword (sanitize (cred_password creds))).
Proof.
  intros Hreach Hu Hp Hrate Hfind.
  pose proof (reachable_storable w Hreach) as Hwf.
  unfold value.
  rewrite (authenticateUser_checked creds w Hu Hp Hrate), Hfind.
  case_bool_decide as Hdigest.
  - unfold try_catch.
    rewrite (bind_ok _ _ _ _ _
               (createSession_run u _ (find_storable _ _ _ Hwf Hfind))).
    done.
  - split; [discriminate|done].
Qed.

Lemma X23_login_succeeds_iff_digests_agree_witness :
  value (authenticateUser demo_credentials) demo_registered
  = Ok {| success := true; error := None;
          user := Some (new_user (lit "demo_user") (initial_world demo_clock)) |}
  <-> retrieve (storage demo_registered)
        (pwd_key (new_user (lit "demo_user") (initial_world demo_clock)))
      = Some (hashPassword (sanitize (cred_password demo_credentials))).
Proof.
  apply X23_login_succeeds_iff_digests_agree.
  - apply reachable_register, reachable_initial.
  - vm_compute. reflexivity.
  - vm_compute. reflexivity.
  - vm_compute. reflexivity.
  - vm_compute. reflexivity.
Defined.

Lemma word_char_range c : is_word_char c = true -> 48 <= c <= 122.
Proof.
  unfold is_word_char, in_range. intros H.
  repeat (apply orb_prop in H as [H|H]); unbool; lia.
Qed.

Lemma not_whitespace_range c : 33 <= c <= 126 -> is_js_whitespace c = false.
Proof.
  intros Hc. apply not_true_is_false. intros H.
  unfold is_js_whitespace, in_range in H.
  repeat (apply orb_prop in H as [H|H]); unbool; lia.
Qed.

Lemma dangerous_range c : is_dangerous c = true -> 34 <= c <= 62.
Proof.
  unfold is_dangerous. intros H.
  repeat (apply orb_prop in H as [H|H]); unbool; lia.
Qed.

Lemma word_char_not_dangerous c :
  is_word_char c = true -> is_dangerous c = false.
Proof.
  unfold is_word_char, in_range, is_dangerous. intros H.
  repeat (apply orb_prop in H as [H|H]); unbool;
    repeat (apply orb_false_intro); apply Z.eqb_neq; lia.
Qed.

Lemma trim_start_head c s :
  is_js_whitespace c = false -> trim_start (c :: s) = c :: s.
Proof. intros H. cbn [trim_start]. by rewrite H. Qed.

(** A text without white space is its own trim. *)
Lemma trim_no_whitespace s :
  Forall (fun c => is_js_whitespace c = false) s -> trim s = s.
Proof.
  intros Hs. unfold trim.
  assert (Hstart : forall t, Forall (fun c => is_js_whitespace c = false) t ->
                             trim_start t = t).
  { intros [|c t] Ht; [done|]. apply Forall_cons in Ht as [Hc _].
    by apply trim_start_head. }
  rewrite (Hstart s Hs), Hstart, rev_involutive; [done|].
  by apply Forall_rev.
Qed.

Lemma script_match_not_lt c s : c <> 60 -> script_match (c :: s) = None.
Proof.
  intros Hc. unfold script_match.
  change (lit "<script") with (60 :: lit "script").
  cbn [starts_with_ci].
  assert (Hl : (lower_ascii c =? 60) = false).
  { apply Z.eqb_neq. unfold lower_ascii, in_range.
    case_match; unbool; lia. }
  by rewrite Hl.
Qed.

Lemma strip_scripts_no_lt s t :
  Forall (fun c => c <> 60) s ->
  strip_scripts 0 (s ++ t) = s ++ strip_scripts 0 t.
Proof.
  induction 1 as [|c s Hc _ IH]; [done|].
  cbn [app strip_scripts]. rewrite (script_match_not_lt c _ Hc).
  by rewrite IH.
Qed.

Lemma strip_scripts_single d : strip_scripts 0 [d] = [d].
Proof.
  cbn [strip_scripts]. unfold script_match.
  change (lit "<script") with (60 :: 115 :: lit "cript").
  cbn [starts_with_ci]. rewrite andb_false_r. done.
Qed.

Lemma filter_word p :
  Forall (fun c => is_word_char c = true) p ->
  filter (fun c => is_dangerous c = false) p = p.
Proof.
  intros Hp. apply filter_all.
  eapply Forall_impl; [exact Hp|]. apply word_char_not_dangerous.
Qed.

Lemma word_no_whitespace p :
  Forall (fun c => is_word_char c = true) p ->
  Forall (fun c => is_js_whitespace c = false) p.
Proof.
  intros Hp. eapply Forall_impl; [exact Hp|]. intros c Hc.
  apply not_whitespace_range. apply word_char_range in Hc. lia.
Qed.

Lemma word_no_lt p :
  Forall (fun c => is_word_char c = true) p -> Forall (fun c => c <> 60) p.
Proof.
  intros Hp. eapply Forall_impl; [exact Hp|]. intros x Hx ->.
  apply word_char_not_dangerous in Hx. discriminate.
Qed.

(** A text of letters, digits and underscores is its own sanitized
    form. *)
Lemma sanitize_word p :
  Forall (fun c => is_word_char c = true) p -> sanitize p = p.
Proof.
  intros Hp. unfold sanitize.
  rewrite (trim_no_whitespace _ (word_no_whitespace _ Hp)).
  rewrite <- (app_nil_r p) at 1.
  rewrite (strip_scripts_no_lt _ _ (word_no_lt _ Hp)). cbn [strip_scripts].
  rewrite app_nil_r. by apply filter_word.
Qed.

(** Followed by one stripped character, it is sanitized to itself. *)
Lemma sanitize_word_then_dangerous p d :
  Forall (fun c => is_word_char c = true) p ->
  is_dangerous d = true ->
  sanitize (p ++ [d]) = p.
Proof.
  intros Hp Hd. unfold sanitize.
  rewrite trim_no_whitespace.
  - rewrite (strip_scripts_no_lt _ _ (word_no_lt _ Hp)), strip_scripts_single.
    rewrite filter_app, (filter_word _ Hp).
    rewrite filter_cons_False, filter_nil by (by rewrite Hd).
    by rewrite app_nil_r.
  - apply Forall_app. split; [by apply word_no_whitespace|].
    apply Forall_cons. split; [|apply Forall_nil_2].
    apply not_whitespace_range. apply dangerous_range in Hd. lia.
Qed.

Lemma weakPasswords_words :
  Forall (Forall (fun c => is_word_char c = true)) weakPasswords.
Proof.
  assert (H : forallb (forallb is_word_char) weakPasswords = true)
    by (vm_compute; reflexivity).
  rewrite forallb_forall in H. apply Forall_forall. intros y Hy.
  apply list_elem_of_In, H in Hy. rewrite forallb_forall in Hy.
  apply Forall_forall. intros c Hc. by apply Hy, list_elem_of_In.
Qed.

(** No text that ends with a stripped character is on the denylist. *)
Lemma not_weak_with_dangerous p d :
  is_dangerous d = true -> isWeakPassword (p ++ [d]) = false.
Proof.
  intros Hd. apply not_true_is_false. intros Hweak.
  unfold isWeakPassword in Hweak.
  apply existsb_exists in Hweak as (y & Hy & Heq).
  unfold jsstring_eqb in Heq. apply bool_decide_eq_true in Heq.
  pose proof weakPasswords_words as Hwords.
  rewrite Forall_forall in Hwords.
  specialize (Hwords y ltac:(by apply list_elem_of_In)).
  rewrite <- Heq in Hwords. unfold toLowerCase in Hwords.
  rewrite map_app in Hwords. apply Forall_app in Hwords as [_ Hlast].
  cbn [map] in Hlast. apply Forall_cons in Hlast as [Hlast _].
  pose proof (dangerous_range d Hd) as Hr.
  replace (d =? 8490) with false in Hlast
    by (symmetry; apply Z.eqb_neq; lia).
  unfold lower_ascii, in_range in Hlast.
  replace (65 <=? d) with false in Hlast by (symmetry; apply Z.leb_gt; lia).
  cbn [andb] in Hlast.
  apply word_char_not_dangerous in Hlast. congruence.
Qed.

(** X24: the denylist is checked on the password as typed, the digest is
    taken of the sanitized password. So a password of letters, digits
    and underscores that has the valid format, on the denylist or not,
    is registered when one stripped character is appended to it, and the
    account then opens with the password itself. *)
Theorem X24_denylist_is_bypassed_by_a_stripped_character
  (user pass : jsstring) (d : Z) (w : World) :
  reachable w ->
  isValid (validateAndSanitizeInput user Username) = true ->
  Forall (fun c => is_word_char c = true) pass ->
  isValid (validateAndSanitizeInput pass Password) = true ->
  is_dangerous d = true ->
  existsb (has_name (sanitize user)) (users_of (storage w)) = false ->
  let typed := {| cred_username := user; cred_password := pass ++ [d] |} in
  let plain := {| cred_username := user; cred_password := pass |} in
  exists u,
    value (registerUser typed) w
    = Ok {| success := true; error := None; user := Some u |}
    /\ (value (checkRateLimit (sanitize user)) (exec (registerUser typed) w)
        = Ok {| allowed := true; remainingTime := None |} ->
        value (authenticateUser plain) (exec (registerUser typed) w)
        = Ok {| success := true; error := None; user := Some u |}).
Proof.
  intros Hreach Hu Hword Hp Hd Hfree typed plain.
  pose proof (reachable_storable w Hreach) as Hwf.
  pose proof (valid_username_storable _ Hu) as Hname.
  pose proof (sanitize_word_then_dangerous pass d Hword Hd) as Hs.
  pose proof (sanitize_word pass Hword) as Hs'.
  assert (Hp' : isValid (validateAndSanitizeInput (pass ++ [d]) Password)
                = true).
  { rewrite (validate_depends_on_sanitized (pass ++ [d]) pass); [done|].
    by rewrite Hs, Hs'. }
  pose proof (registerUser_run typed w Hu Hp'
                (not_weak_with_dangerous pass d Hd) Hwf Hfree) as Hrun.
  cbn [cred_username cred_password typed] in Hrun. rewrite Hs in Hrun.
  exists (new_user (sanitize user) w).
  unfold value, exec. rewrite Hrun. cbn [fst snd]. split; [done|].
  intros Hrate.
  rewrite (authenticateUser_checked plain _ Hu Hp Hrate).
  cbn [cred_username cred_password plain].
  rewrite (registered_world_users _ _ _ Hwf Hname).
  rewrite (find_app_last _ _ (new_user (sanitize user) w) Hfree)
    by by apply has_name_refl.
  rewrite Hs'.
  rewrite bool_decide_eq_true_2 by apply registered_world_digest.
  unfold try_catch.
  rewrite (bind_ok _ _ _ _ _
             (createSession_run (new_user (sanitize user) w) _
                (new_user_storable _ w Hname))).
  reflexivity.
Qed.

Lemma X24_denylist_is_bypassed_by_a_stripped_character_witness :
  isWeakPassword (lit "Password123") = true
  /\ exists u,
      value (registerUser {| cred_username := lit "demo_user";
                             cred_password := lit "Password123" ++ [59] |})
        (initial_world demo_clock)
      = Ok {| success := true; error := None; user := Some u |}
      /\ value (authenticateUser {| cred_username := lit "demo_user";
                                    cred_password := lit "Password123" |})
           (exec (registerUser {| cred_username := lit "demo_user";
                                  cred_password := lit "Password123" ++ [59] |})
              (initial_world demo_clock))
         = Ok {| success := true; error := None; user := Some u |}.
Proof.
  split; [vm_compute; reflexivity|].
  destruct (X24_denylist_is_bypassed_by_a_stripped_character
              (lit "demo_user") (lit "Password123") 59
              (initial_world demo_clock))
    as (u & Hreg & Hauth).
  - apply reachable_initial.
  - vm_compute. reflexivity.
  - apply Forall_forall. intros c Hc.
    assert (H : forallb is_word_char (lit "Password123") = true)
      by (vm_compute; reflexivity).
    rewrite forallb_forall in H. by apply H, list_elem_of_In.
  - vm_compute. reflexivity.
  - vm_compute. reflexivity.
  - vm_compute. reflexivity.
  - exists u. split; [exact Hreg|]. apply Hauth. vm_compute. reflexivity.
Defined.

End SanitizedForms.

(** ** The demo accounts *)

Section DemoUsers.

Lemma initializeDemoUsers_nonempty w :
  users_of (storage w) <> [] -> initializeDemoUsers w = (Ok tt, w).
Proof.
  intros Hne. unfold initializeDemoUsers, try_catch.
  rewrite (bind_ok _ _ _ _ _ (getStoredUsers_run w)).
  by destruct (users_of (storage w)).
Qed.

Lemma initializeDemoUsers_empty w :
  users_of (storage w) = [] ->
  let w1 := registered_world (lit "demo_user") (lit "SecurePass123!") w in
  initializeDemoUsers w
  = (Ok tt, registered_world (lit "test_user") (lit "TestPass456!") w1)
  /\ users_of (storage (registered_world (lit "test_user")
                          (lit "TestPass456!") w1))
     = [new_user (lit "demo_user") w; new_user (lit "test_user") w1].
Proof.
  intros Hempty w1.
  assert (Hwf : Forall storable_user (users_of (storage w)))
    by (rewrite Hempty; apply Forall_nil_2).
  assert (Hdemo : Forall storable (lit "demo_user")).
  { apply (valid_username_storable (lit "demo_user")).
    vm_compute. reflexivity. }
  assert (Htest : Forall storable (lit "test_user")).
  { apply (valid_username_storable (lit "test_user")).
    vm_compute. reflexivity. }
  assert (Husers1 : users_of (storage w1) = [new_user (lit "demo_user") w]).
  { unfold w1. rewrite (registered_world_users _ _ _ Hwf Hdemo).
    by rewrite Hempty. }
  assert (Hwf1 : Forall storable_user (users_of (storage w1))).
  { rewrite Husers1. apply Forall_cons.
    split; [by apply new_user_storable|apply Forall_nil_2]. }
  split.
  - unfold initializeDemoUsers, try_catch.
    rewrite (bind_ok _ _ _ _ _ (getStoredUsers_run w)).
    rewrite Hempty. cbn [length Nat.eqb].
    rewrite (bind_ok _ _ _ _ _
               (registerUser_run
                  {| cred_username := lit "demo_user";
                     cred_password := lit "SecurePass123!" |} w
                  eq_refl eq_refl eq_refl Hwf
                  ltac:(by rewrite Hempty))).
    change (sanitize (cred_username {| cred_username := lit "demo_user";
                                       cred_password := lit "SecurePass123!" |}))
      with (lit "demo_user").
    change (sanitize (cred_password {| cred_username := lit "demo_user";
                                       cred_password := lit "SecurePass123!" |}))
      with (lit "SecurePass123!").
    fold w1.
    rewrite (bind_ok _ _ _ _ _
               (registerUser_run
                  {| cred_username := lit "test_user";
                     cred_password := lit "TestPass456!" |} w1
                  eq_refl eq_refl eq_refl Hwf1
                  ltac:(by rewrite Husers1))).
    reflexivity.
  - rewrite (registered_world_users _ _ _ Hwf1 Htest). by rewrite Husers1.
Qed.

(** X25: [initializeDemoUsers] does nothing when the registry holds a
    user; on an empty registry it registers [demo_user] and [test_user],
    in this order. Calling it a second time therefore changes nothing. *)
Theorem X25_demo_users_are_created_once (w : World) :
  value initializeDemoUsers w = Ok tt
  /\ (users_of (storage w) <> [] -> exec initializeDemoUsers w = w)
  /\ (users_of (storage w) = [] ->
      map username (users_of (storage (exec initializeDemoUsers w)))
      = [lit "demo_user"; lit "test_user"])
  /\ exec initializeDemoUsers (exec initializeDemoUsers w)
     = exec initializeDemoUsers w.
Proof.
  unfold value, exec.
  destruct (users_of (storage w)) as [|u us] eqn:Hus.
  - destruct (initializeDemoUsers_empty w Hus) as [Hrun Husers].
    rewrite Hrun. cbn [fst snd].
    split; [done|]. split; [done|]. split; [by rewrite Husers|].
    rewrite initializeDemoUsers_nonempty; [done|]. by rewrite Husers.
  - assert (Hne : users_of (storage w) <> []) by by rewrite Hus.
    rewrite (initializeDemoUsers_nonempty w Hne). cbn [fst snd].
    split; [done|]. split; [done|]. split; [done|].
    by rewrite (initializeDemoUsers_nonempty w Hne).
Qed.

End DemoUsers.

(** ** The notes of a user *)

Section NotesStorage.

Lemma hex_value_digit d : 0 <= d < 16 -> hex_value (hex_digit d) = Some d.
Proof.
  intros Hd. unfold hex_value, hex_digit, digit_char.
  destruct (d <? 10) eqn:E; unbool.
  - rewrite (proj2 (in_range_spec 48 57 (48 + d))) by lia. f_equal. lia.
  - destruct (in_range 48 57 (87 + d)) eqn:E2;
      [apply in_range_spec in E2; lia|].
    rewrite (proj2 (in_range_spec 97 102 (87 + d))) by lia. f_equal. lia.
Qed.

Lemma parse_unicode_escape h3 h4 s :
  parse_string_body (92 :: 117 :: 48 :: 48 :: h3 :: h4 :: s)
  = d3 ← hex_value h3; d4 ← hex_value h4;
    '(str, rest) ← parse_string_body s;
    Some ((d3 * 16 + d4) :: str, rest).
Proof. reflexivity. Qed.

(** Reading an escaped code unit gives the code unit back. *)
Lemma parse_string_body_escape c s :
  byte c ->
  parse_string_body (json_escape c ++ s)
  = '(str, rest) ← parse_string_body s; Some (c :: str, rest).
Proof.
  intros [Hlo Hhi]. unfold json_escape.
  repeat (case_match; unbool; [subst; reflexivity|]).
  case_match; unbool.
  - cbn [app]. rewrite parse_unicode_escape.
    rewrite !hex_value_digit by (Z.div_mod_to_equations; lia).
    cbn [mbind option_bind].
    replace (c / 16 * 16 + c mod 16) with c
      by (Z.div_mod_to_equations; lia).
    reflexivity.
  - cbn [app parse_string_body].
    repeat (case_match; unbool; try lia). done.
Qed.

Lemma parse_string_body_bytes s rest :
  Forall byte s ->
  parse_string_body (concat (map json_escape s) ++ 34 :: rest)
  = Some (s, rest).
Proof.
  induction 1 as [|c s Hc _ IH]; [done|].
  cbn [map concat]. rewrite <- app_assoc.
  by rewrite (parse_string_body_escape c _ Hc), IH.
Qed.

Lemma parse_string_quote_bytes s rest :
  Forall byte s -> parse_string (json_quote s ++ rest) = Some (s, rest).
Proof.
  intros Hs. unfold json_quote, parse_string. cbn [app].
  rewrite <- app_assoc. by apply parse_string_body_bytes.
Qed.

Lemma parse_note_stringify n rest :
  byte_note n -> parse_note (JSON_stringify_note n ++ rest) = Some (n, rest).
Proof.
  intros (Htitle & Htext & Hid). unfold parse_note, JSON_stringify_note.
  rewrite <- !app_assoc.
  rewrite (app_assoc [123] (json_key "title")), expect_app.
  cbn [mbind option_bind]. rewrite parse_string_quote_bytes by done.
  cbn [mbind option_bind].
  rewrite (app_assoc [44] (json_key "text")), expect_app.
  cbn [mbind option_bind]. rewrite parse_string_quote_bytes by done.
  cbn [mbind option_bind].
  rewrite (app_assoc [44] (json_key "createdAt")), expect_app.
  cbn [mbind option_bind].
  rewrite parse_integer_toString by (cbn; unfold is_digit; lia).
  cbn [mbind option_bind].
  rewrite (app_assoc [44] (json_key "id")), expect_app.
  cbn [mbind option_bind]. rewrite parse_string_quote_bytes by done.
  cbn [mbind option_bind]. rewrite (expect_app [125] rest).
  cbn [mbind option_bind]. by destruct n.
Qed.

Lemma parse_note_list_elements ns n fuel tail :
  Forall byte_note (n :: ns) ->
  (length (n :: ns) <= fuel)%nat ->
  parse_note_list fuel
    (json_elements (map JSON_stringify_note (n :: ns)) ++ 93 :: tail)
  = Some (n :: ns, tail).
Proof.
  revert n fuel. induction ns as [|n' ns IH]; intros n fuel Hwf Hfuel.
  - destruct fuel as [|fuel]; [simpl in Hfuel; lia|].
    apply Forall_cons in Hwf as [Hn _].
    cbn [map json_elements parse_note_list].
    by rewrite (parse_note_stringify n _ Hn).
  - destruct fuel as [|fuel]; [simpl in Hfuel; lia|].
    apply Forall_cons in Hwf as [Hn Hwf].
    cbn [map]. rewrite json_elements_cons, <- !app_assoc.
    cbn [parse_note_list].
    rewrite (parse_note_stringify n _ Hn). cbn [mbind option_bind app].
    change (JSON_stringify_note n' :: map JSON_stringify_note ns)
      with (map JSON_stringify_note (n' :: ns)).
    rewrite (IH n' fuel Hwf) by (simpl in *; lia). done.
Qed.

Lemma note_elements_length ns :
  (length ns <= length (json_elements (map JSON_stringify_note ns)))%nat.
Proof.
  induction ns as [|n [|n' ns] IH]; [done|simpl; lia|].
  cbn [map]. rewrite json_elements_cons, !length_app.
  cbn [map] in IH. cbn [length] in *. lia.
Qed.

(** [JSON.parse] reads back the notes [JSON.stringify] wrote. *)
Lemma JSON_parse_stringify_notes ns :
  Forall byte_note ns ->
  JSON_parse_notes (JSON_stringify_notes ns) = Some ns.
Proof.
  intros Hwf. destruct ns as [|n ns]; [done|].
  unfold JSON_stringify_notes.
  pose proof (note_elements_length (n :: ns)) as Hlen.
  assert (Hhead : exists t,
             json_elements (map JSON_stringify_note (n :: ns)) = 123 :: t).
  { destruct ns; cbn [map json_elements]; eauto. }
  destruct Hhead as [t Ht]. rewrite Ht.
  cbn [app JSON_parse_notes].
  change (123 :: t ++ [93]) with ((123 :: t) ++ [93]). rewrite <- Ht.
  rewrite (parse_note_list_elements ns n _ [] Hwf); [done|].
  rewrite length_app. lia.
Qed.

Lemma json_escape_byte c : byte c -> Forall byte (json_escape c).
Proof.
  intros [Hlo Hhi]. unfold json_escape.
  repeat (case_match; [repeat constructor; unfold byte; lia|]).
  case_match; unbool.
  - repeat constructor; unfold byte, hex_digit, digit_char;
      try case_match; Z.div_mod_to_equations; lia.
  - repeat constructor; unfold byte; lia.
Qed.

Lemma json_quote_bytes s : Forall byte s -> Forall byte (json_quote s).
Proof.
  intros Hs. unfold json_quote.
  constructor; [unfold byte; lia|].
  apply Forall_app; split; [|repeat constructor; unfold byte; lia].
  induction Hs as [|c s Hc _ IH]; [constructor|].
  cbn [map concat]. apply Forall_app. split; [by apply json_escape_byte|done].
Qed.

Lemma JSON_stringify_note_byte n :
  byte_note n -> Forall byte (JSON_stringify_note n).
Proof.
  intros (Htitle & Htext & Hid). unfold JSON_stringify_note.
  repeat (apply Forall_app; split);
    try (apply byte_singleton; lia);
    try apply json_key_byte;
    try (by apply json_quote_bytes).
  apply toString_radix_byte; lia.
Qed.

Lemma note_elements_byte ns :
  Forall byte_note ns ->
  Forall byte (json_elements (map JSON_stringify_note ns)).
Proof.
  induction ns as [|n [|n' ns] IH]; intros Hwf.
  - constructor.
  - apply Forall_cons in Hwf as [Hn _]. by apply JSON_stringify_note_byte.
  - apply Forall_cons in Hwf as [Hn Hwf].
    cbn [map]. rewrite json_elements_cons.
    apply Forall_app; split; [by apply JSON_stringify_note_byte|].
    apply Forall_app; split; [apply byte_singleton; lia|by apply IH].
Qed.

Lemma JSON_stringify_notes_byte ns :
  Forall byte_note ns -> Forall byte (JSON_stringify_notes ns).
Proof.
  intros Hwf. unfold JSON_stringify_notes.
  apply Forall_app; split; [apply byte_singleton; lia|].
  apply Forall_app; split; [by apply note_elements_byte|].
  apply byte_singleton; lia.
Qed.

Lemma getStoredNotes_run uid w :
  getStoredNotes uid w = (Ok (notes_of (storage w) uid), w).
Proof.
  unfold getStoredNotes, notes_of, try_catch.
  rewrite (bind_ok _ _ _ _ _ (secureRetrieve_run (lit "notes_" ++ uid) w)).
  destruct (retrieve (storage w) (lit "notes_" ++ uid)) as [[|c t]|];
    try reflexivity.
  cbn -[JSON_parse_notes].
  destruct (JSON_parse_notes (c :: t)); reflexivity.
Qed.

Lemma storeNotes_run uid notes w :
  Forall byte_note notes ->
  storeNotes uid notes w
  = (Ok tt,
     with_storage
       (stored (storage w) (lit "notes_" ++ uid) (JSON_stringify_notes notes)
          (now_of w))
       (tick w)).
Proof.
  intros Hwf. unfold storeNotes. apply try_catch_ok.
  apply secureStore_run. by apply JSON_stringify_notes_byte.
Qed.

(** X26: notes whose texts are one-byte code units (control characters,
    quotes and backslashes included) are read back by [getStoredNotes]
    exactly as [storeNotes] saved them, for the same user id; the notes
    of every other user id and the values under every other key read as
    before. *)
Theorem X26_notes_are_read_back (uid : jsstring) (notes : list INote)
  (w : World) :
  Forall byte_note notes ->
  value (storeNotes uid notes) w = Ok tt
  /\ value (getStoredNotes uid) (exec (storeNotes uid notes) w) = Ok notes
  /\ (forall other,
        other <> uid ->
        value (getStoredNotes other) (exec (storeNotes uid notes) w)
        = value (getStoredNotes other) w)
  /\ (forall key,
        key <> lit "notes_" ++ uid ->
        value (secureRetrieve key) (exec (storeNotes uid notes) w)
        = value (secureRetrieve key) w).
Proof.
  intros Hwf. unfold value, exec.
  rewrite (storeNotes_run uid notes w Hwf). cbn [fst snd].
  pose proof (JSON_stringify_notes_byte notes Hwf) as Hbyte.
  split; [done|]. split; [|split].
  - rewrite getStoredNotes_run. cbn [fst with_storage storage].
    unfold notes_of. rewrite (retrieve_stored _ _ _ _ Hbyte).
    pose proof (JSON_parse_stringify_notes notes Hwf) as Hparse.
    destruct (JSON_stringify_notes notes) as [|c text] eqn:Hjson;
      [discriminate|].
    by rewrite Hparse.
  - intros other Hother. rewrite !getStoredNotes_run.
    cbn [fst with_storage storage]. unfold notes_of.
    rewrite retrieve_stored_other; [done|].
    intros E. apply app_inv_head in E. by apply Hother.
  - intros key Hkey. rewrite !secureRetrieve_run.
    cbn [fst with_storage storage].
    by rewrite retrieve_stored_other.
Qed.

Lemma json_escape_wide c : wide c -> json_escape c = [c].
Proof.
  unfold wide, json_escape. intros Hc.
  repeat (case_match; unbool; try lia). done.
Qed.

Lemma json_quote_wide c s : wide c -> c ∈ s -> c ∈ json_quote s.
Proof.
  intros Hc Hin. unfold json_quote.
  apply list_elem_of_further, elem_of_app. left.
  induction Hin as [c s|c d s _ IH]; cbn [map concat]; apply elem_of_app.
  - left. rewrite (json_escape_wide c Hc). apply list_elem_of_here.
  - right. by apply IH.
Qed.

Lemma JSON_stringify_note_wide c s n :
  wide c -> c ∈ s -> s ∈ note_texts n -> c ∈ JSON_stringify_note n.
Proof.
  intros Hc Hin Hs. pose proof (json_quote_wide c s Hc Hin) as Hq.
  unfold note_texts in Hs. unfold JSON_stringify_note.
  apply elem_of_cons in Hs as [->|Hs];
    [|apply elem_of_cons in Hs as [->|Hs];
      [|apply list_elem_of_singleton in Hs as ->]];
    repeat (apply elem_of_app; first [by left|right]).
Qed.

Lemma json_elements_elem c x items :
  c ∈ x -> x ∈ items -> c ∈ json_elements items.
Proof.
  intros Hc Hx. induction Hx as [x items|x y items Hx IH].
  - destruct items as [|y items]; [done|].
    rewrite json_elements_cons. apply elem_of_app. by left.
  - destruct items as [|z items]; [by apply elem_of_nil in Hx|].
    rewrite json_elements_cons. apply elem_of_app. right.
    apply elem_of_app. right. by apply IH.
Qed.

Lemma JSON_stringify_notes_wide c s n notes :
  wide c -> c ∈ s -> s ∈ note_texts n -> n ∈ notes ->
  c ∈ JSON_stringify_notes notes.
Proof.
  intros Hc Hin Hs Hn. unfold JSON_stringify_notes.
  apply elem_of_app. right. apply elem_of_app. left.
  apply (json_elements_elem c (JSON_stringify_note n)).
  - by apply (JSON_stringify_note_wide c s).
  - by apply list_elem_of_fmap_2.
Qed.

Lemma secureStore_wide_run key v c w :
  c ∈ v -> 255 < c < 65536 -> secureStore key v w = (Throw, tick w).
Proof.
  intros Hin Hc. unfold secureStore, try_catch.
  rewrite (bind_ok _ _ _ _ _ (getEncryptionKey_run w)).
  by rewrite (encrypt_wide_unit v _ c (encryption_key_byte _) Hin Hc).
Qed.

(** X27: when a title, a text or an id of one of the notes holds a code
    unit above 255 that is no surrogate (a Greek letter, the euro sign),
    [storeNotes] raises and writes nothing: [getStoredNotes] goes on
    returning the notes saved before. *)
Theorem X27_a_wide_character_blocks_saving (uid : jsstring)
  (notes : list INote) (n : INote) (s : jsstring) (c : Z) (w : World) :
  n ∈ notes -> s ∈ note_texts n -> c ∈ s -> wide c ->
  value (storeNotes uid notes) w = Throw
  /\ storage (exec (storeNotes uid notes) w) = storage w
  /\ value (getStoredNotes uid) (exec (storeNotes uid notes) w)
     = value (getStoredNotes uid) w.
Proof.
  intros Hn Hs Hin Hc.
  assert (Hrun : storeNotes uid notes w = (Throw, tick w)).
  { unfold storeNotes.
    rewrite (try_catch_throw _ _ w (tick w)); [done|].
    apply (secureStore_wide_run _ _ c).
    - by apply (JSON_stringify_notes_wide c s n).
    - unfold wide in Hc. lia. }
  unfold value, exec. rewrite Hrun. cbn [fst snd].
  split; [done|]. split; [done|].
  by rewrite !getStoredNotes_run.
Qed.

Lemma X26_notes_are_read_back_witness :
  value (getStoredNotes (lit "user_MzllMWFv"))
    (exec (storeNotes (lit "user_MzllMWFv")
             [{| n_title := lit "Area"; n_text := lit "A = r * r" ++ [10; 34];
                 n_createdAt := 1700000000000;
                 n_id := lit "user_abc" |}])
       demo_registered)
  = Ok [{| n_title := lit "Area"; n_text := lit "A = r * r" ++ [10; 34];
           n_createdAt := 1700000000000;
           n_id := lit "user_abc" |}].
Proof.
  apply (X26_notes_are_read_back (lit "user_MzllMWFv")
           [{| n_title := lit "Area"; n_text := lit "A = r * r" ++ [10; 34];
               n_createdAt := 1700000000000;
               n_id := lit "user_abc" |}]
           demo_registered).
  apply Forall_cons. split; [|apply Forall_nil_2].
  unfold byte_note. cbn [n_title n_text n_id].
  split; [apply lit_byte|]. split; [|apply lit_byte].
  apply Forall_app. split; [apply lit_byte|].
  apply Forall_cons. split; [unfold byte; lia|].
  apply byte_singleton. lia.
Defined.

Lemma X27_a_wide_character_blocks_saving_witness :
  value (storeNotes (lit "user_MzllMWFv")
           [{| n_title := lit "Circle"; n_text := lit "A = " ++ [960; 114; 178];
               n_createdAt := 1700000000000;
               n_id := lit "user_abc" |}])
    demo_registered
  = Throw.
Proof.
  apply (X27_a_wide_character_blocks_saving (lit "user_MzllMWFv")
           [{| n_title := lit "Circle"; n_text := lit "A = " ++ [960; 114; 178];
               n_createdAt := 1700000000000;
               n_id := lit "user_abc" |}]
           {| n_title := lit "Circle"; n_text := lit "A = " ++ [960; 114; 178];
              n_createdAt := 1700000000000;
              n_id := lit "user_abc" |}
           (lit "A = " ++ [960; 114; 178]) 960 demo_registered).
  - apply list_elem_of_here.
  - unfold note_texts. cbn [n_title n_text n_id].
    apply list_elem_of_further, list_elem_of_here.
  - apply elem_of_app. right. apply list_elem_of_here.
  - unfold wide. lia.
Defined.

End NotesStorage.

(** ** The denylist of passwords *)

Section WeakPasswords.

Lemma password_valid_inv input :
  isValid (validateAndSanitizeInput input Password) = true ->
  (8 <= length (sanitize input))%nat
  /\ password_pattern (sanitize input) = true.
Proof.
  rewrite isValid_errors by reflexivity.
  unfold validateAndSanitizeInput. cbn [errors].
  rewrite !push_if_nil_iff.
  intros (Hpat & Hlen & _). apply negb_false_iff in Hpat. unbool.
  split; [lia|done].
Qed.

Lemma lower_fixed c :
  in_range 48 57 c = true \/ in_range 97 122 c = true ->
  (if c =? 8490 then 107 else lower_ascii c) = c.
Proof.
  intros H.
  assert (48 <= c <= 122)
    by (destruct H as [H|H]; apply in_range_spec in H; lia).
  destruct (c =? 8490) eqn:E; unbool; [lia|].
  unfold lower_ascii. destruct (in_range 65 90 c) eqn:E2; [|done].
  apply in_range_spec in E2.
  destruct H as [H|H]; apply in_range_spec in H; lia.
Qed.

(** A class of digits or lower-case letters that the lower-cased input
    lacks is also absent from the sanitized input. *)
Lemma class_absent (cls : Z -> bool) p e :
  (forall c, cls c = true ->
             in_range 48 57 c = true \/ in_range 97 122 c = true) ->
  toLowerCase p = e ->
  existsb cls e = false ->
  existsb cls (sanitize p) = false.
Proof.
  intros Hcls Hlow Habsent.
  destruct (existsb cls (sanitize p)) eqn:E; [|done].
  apply existsb_exists in E as (c & Hin & Hc).
  apply list_elem_of_In in Hin.
  assert (Hp : c ∈ p).
  { eapply elem_of_submseteq; [exact Hin|].
    apply sublist_submseteq, sanitize_sublist. }
  assert (He : c ∈ e).
  { rewrite <- Hlow. unfold toLowerCase.
    rewrite <- (lower_fixed c (Hcls c Hc)) at 1.
    by apply (list_elem_of_fmap_2
                (fun c => if c =? 8490 then 107 else lower_ascii c)). }
  assert (existsb cls e = true); [|congruence].
  apply existsb_exists. exists c. split; [by apply list_elem_of_In|done].
Qed.

(** A denylisted password that passes the format check is a spelling of
    [password123]. *)
Lemma weak_valid_password123 p :
  isWeakPassword p = true ->
  isValid (validateAndSanitizeInput p Password) = true ->
  toLowerCase p = lit "password123".
Proof.
  intros Hweak Hvalid.
  apply password_valid_inv in Hvalid as [Hlen Hpat].
  apply password_pattern_classes in Hpat as (Hl & Hu & Hd).
  pose proof (sublist_length _ _ (sanitize_sublist p)) as Hsub.
  assert (Hmap : length (toLowerCase p) = length p)
    by (unfold toLowerCase; apply length_map).
  unfold isWeakPassword, weakPasswords in Hweak. cbn [existsb] in Hweak.
  repeat (apply orb_prop in Hweak as [Hweak|Hweak]); try discriminate;
    unfold jsstring_eqb in Hweak; apply bool_decide_eq_true in Hweak;
    first
      [ exact Hweak
      | rewrite Hweak in Hmap; cbn in Hmap; lia
      | rewrite (class_absent (in_range 48 57) p _
                   ltac:(intros; by left) Hweak eq_refl) in Hd;
        discriminate
      | rewrite (class_absent (in_range 97 122) p _
                   ltac:(intros; by right) Hweak eq_refl) in Hl;
        discriminate ].
Qed.

(** X28: when [registerUser] is given a valid username and a denylisted
    password, it answers 'too common' only for a mixed-case spelling of
    [password123]; every other denylisted password fails the format
    check, which runs first, and is answered with the format errors. *)
Theorem X28_too_common_means_password123
  (creds : IAuthCredentials) (w : World) :
  isValid (validateAndSanitizeInput (cred_username creds) Username) = true ->
  isWeakPassword (cred_password creds) = true ->
  (toLowerCase (cred_password creds) = lit "password123"
   /\ isValid (validateAndSanitizeInput (cred_password creds) Password) = true
   /\ value (registerUser creds) w
      = Ok (failure
              (lit "Password is too common. Please choose a stronger password.")))
  \/ (isValid (validateAndSanitizeInput (cred_password creds) Password) = false
      /\ value (registerUser creds) w
         = Ok (failure
                 (join (lit ", ")
                    (errors (validateAndSanitizeInput (cred_password creds)
                               Password))))).
Proof.
  intros Hu Hweak.
  destruct (isValid (validateAndSanitizeInput (cred_password creds) Password))
    eqn:Hp.
  - left. split; [by apply weak_valid_password123|]. split; [done|].
    unfold value, registerUser, try_catch. cbv zeta.
    by rewrite Hu, Hp, Hweak.
  - right. split; [done|].
    unfold value, registerUser, try_catch. cbv zeta.
    by rewrite Hu, Hp.
Qed.

Lemma X28_too_common_means_password123_witness :
  (toLowerCase (lit "Password123") = lit "password123"
   /\ isValid (validateAndSanitizeInput (lit "Password123") Password) = true
   /\ value (registerUser {| cred_username := lit "demo_user";
                             cred_password := lit "Password123" |})
        (initial_world demo_clock)
      = Ok (failure
              (lit "Password is too common. Please choose a stronger password.")))
  \/ (isValid (validateAndSanitizeInput (lit "Password123") Password) = false
      /\ value (registerUser {| cred_username := lit "demo_user";
                                cred_password := lit "Password123" |})
           (initial_world demo_clock)
         = Ok (failure
                 (join (lit ", ")
                    (errors (validateAndSanitizeInput (lit "Password123")
                               Password))))).
Proof.
  apply (X28_too_common_means_password123
           {| cred_username := lit "demo_user";
              cred_password := lit "Password123" |}
           (initial_world demo_clock)).
  - vm_compute. reflexivity.
  - vm_compute. reflexivity.
Defined.

End WeakPasswords.

(** ** Identities that name a member of [Object.prototype] *)

Section PrototypeNames.






End PrototypeNames.
